(** * A sharded in-process key-value store served by a worker pool

    Shallow embedding of [main.cpp]: the request type, the blocking queue,
    the shard and the sharded store, and the thread pool as an interleaving
    of atomic critical sections driven by an explicit schedule. *)

From stdpp Require Import base strings list gmap.
From Stdlib Require Import NArith.

Local Open Scope string_scope.
Local Open Scope list_scope.
Local Open Scope nat_scope.

(** ** Request *)

Inductive OpType := GET | SET | DEL.

Record Request := mkRequest {
  type : OpType;
  key : string;
  value : string  (* only for SET *)
}.

#[global] Instance OpType_eq_dec : EqDecision OpType.
Proof. solve_decision. Defined.

#[global] Instance Request_eq_dec : EqDecision Request.
Proof. solve_decision. Defined.

(** ** BlockingQueue

    Every member function runs under the mutex [m], so each call is one
    atomic transition of the pair (q, stopped).  The condition variable only
    decides who is woken; a woken [pop] re-evaluates its predicate under the
    lock, which is one more call of [pop] on the state of that moment. *)

Module BlockingQueue.
Section Queue.
Context {T : Type}.

Record t := mk {
  q : list T;
  stopped : bool
}.

(** A freshly constructed queue: empty, [stopped = false]. *)
Definition empty : t := {| q := []; stopped := false |}.

(** [q.push(std::move(item))] under the lock. *)
Definition push (item : T) (bq : t) : t :=
  {| q := q bq ++ [item]; stopped := stopped bq |}.

(** The three outcomes of [pop]: the wait predicate is false and the
    caller stays blocked; [return false]; [return true] with the front. *)
Inductive PopResult :=
| PopWait
| PopEnd
| PopItem (item : T) (bq' : t).

(** The predicate of [cv.wait]: [stopped || !q.empty()]. *)
Definition wait_pred (bq : t) : bool :=
  stopped bq || negb (bool_decide (q bq = [])).

Definition pop (bq : t) : PopResult :=
  if negb (wait_pred bq) then PopWait
  else if stopped bq && bool_decide (q bq = []) then PopEnd
  else match q bq with
       | item :: rest => PopItem item {| q := rest; stopped := stopped bq |}
       | [] => PopEnd  (* not reached: the two tests above exclude it *)
       end.

Definition shutdown (bq : t) : t :=
  {| q := q bq; stopped := true |}.

(** A sequential history of calls on one queue, in the order in which they
    take the mutex. *)
Inductive Op := OpPush (item : T) | OpPop | OpShutdown.

Inductive Outcome := OutItem (item : T) | OutEnd | OutWait.

Definition call (o : Op) (bq : t) : t * option Outcome :=
  match o with
  | OpPush item => (push item bq, None)
  | OpShutdown => (shutdown bq, None)
  | OpPop =>
      match pop bq with
      | PopWait => (bq, Some OutWait)
      | PopEnd => (bq, Some OutEnd)
      | PopItem item bq' => (bq', Some (OutItem item))
      end
  end.

Fixpoint calls (os : list Op) (bq : t) : t * list Outcome :=
  match os with
  | [] => (bq, [])
  | o :: os' =>
      let '(bq1, out) := call o bq in
      let '(bq2, outs) := calls os' bq1 in
      (bq2, match out with Some r => r :: outs | None => outs end)
  end.

(** The items pushed by a history, and the items its pops returned. *)
Fixpoint pushed (os : list Op) : list T :=
  match os with
  | [] => []
  | OpPush item :: os' => item :: pushed os'
  | _ :: os' => pushed os'
  end.

Fixpoint delivered (rs : list Outcome) : list T :=
  match rs with
  | [] => []
  | OutItem item :: rs' => item :: delivered rs'
  | _ :: rs' => delivered rs'
  end.

Definition is_push (o : Op) : bool :=
  match o with OpPush _ => true | _ => false end.

End Queue.
Arguments t : clear implicits.
Arguments Op : clear implicits.
Arguments Outcome : clear implicits.
Arguments PopResult : clear implicits.
End BlockingQueue.

(** ** Shard

    [data] is the [std::unordered_map]; [get] runs under the shared lock,
    [set] and [del] under the exclusive lock. *)

Module Shard.

Abbreviation t := (gmap string string).

Definition empty : t := ∅.

(** [data.find(key)]: [std::nullopt] when absent, the mapped value
    otherwise. *)
Definition get (key : string) (data : t) : option string :=
  data !! key.

(** [data[key] = value]. *)
Definition set (key value : string) (data : t) : t :=
  <[key := value]> data.

(** [data.erase(key)]. *)
Definition del (key : string) (data : t) : t :=
  delete key data.

(** What a store call hands back to the worker: the optional of a [GET],
    or nothing for the [void] calls. *)
Inductive Reply := RVal (v : option string) | RVoid.

(** One request served by a single shard: the new contents and the
    reply. *)
Definition exec (r : Request) (data : t) : t * Reply :=
  match type r with
  | GET => (data, RVal (get (key r) data))
  | SET => (set (key r) (value r) data, RVoid)
  | DEL => (del (key r) data, RVoid)
  end.

Fixpoint exec_all (rs : list Request) (data : t) : t * list Reply :=
  match rs with
  | [] => (data, [])
  | r :: rs' =>
      let '(d1, rep) := exec r data in
      let '(d2, reps) := exec_all rs' d1 in
      (d2, rep :: reps)
  end.

End Shard.

Export Shard (Reply, RVal, RVoid).

(** ** KVStore

    [shards] is a [std::vector<Shard>] of fixed length.  [std::hash] is
    implementation-defined, so the store is parametrised by it. *)

Module KVStore.
Section Store.
Variable hash : string → N.

Abbreviation t := (list (gmap string string)).

(** [KVStore(shardCount) : shards(shardCount)]: that many empty shards. *)
Definition make (shardCount : nat) : t :=
  replicate shardCount Shard.empty.

(** [std::hash<std::string>{}(key) % shards.size()].  With no shard the
    remainder is undefined; that case is [None]. *)
Definition index (key : string) (shards : t) : option nat :=
  if bool_decide (length shards = 0) then None
  else Some (N.to_nat (hash key `mod` N.of_nat (length shards))%N).

(** [shard(key)]: the position and the contents of the shard that
    [shards[index]] refers to. *)
Definition shard (key : string) (shards : t) : option (nat * gmap string string) :=
  i ← index key shards;
  d ← shards !! i;
  Some (i, d).

Definition get (key : string) (shards : t) : option (option string) :=
  '(_, d) ← shard key shards;
  Some (Shard.get key d).

Definition set (key value : string) (shards : t) : option t :=
  '(i, d) ← shard key shards;
  Some (<[i := Shard.set key value d]> shards).

Definition del (key : string) (shards : t) : option t :=
  '(i, d) ← shard key shards;
  Some (<[i := Shard.del key d]> shards).

(** The store call selected by the [switch] of the worker loop. *)
Definition exec (r : Request) (shards : t) : option (t * Reply) :=
  match type r with
  | GET => v ← get (key r) shards; Some (shards, RVal v)
  | SET => s' ← set (key r) (value r) shards; Some (s', RVoid)
  | DEL => s' ← del (key r) shards; Some (s', RVoid)
  end.

Fixpoint exec_all (rs : list Request) (shards : t) : option (t * list Reply) :=
  match rs with
  | [] => Some (shards, [])
  | r :: rs' =>
      '(s1, rep) ← exec r shards;
      '(s2, reps) ← exec_all rs' s1;
      Some (s2, rep :: reps)
  end.

(** The store [shards] shows the contents [m]: it has a shard, and every
    [get] answers as the lookup in [m]. *)
Definition shows (shards : t) (m : gmap string string) : Prop :=
  0 < length shards ∧ ∀ k, get k shards = Some (m !! k).

(** Every key that a shard holds is routed to that shard. *)
Definition partitioned (shards : t) : Prop :=
  ∀ i d k, shards !! i = Some d → is_Some (d !! k) → index k shards = Some i.

End Store.
End KVStore.

(** ** A single flat map

    The reference object for the sharded store: one mapping from keys to
    values with the three operations as the specification words them. *)

Module Flat.

(** Returns the current value if present, else absent. *)
Definition get (k : string) (m : gmap string string) : option string :=
  m !! k.

(** Inserts or overwrites the value for the key. *)
Definition set (k v : string) (m : gmap string string) : gmap string string :=
  <[k := v]> m.

(** Removes the key if present; no-op if absent. *)
Definition del (k : string) (m : gmap string string) : gmap string string :=
  match m !! k with
  | Some _ => delete k m
  | None => m
  end.

Definition exec (r : Request) (m : gmap string string)
  : gmap string string * Reply :=
  match type r with
  | GET => (m, RVal (get (key r) m))
  | SET => (set (key r) (value r) m, RVoid)
  | DEL => (del (key r) m, RVoid)
  end.

Fixpoint exec_all (rs : list Request) (m : gmap string string)
  : gmap string string * list Reply :=
  match rs with
  | [] => (m, [])
  | r :: rs' =>
      let '(m1, rep) := exec r m in
      let '(m2, reps) := exec_all rs' m1 in
      (m2, rep :: reps)
  end.

(** The entry of key [k] after the requests [rs], from the entry [cur]:
    each [SET] or [DEL] on [k] overrides what was there. *)
Definition writes (k : string) (r : Request) : bool :=
  bool_decide (key r = k) && negb (bool_decide (type r = GET)).

Definition written (r : Request) : option string :=
  match type r with SET => Some (value r) | _ => None end.

Fixpoint final (k : string) (rs : list Request) (cur : option string)
  : option string :=
  match rs with
  | [] => cur
  | r :: rs' => final k rs' (if writes k r then written r else cur)
  end.

End Flat.

(** ** ThreadPool

    The pool is a set of threads over one queue and one store.  Each thread
    moves by atomic steps: a queue call (under the queue mutex), a store call
    (under the shard lock), one [operator<<] on [std::cout], or a [join].
    A schedule, the list of the threads that are given the next step, fixes
    the interleaving. *)

Module ThreadPool.

(** One operand of [operator<<]. *)
Inductive Chunk := CStr (s : string) | CInt (n : nat).

Definition endl : string := String (Ascii.ascii_of_nat 10) EmptyString.

(** The insertions of the log statement a worker runs after its store
    call. *)
Definition log_line (id : nat) (r : Request) (rep : Reply) : list Chunk :=
  match type r with
  | GET =>
      match rep with
      | RVal (Some val) =>
          [CStr "[Worker "; CInt id; CStr "] GET "; CStr (key r);
           CStr " = "; CStr val; CStr endl]
      | _ =>
          [CStr "[Worker "; CInt id; CStr "] GET "; CStr (key r);
           CStr (" = <null>" +:+ endl)]
      end
  | SET => [CStr "[Worker "; CInt id; CStr "] SET "; CStr (key r); CStr endl]
  | DEL => [CStr "[Worker "; CInt id; CStr "] DEL "; CStr (key r); CStr endl]
  end.

(** Where a worker stands in [workerLoop]. *)
Inductive Worker :=
| WPop                      (* at [queue.pop(req)] *)
| WExec (r : Request)       (* holds [req], at the store call *)
| WPrint (cs : list Chunk)  (* store call done, insertions left to run *)
| WReturned                 (* [pop] returned false: the loop is over *)
| WUndefined.               (* the store call had no defined behaviour *)

(** A [std::thread] of [workers]: what it runs and whether the handle is
    still joinable. *)
Record Thread := mkThread {
  body : Worker;
  joinable : bool
}.

(** The calls the owner of the pool makes, and the atomic steps they
    consist of: [submit] is one [push]; [shutdown] is [queue.shutdown()]
    and then one [join] per worker, in order. *)
Inductive Call := Submit (r : Request) | Shutdown.

Inductive Instr := IPush (r : Request) | IQShutdown | IJoin (i : nat).

Definition instrs (numThreads : nat) (c : Call) : list Instr :=
  match c with
  | Submit r => [IPush r]
  | Shutdown => IQShutdown :: map IJoin (seq 0 numThreads)
  end.

Definition compile (numThreads : nat) (cs : list Call) : list Instr :=
  flat_map (instrs numThreads) cs.

(** The owner: the steps it still has to run, or the [std::system_error]
    that [join] raised on a handle that is not joinable. *)
Inductive Main := MRun (todo : list Instr) | MThrew.

Record State := mkState {
  queue : BlockingQueue.t Request;
  kv : list (gmap string string);
  workers : list Thread;
  main : Main;
  out : list Chunk;            (* what reached [std::cout] *)
  submitted : list Request;    (* history: the pushes, in order *)
  applied : list Request       (* history: the store calls, in order *)
}.

Definition with_worker (i : nat) (w : Worker) (s : State) : State :=
  match workers s !! i with
  | Some th =>
      mkState (queue s) (kv s)
        (<[i := mkThread w (joinable th)]> (workers s))
        (main s) (out s) (submitted s) (applied s)
  | None => s
  end.

Inductive Tid := TMain | TWorker (i : nat).

(** The requests among the steps the owner still has to run. *)
Definition pushes (todo : list Instr) : list Request :=
  flat_map (fun i => match i with IPush r => [r] | _ => [] end) todo.

Section Pool.
Variable hash : string → N.

Definition init (shardCount numThreads : nat) (cs : list Call) : State :=
  {| queue := BlockingQueue.empty;
     kv := KVStore.make shardCount;
     workers := replicate numThreads (mkThread WPop true);
     main := MRun (compile numThreads cs);
     out := [];
     submitted := [];
     applied := [] |}.

(** One step of the owner.  [None]: it cannot move (it waits in [join],
    it has finished, or it has thrown). *)
Definition step_main (s : State) : option State :=
  match main s with
  | MRun (IPush r :: todo) =>
      Some (mkState (BlockingQueue.push r (queue s)) (kv s) (workers s)
              (MRun todo) (out s) (submitted s ++ [r]) (applied s))
  | MRun (IQShutdown :: todo) =>
      Some (mkState (BlockingQueue.shutdown (queue s)) (kv s) (workers s)
              (MRun todo) (out s) (submitted s) (applied s))
  | MRun (IJoin i :: todo) =>
      match workers s !! i with
      | Some th =>
          if joinable th then
            match body th with
            | WReturned =>
                Some (mkState (queue s) (kv s)
                        (<[i := mkThread WReturned false]> (workers s))
                        (MRun todo) (out s) (submitted s) (applied s))
            | _ => None
            end
          else
            Some (mkState (queue s) (kv s) (workers s)
                    MThrew (out s) (submitted s) (applied s))
      | None => None
      end
  | MRun [] => None
  | MThrew => None
  end.

(** One step of worker [i].  [None]: it cannot move (it waits in [pop],
    or it is over). *)
Definition step_worker (i : nat) (s : State) : option State :=
  match workers s !! i with
  | None => None
  | Some th =>
      match body th with
      | WPop =>
          match BlockingQueue.pop (queue s) with
          | BlockingQueue.PopWait => None
          | BlockingQueue.PopEnd => Some (with_worker i WReturned s)
          | BlockingQueue.PopItem r bq' =>
              Some (with_worker i (WExec r)
                      (mkState bq' (kv s) (workers s) (main s) (out s)
                         (submitted s) (applied s)))
          end
      | WExec r =>
          match KVStore.exec hash r (kv s) with
          | Some (kv', rep) =>
              Some (with_worker i (WPrint (log_line i r rep))
                      (mkState (queue s) kv' (workers s) (main s) (out s)
                         (submitted s) (applied s ++ [r])))
          | None => Some (with_worker i WUndefined s)
          end
      | WPrint (c :: cs) =>
          Some (with_worker i (WPrint cs)
                  (mkState (queue s) (kv s) (workers s) (main s)
                     (out s ++ [c]) (submitted s) (applied s)))
      | WPrint [] => Some (with_worker i WPop s)
      | WReturned => None
      | WUndefined => None
      end
  end.

Definition step (t : Tid) (s : State) : option State :=
  match t with
  | TMain => step_main s
  | TWorker i => step_worker i s
  end.

(** Run a schedule; a thread that cannot move when it is chosen leaves the
    state as it is. *)
Fixpoint run (sched : list Tid) (s : State) : State :=
  match sched with
  | [] => s
  | t :: sched' => run sched' (default s (step t s))
  end.

(** The owner has run all its calls and none threw. *)
Definition finished (s : State) : Prop := main s = MRun [].

(** The requests that workers hold between [pop] and the store call. *)
Definition held (th : Thread) : list Request :=
  match body th with WExec r => [r] | _ => [] end.

Definition in_flight (s : State) : list Request :=
  flat_map held (workers s).

(** The steps of [step], one constructor per case. *)
Inductive Step : Tid → State → State → Prop :=
| Step_push s r todo :
    main s = MRun (IPush r :: todo) →
    Step TMain s
      (mkState (BlockingQueue.push r (queue s)) (kv s) (workers s)
         (MRun todo) (out s) (submitted s ++ [r]) (applied s))
| Step_stop s todo :
    main s = MRun (IQShutdown :: todo) →
    Step TMain s
      (mkState (BlockingQueue.shutdown (queue s)) (kv s) (workers s)
         (MRun todo) (out s) (submitted s) (applied s))
| Step_join s i todo :
    main s = MRun (IJoin i :: todo) →
    workers s !! i = Some (mkThread WReturned true) →
    Step TMain s
      (mkState (queue s) (kv s) (<[i := mkThread WReturned false]> (workers s))
         (MRun todo) (out s) (submitted s) (applied s))
| Step_throw s i todo th :
    main s = MRun (IJoin i :: todo) →
    workers s !! i = Some th → joinable th = false →
    Step TMain s
      (mkState (queue s) (kv s) (workers s) MThrew (out s)
         (submitted s) (applied s))
| Step_end s i th :
    workers s !! i = Some th → body th = WPop →
    BlockingQueue.stopped (queue s) = true → BlockingQueue.q (queue s) = [] →
    Step (TWorker i) s
      (mkState (queue s) (kv s)
         (<[i := mkThread WReturned (joinable th)]> (workers s))
         (main s) (out s) (submitted s) (applied s))
| Step_item s i th r rest :
    workers s !! i = Some th → body th = WPop →
    BlockingQueue.q (queue s) = r :: rest →
    Step (TWorker i) s
      (mkState (BlockingQueue.mk rest (BlockingQueue.stopped (queue s))) (kv s)
         (<[i := mkThread (WExec r) (joinable th)]> (workers s))
         (main s) (out s) (submitted s) (applied s))
| Step_exec s i th r kv' rep :
    workers s !! i = Some th → body th = WExec r →
    KVStore.exec hash r (kv s) = Some (kv', rep) →
    Step (TWorker i) s
      (mkState (queue s) kv'
         (<[i := mkThread (WPrint (log_line i r rep)) (joinable th)]> (workers s))
         (main s) (out s) (submitted s) (applied s ++ [r]))
| Step_undefined s i th r :
    workers s !! i = Some th → body th = WExec r →
    KVStore.exec hash r (kv s) = None →
    Step (TWorker i) s
      (mkState (queue s) (kv s)
         (<[i := mkThread WUndefined (joinable th)]> (workers s))
         (main s) (out s) (submitted s) (applied s))
| Step_print s i th c cs :
    workers s !! i = Some th → body th = WPrint (c :: cs) →
    Step (TWorker i) s
      (mkState (queue s) (kv s)
         (<[i := mkThread (WPrint cs) (joinable th)]> (workers s))
         (main s) (out s ++ [c]) (submitted s) (applied s))
| Step_loop s i th :
    workers s !! i = Some th → body th = WPrint [] →
    Step (TWorker i) s
      (mkState (queue s) (kv s)
         (<[i := mkThread WPop (joinable th)]> (workers s))
         (main s) (out s) (submitted s) (applied s)).

(** What holds in every state the pool reaches while running the steps
    [prog] on a store with at least one shard. *)
Record Inv (n : nat) (prog : list Instr) (s : State) : Prop := {
  inv_workers : length (workers s) = n;
  inv_store :
    KVStore.shows hash (kv s) (Flat.exec_all (applied s) ∅).1;
  inv_conserve :
    submitted s ≡ₚ applied s ++ in_flight s ++ BlockingQueue.q (queue s);
  inv_defined : Forall (fun th => body th ≠ WUndefined) (workers s);
  inv_joined :
    Forall (fun th => joinable th = false → body th = WReturned) (workers s);
  inv_progress :
    ∀ todo, main s = MRun todo → submitted s ++ pushes todo = pushes prog
}.

End Pool.

(** The program of [main] up to the return of [shutdown]: four shards, two
    workers, six requests, then [shutdown]. *)
Definition NUM_SHARDS : nat := 4.
Definition NUM_WORKERS : nat := 2.

Definition main_requests : list Request :=
  [ mkRequest SET "a" "1";
    mkRequest SET "b" "2";
    mkRequest GET "a" "";
    mkRequest DEL "a" "";
    mkRequest GET "a" "";
    mkRequest GET "b" "" ].

Definition main_calls : list Call :=
  map Submit main_requests ++ [Shutdown].

Definition main_init : State :=
  init NUM_SHARDS NUM_WORKERS main_calls.

(** One admissible [std::hash<std::string>]: 64-bit FNV-1a, the function
    of the MSVC standard library. *)
Definition fnv1a (s : string) : N :=
  foldl (fun h c => (N.lxor h (Ascii.N_of_ascii c) * 1099511628211) `mod` 2 ^ 64)%N
    14695981039346656037%N (String.list_ascii_of_string s).

(** The steps of a program that submits [rs] and then shuts down once. *)
Definition drain_prog (n : nat) (rs : list Request) : list Instr :=
  map IPush rs ++ IQShutdown :: map IJoin (seq 0 n).

(** The owner is still submitting: the queue is open, no worker has
    returned, every handle is joinable. *)
Definition submitting (n : nat) (s : State) : Prop :=
  ∃ pu,
    main s = MRun (drain_prog n pu) ∧
    BlockingQueue.stopped (queue s) = false ∧
    Forall (fun th => joinable th = true ∧ body th ≠ WReturned) (workers s).

(** The owner is joining: the queue is stopped, the first [k] workers are
    joined, and once a worker has returned the queue is empty for good. *)
Definition joining (n : nat) (s : State) : Prop :=
  ∃ k : nat,
    (k ≤ n)%nat ∧
    main s = MRun (map IJoin (seq k (n - k))) ∧
    BlockingQueue.stopped (queue s) = true ∧
    (∀ i th, workers s !! i = Some th → joinable th = bool_decide (k ≤ i)%nat) ∧
    Forall (fun th => body th = WReturned → BlockingQueue.q (queue s) = [])
      (workers s).

(** Where the owner of such a program can be. *)
Definition Drain (n : nat) (s : State) : Prop :=
  submitting n s ∨ joining n s.

(** A weight that every step lowers: how far a worker is from its next
    [pop], what the owner still has to run, what is queued. *)
Definition worker_weight (w : Worker) : nat :=
  match w with
  | WPop => 1
  | WExec _ => 10
  | WPrint cs => 2 + length cs
  | WReturned => 0
  | WUndefined => 0
  end.

Definition instr_weight (i : Instr) : nat :=
  match i with IPush _ => 12 | _ => 1 end.

Definition main_weight (m : Main) : nat :=
  match m with
  | MRun todo => sum_list (map instr_weight todo)
  | MThrew => 0
  end.

Definition weight (s : State) : nat :=
  main_weight (main s)
  + 11 * length (BlockingQueue.q (queue s))
  + sum_list (map (fun th => worker_weight (body th)) (workers s)).

(** Every worker has left its loop. *)
Definition all_returned (s : State) : Prop :=
  Forall (fun th => body th = WReturned) (workers s).

(** How often the owner is chosen in a schedule. *)
Fixpoint main_steps (sched : list Tid) : nat :=
  match sched with
  | [] => 0
  | TMain :: sched' => S (main_steps sched')
  | TWorker _ :: sched' => main_steps sched'
  end.

(** The state [k] steps into a call of [shutdown] made in state [s] when
    all [n] workers are joined already: untouched, then [queue.shutdown()]
    done, then the exception of the first [join]. *)
Definition shutdown_again (n : nat) (todo : list Instr) (s : State) (k : nat)
  : State :=
  match k with
  | 0 => s
  | 1 =>
      mkState (BlockingQueue.shutdown (queue s)) (kv s) (workers s)
        (MRun (map IJoin (seq 0 n) ++ todo)) (out s) (submitted s) (applied s)
  | _ =>
      mkState (BlockingQueue.shutdown (queue s)) (kv s) (workers s)
        MThrew (out s) (submitted s) (applied s)
  end.

(** The owner of [main] with the six requests in the order of the
    source: both workers take turns, the first request is applied first. *)
Definition calm_schedule : list Tid :=
  replicate 7 TMain ++ replicate 60 (TWorker 0) ++ replicate 2 (TWorker 1)
  ++ replicate 2 TMain.

(** A schedule of [main] in which worker 0 takes [SET a 1] off the queue
    and is preempted before its store call; worker 1 serves the five other
    requests, [DEL a] among them; then worker 0 performs its [set]. *)
Definition racy_schedule : list Tid :=
  replicate 7 TMain ++ [TWorker 0] ++ replicate 50 (TWorker 1)
  ++ replicate 10 (TWorker 0) ++ replicate 2 TMain.

(** A schedule for one submitted request followed by [shutdown]. *)
Definition single_schedule : list Tid :=
  replicate 2 TMain ++ replicate 12 (TWorker 0) ++ [TWorker 1]
  ++ replicate 2 TMain.

(** What was submitted is what was applied, then what is held, then what
    is queued, in this order. *)
Definition serial (s : State) : Prop :=
  submitted s = applied s ++ in_flight s ++ BlockingQueue.q (queue s).

(** Two states that agree on everything but the store. *)
Definition same_but_store (s1 s2 : State) : Prop :=
  queue s1 = queue s2 ∧ workers s1 = workers s2 ∧ main s1 = main s2 ∧
  out s1 = out s2 ∧ submitted s1 = submitted s2 ∧ applied s1 = applied s2.

(** The insertions a worker still has to run for its current log line. *)
Definition printing (th : Thread) : list Chunk :=
  match body th with WPrint cs => cs | _ => [] end.

(** What worker [id] writes for the requests [rs] that got the replies
    [reps]: one log line each, in order. *)
Fixpoint log_of (id : nat) (rs : list Request) (reps : list Reply)
  : list Chunk :=
  match rs, reps with
  | r :: rs', rep :: reps' => log_line id r rep ++ log_of id rs' reps'
  | _, _ => []
  end.

(** A step of the owner that is not a [join]. *)
Definition no_join (i : Instr) : Prop :=
  match i with IJoin _ => False | _ => True end.

(** A pool without workers: nothing has been applied, everything submitted
    is still queued, and the owner has no [join] to run. *)
Definition unserved (prog : list Instr) (s : State) : Prop :=
  workers s = [] ∧ applied s = [] ∧
  BlockingQueue.q (queue s) = submitted s ∧
  ∃ todo,
    main s = MRun todo ∧ Forall no_join todo ∧
    submitted s ++ pushes todo = pushes prog.

(** A worker has returned only if the queue is stopped, and a handle is no
    longer joinable only if its worker has returned. *)
Definition exits_in_order (s : State) : Prop :=
  Forall (fun th =>
            (body th = WReturned → BlockingQueue.stopped (queue s) = true) ∧
            (joinable th = false → body th = WReturned))
    (workers s).

(** With one worker, what has reached [std::cout], followed by what the
    worker has still to insert for its current line, is the log of the
    requests applied so far with the replies a flat map gives them. *)
Definition solo_log (s : State) : Prop :=
  ∃ th,
    workers s = [th] ∧
    out s ++ printing th
    = log_of 0 (applied s) (Flat.exec_all (applied s) ∅).2.

(** What worker [i] writes for the requests [rs], request number [k] being
    applied by worker [ids !! k] and answered by [reps !! k]: one log line
    for each request it applied, in order. *)
Fixpoint worker_log (i : nat) (ids : list nat) (rs : list Request)
    (reps : list Reply) : list Chunk :=
  match ids, rs, reps with
  | id :: ids', r :: rs', rep :: reps' =>
      (if decide (id = i) then log_line i r rep else [])
      ++ worker_log i ids' rs' reps'
  | _, _, _ => []
  end.

(** The insertions of worker [i] among those that reached [std::cout],
    insertion number [k] having been run by worker [tags !! k]. *)
Definition written (i : nat) (tags : list nat) (o : list Chunk)
  : list Chunk :=
  map snd (filter (fun p => p.1 = i) (zip tags o)).

(** With [n] workers, what has reached [std::cout] is an interleaving of
    what the workers wrote: every insertion was run by one of them, every
    request applied so far was applied by one of them, and the insertions
    of a worker, in order, followed by those it has still to run for its
    current line, are the log lines of the requests it applied, in order,
    each with the reply a flat map gives the request. *)
Definition logged (n : nat) (s : State) : Prop :=
  ∃ ids tags,
    length ids = length (applied s) ∧
    Forall (fun i => i < n) ids ∧
    length tags = length (out s) ∧
    Forall (fun i => i < n) tags ∧
    ∀ i th,
      workers s !! i = Some th →
      written i tags (out s) ++ printing th
      = worker_log i ids (applied s) (Flat.exec_all (applied s) ∅).2.

(** With no shard, nothing is applied and nothing is logged. *)
Definition unusable (s : State) : Prop :=
  kv s = [] ∧ applied s = [] ∧ out s = [] ∧
  Forall (fun th => printing th = []) (workers s).

(** A schedule that lets [main] with a single worker come to its end. *)
Definition solo_schedule : list Tid :=
  replicate 7 TMain ++ replicate 60 (TWorker 0) ++ [TMain].

(** The states in which these schedules leave [main], with FNV-1a as the
    hash: two workers, one worker, and no worker at all. *)
Definition calm_final : State := run fnv1a calm_schedule main_init.

Definition solo_final : State :=
  run fnv1a solo_schedule (init NUM_SHARDS 1 main_calls).

Definition unserved_final : State :=
  run fnv1a (replicate 7 TMain) (init NUM_SHARDS 0 main_calls).

End ThreadPool.

(** ** The shard under its lock

    [Shard::get] holds [m] in shared mode, [Shard::set] and [Shard::del] in
    exclusive mode, from the first statement of the call to its return.  A
    caller takes the lock (or waits), starts its access to [data], completes
    it, and releases the lock on return.  An access to [data] that starts
    while another caller is in the middle of one, one of the two being a
    write, is a data race. *)

Module SharedMutex.

(** A [std::shared_mutex]: whether it is owned exclusively, and by how many
    it is owned in shared mode. *)
Record t := mk {
  writer : bool;
  readers : nat
}.

Definition free : t := {| writer := false; readers := 0 |}.

(** [lock()]: [None] when the caller has to wait. *)
Definition lock (m : t) : option t :=
  if writer m || negb (readers m =? 0) then None
  else Some {| writer := true; readers := 0 |}.

Definition unlock (m : t) : t :=
  {| writer := false; readers := readers m |}.

(** [lock_shared()]: [None] when the caller has to wait.  Shared
    ownership is given whenever the mutex is not owned exclusively; an
    implementation that prefers writers may also make the caller wait
    while a [lock()] is pending, which only removes steps. *)
Definition lock_shared (m : t) : option t :=
  if writer m then None
  else Some {| writer := false; readers := S (readers m) |}.

Definition unlock_shared (m : t) : t :=
  {| writer := writer m; readers := pred (readers m) |}.

End SharedMutex.

Module LockedShard.

Inductive Mode := Shared | Exclusive.

(** [std::shared_lock] in [get], [std::unique_lock] in [set] and [del]. *)
Definition mode (r : Request) : Mode :=
  match type r with
  | GET => Shared
  | SET => Exclusive
  | DEL => Exclusive
  end.

Definition acquire (md : Mode) (m : SharedMutex.t) : option SharedMutex.t :=
  match md with
  | Shared => SharedMutex.lock_shared m
  | Exclusive => SharedMutex.lock m
  end.

Definition release (md : Mode) (m : SharedMutex.t) : SharedMutex.t :=
  match md with
  | Shared => SharedMutex.unlock_shared m
  | Exclusive => SharedMutex.unlock m
  end.

(** Where a caller stands in a call on the shard. *)
Inductive Pc :=
| PIdle                              (* between two calls *)
| PLocked (r : Request)              (* lock taken, access not started *)
| PAccess (r : Request)              (* in the middle of the access *)
| PDone (r : Request) (rep : Reply). (* access complete, lock still held *)

(** A caller: the current call, the calls it will make next, and the
    replies it has received. *)
Record Caller := mkCaller {
  pc : Pc;
  todo : list Request;
  replies : list Reply
}.

(** The events of call number [k] of caller [t]: the lock is taken, the
    access is completed, the lock is released. *)
Inductive Event :=
| EAcq (t k : nat) (r : Request)
| ELin (t k : nat) (r : Request) (rep : Reply)
| ERel (t k : nat) (r : Request) (rep : Reply).

Record State := mkState {
  data : gmap string string;
  mutex : SharedMutex.t;
  callers : list Caller;
  trace : list Event;     (* history: the events, in order *)
  raced : bool            (* a data race has happened *)
}.

Definition init (d0 : gmap string string) (progs : list (list Request))
  : State :=
  {| data := d0;
     mutex := SharedMutex.free;
     callers := map (fun p => mkCaller PIdle p []) progs;
     trace := [];
     raced := false |}.

(** The lock mode a caller holds. *)
Definition holds (c : Caller) : option Mode :=
  match pc c with
  | PIdle => None
  | PLocked r => Some (mode r)
  | PAccess r => Some (mode r)
  | PDone r _ => Some (mode r)
  end.

(** The call a caller is inside, from the lock taken to the return. *)
Definition inside (c : Caller) : option Request :=
  match pc c with
  | PIdle => None
  | PLocked r => Some r
  | PAccess r => Some r
  | PDone r _ => Some r
  end.

(** What a call does to [data]: [Shard::get] only reads it ([find]);
    [Shard::set] and [Shard::del] modify it ([operator[]], [erase]). *)
Definition writes (r : Request) : bool :=
  match type r with
  | GET => false
  | SET => true
  | DEL => true
  end.

(** The access of call [r] conflicts with caller [c] when [c] is in the
    middle of an access and one of the two accesses modifies [data],
    whatever locks the two callers hold. *)
Definition conflicts (r : Request) (c : Caller) : bool :=
  match pc c with
  | PAccess r' => writes r || writes r'
  | _ => false
  end.

(** A caller that is about to take the lock in exclusive mode: it is
    between two calls and its next call is a [set] or a [del]. *)
Definition wants_exclusive (c : Caller) : Prop :=
  pc c = PIdle ∧ ∃ r rest, todo c = r :: rest ∧ writes r = true.

(** One step of caller [t]; [None] when it waits for the lock or has no
    call left. *)
Definition step (t : nat) (s : State) : option State :=
  match callers s !! t with
  | None => None
  | Some c =>
      match pc c with
      | PIdle =>
          match todo c with
          | [] => None
          | r :: rest =>
              match acquire (mode r) (mutex s) with
              | None => None
              | Some m' =>
                  Some (mkState (data s) m'
                          (<[t := mkCaller (PLocked r) rest (replies c)]>
                             (callers s))
                          (trace s ++ [EAcq t (length (replies c)) r])
                          (raced s))
              end
          end
      | PLocked r =>
          Some (mkState (data s) (mutex s)
                  (<[t := mkCaller (PAccess r) (todo c) (replies c)]>
                     (callers s))
                  (trace s)
                  (raced s || existsb (conflicts r) (callers s)))
      | PAccess r =>
          let '(d', rep) := Shard.exec r (data s) in
          Some (mkState d' (mutex s)
                  (<[t := mkCaller (PDone r rep) (todo c) (replies c)]>
                     (callers s))
                  (trace s ++ [ELin t (length (replies c)) r rep])
                  (raced s))
      | PDone r rep =>
          Some (mkState (data s) (release (mode r) (mutex s))
                  (<[t := mkCaller PIdle (todo c) (replies c ++ [rep])]>
                     (callers s))
                  (trace s ++ [ERel t (length (replies c)) r rep])
                  (raced s))
      end
  end.

Fixpoint run (sched : list nat) (s : State) : State :=
  match sched with
  | [] => s
  | t :: sched' => run sched' (default s (step t s))
  end.

(** The calls in the order in which their accesses completed, and the
    replies they got. *)
Fixpoint lin_requests (tr : list Event) : list Request :=
  match tr with
  | [] => []
  | ELin _ _ r _ :: tr' => r :: lin_requests tr'
  | _ :: tr' => lin_requests tr'
  end.

Fixpoint lin_replies (tr : list Event) : list Reply :=
  match tr with
  | [] => []
  | ELin _ _ _ rep :: tr' => rep :: lin_replies tr'
  | _ :: tr' => lin_replies tr'
  end.

(** The same for the calls of caller [t] alone. *)
Fixpoint lin_requests_of (t : nat) (tr : list Event) : list Request :=
  match tr with
  | [] => []
  | ELin t' _ r _ :: tr' =>
      if decide (t' = t) then r :: lin_requests_of t tr'
      else lin_requests_of t tr'
  | _ :: tr' => lin_requests_of t tr'
  end.

Fixpoint lin_replies_of (t : nat) (tr : list Event) : list Reply :=
  match tr with
  | [] => []
  | ELin t' _ _ rep :: tr' =>
      if decide (t' = t) then rep :: lin_replies_of t tr'
      else lin_replies_of t tr'
  | _ :: tr' => lin_replies_of t tr'
  end.

(** The call a caller has taken the lock for and not completed, and the
    reply it has obtained and not returned. *)
Definition current (c : Caller) : list Request :=
  match pc c with
  | PLocked r => [r]
  | PAccess r => [r]
  | _ => []
  end.

Definition pending (c : Caller) : list Reply :=
  match pc c with
  | PDone _ rep => [rep]
  | _ => []
  end.

(** The steps of [step], one constructor per case. *)
Inductive Step : nat → State → State → Prop :=
| Call_acquire t s c r rest m' :
    callers s !! t = Some c → pc c = PIdle → todo c = r :: rest →
    acquire (mode r) (mutex s) = Some m' →
    Step t s
      (mkState (data s) m'
         (<[t := mkCaller (PLocked r) rest (replies c)]> (callers s))
         (trace s ++ [EAcq t (length (replies c)) r]) (raced s))
| Call_begin t s c r :
    callers s !! t = Some c → pc c = PLocked r →
    Step t s
      (mkState (data s) (mutex s)
         (<[t := mkCaller (PAccess r) (todo c) (replies c)]> (callers s))
         (trace s)
         (raced s || existsb (conflicts r) (callers s)))
| Call_complete t s c r :
    callers s !! t = Some c → pc c = PAccess r →
    Step t s
      (mkState (Shard.exec r (data s)).1 (mutex s)
         (<[t := mkCaller (PDone r (Shard.exec r (data s)).2) (todo c)
                   (replies c)]> (callers s))
         (trace s ++ [ELin t (length (replies c)) r (Shard.exec r (data s)).2])
         (raced s))
| Call_release t s c r rep :
    callers s !! t = Some c → pc c = PDone r rep →
    Step t s
      (mkState (data s) (release (mode r) (mutex s))
         (<[t := mkCaller PIdle (todo c) (replies c ++ [rep])]> (callers s))
         (trace s ++ [ERel t (length (replies c)) r rep]) (raced s)).

(** How many callers hold the lock in each mode. *)
Definition shared_count (c : Caller) : nat :=
  match holds c with Some Shared => 1 | _ => 0 end.

Definition exclusive_count (c : Caller) : nat :=
  match holds c with Some Exclusive => 1 | _ => 0 end.

(** The lock discipline: the mutex counts its shared owners, has at most
    one exclusive owner, and never both kinds; no race has happened. *)
Record Locks (s : State) : Prop := {
  locks_readers :
    SharedMutex.readers (mutex s) = sum_list (map shared_count (callers s));
  locks_writer :
    sum_list (map exclusive_count (callers s))
    = (if SharedMutex.writer (mutex s) then 1 else 0);
  locks_exclusive :
    SharedMutex.writer (mutex s) = true →
    sum_list (map shared_count (callers s)) = 0;
  locks_no_race : raced s = false
}.

(** The contents of the shard and every reply are those of the calls run
    one after the other, in the order in which their accesses completed;
    each caller has received the replies of its own calls, which are its
    program in order. *)
Record Linear (d0 : gmap string string) (progs : list (list Request))
    (s : State) : Prop := {
  lin_data :
    Shard.exec_all (lin_requests (trace s)) d0
    = (data s, lin_replies (trace s));
  lin_callers : length (callers s) = length progs;
  lin_received :
    ∀ t c, callers s !! t = Some c →
           lin_replies_of t (trace s) = replies c ++ pending c;
  lin_program :
    ∀ t c, callers s !! t = Some c →
           progs !! t = Some (lin_requests_of t (trace s) ++ current c ++ todo c)
}.

(** The caller and the call number of an event. *)
Definition ev_caller (e : Event) : nat :=
  match e with EAcq t _ _ => t | ELin t _ _ _ => t | ERel t _ _ _ => t end.

Definition ev_call (e : Event) : nat :=
  match e with EAcq _ k _ => k | ELin _ k _ _ => k | ERel _ k _ _ => k end.

(** What the state of a caller allows for the events of its current call:
    the lock is taken only when the caller is past [PIdle], the access is
    completed only at [PDone], and the release has not happened. *)
Definition ev_allowed (e : Event) (c : Caller) : Prop :=
  match e with
  | EAcq _ _ _ => pc c ≠ PIdle
  | ELin _ _ _ _ => ∃ r rep, pc c = PDone r rep
  | ERel _ _ _ _ => False
  end.

(** In the trace, the events of one call come in the order lock taken,
    access completed, lock released. *)
Record Ordered (s : State) : Prop := {
  ord_calls :
    ∀ e c, e ∈ trace s → callers s !! ev_caller e = Some c →
           ev_call e ≤ length (replies c) ∧
           (ev_call e = length (replies c) → ev_allowed e c);
  ord_lin_rel :
    ∀ i j t k r rep r' rep',
      trace s !! i = Some (ERel t k r rep) →
      trace s !! j = Some (ELin t k r' rep') → j < i;
  ord_acq_lin :
    ∀ i j t k r r' rep',
      trace s !! i = Some (ELin t k r' rep') →
      trace s !! j = Some (EAcq t k r) → j < i
}.

(** A weight that every step of a caller lowers: four for each call still
    to make, less as the current call advances. *)
Definition pc_weight (p : Pc) : nat :=
  match p with
  | PIdle => 0
  | PLocked _ => 3
  | PAccess _ => 2
  | PDone _ _ => 1
  end.

Definition caller_weight (c : Caller) : nat :=
  4 * length (todo c) + pc_weight (pc c).

Definition weight (s : State) : nat :=
  sum_list (map caller_weight (callers s)).

(** A caller that has returned from its last call. *)
Definition quiet (c : Caller) : Prop :=
  pc c = PIdle ∧ todo c = [].

End LockedShard.

(** ** BlockingQueue with its mutex and its condition variable

    [push] and [shutdown] hold [m] for their update, in a block of its own,
    and notify after the release.  [pop] takes [m]; [cv.wait(lock, pred)]
    is [while (!pred()) cv.wait(lock)]: the wait releases [m] and blocks in
    one atomic step, and a caller that is unblocked, by a notification or
    spuriously, takes [m] again before it looks at the predicate.
    [notify_one] unblocks one of the callers that wait, if there is one;
    [notify_all] unblocks all of them. *)

Module WaitingQueue.
Section Queue.
Context {T : Type}.

Local Abbreviation Op := (BlockingQueue.Op T).
Local Abbreviation Outcome := (BlockingQueue.Outcome T).

(** Where a caller stands in a call on the queue. *)
Inductive Pc :=
| PIdle               (* between two calls *)
| PPush (item : T)    (* in push: holds m, before q.push *)
| PNotifyOne          (* in push: m released, before cv.notify_one() *)
| PShutdown           (* in shutdown: holds m, before stopped = true *)
| PNotifyAll          (* in shutdown: m released, before cv.notify_all() *)
| PPop                (* in pop: holds m, before the wait predicate *)
| PWaiting            (* in pop: inside cv.wait, m released, blocked *)
| PWoken.             (* in pop: unblocked, before taking m again *)

(** A caller: the current call, the calls it will make next, and what its
    calls of [pop] have returned. *)
Record Caller := mkCaller {
  pc : Pc;
  todo : list Op;
  results : list Outcome
}.

(** A completed critical section: the caller, the call, and for a [pop]
    that returns, what it returns. *)
Record Event := mkEvent {
  ev_caller : nat;
  ev_op : Op;
  ev_out : option Outcome
}.

Record State := mkState {
  queue : BlockingQueue.t T;   (* q and stopped *)
  locked : bool;               (* m is owned *)
  callers : list Caller;
  trace : list Event           (* history: the critical sections, in order *)
}.

Definition init (progs : list (list Op)) : State :=
  {| queue := BlockingQueue.empty;
     locked := false;
     callers := map (fun p => mkCaller PIdle p []) progs;
     trace := [] |}.

(** What the scheduler can do: let a caller take its next step; let the
    [notify_one] of caller [t] unblock the waiting caller [u]; unblock a
    waiting caller spuriously. *)
Inductive Act :=
| ARun (t : nat)
| ANotify (t u : nat)
| ASpurious (u : nat).

(** The first statement of a call, once [m] is taken. *)
Definition enter (o : Op) : Pc :=
  match o with
  | BlockingQueue.OpPush item => PPush item
  | BlockingQueue.OpPop => PPop
  | BlockingQueue.OpShutdown => PShutdown
  end.

Definition set_pc (p : Pc) (c : Caller) : Caller :=
  mkCaller p (todo c) (results c).

Definition is_waiting (c : Caller) : bool :=
  match pc c with PWaiting => true | _ => false end.

(** [notify_all] on one caller. *)
Definition wake (c : Caller) : Caller :=
  match pc c with
  | PWaiting => set_pc PWoken c
  | _ => c
  end.

(** The next step of caller [t], which is [c]; [None] when it is blocked
    (on [m], or in [cv.wait]), when it has no call left, and for a
    [notify_one] while a caller waits, which is an [ANotify]. *)
Definition step_run (t : nat) (c : Caller) (s : State) : option State :=
  match pc c with
  | PIdle =>
      match todo c with
      | [] => None
      | o :: rest =>
          if locked s then None
          else Some (mkState (queue s) true
                       (<[t := mkCaller (enter o) rest (results c)]>
                          (callers s))
                       (trace s))
      end
  | PPush item =>
      Some (mkState (BlockingQueue.push item (queue s)) false
              (<[t := set_pc PNotifyOne c]> (callers s))
              (trace s ++ [mkEvent t (BlockingQueue.OpPush item) None]))
  | PNotifyOne =>
      if existsb is_waiting (callers s) then None
      else Some (mkState (queue s) (locked s)
                   (<[t := set_pc PIdle c]> (callers s)) (trace s))
  | PShutdown =>
      Some (mkState (BlockingQueue.shutdown (queue s)) false
              (<[t := set_pc PNotifyAll c]> (callers s))
              (trace s ++ [mkEvent t BlockingQueue.OpShutdown None]))
  | PNotifyAll =>
      Some (mkState (queue s) (locked s)
              (<[t := set_pc PIdle c]> (map wake (callers s))) (trace s))
  | PPop =>
      match BlockingQueue.pop (queue s) with
      | BlockingQueue.PopWait =>
          Some (mkState (queue s) false
                  (<[t := set_pc PWaiting c]> (callers s)) (trace s))
      | BlockingQueue.PopEnd =>
          Some (mkState (queue s) false
                  (<[t := mkCaller PIdle (todo c)
                            (results c ++ [BlockingQueue.OutEnd])]>
                     (callers s))
                  (trace s ++ [mkEvent t BlockingQueue.OpPop
                                 (Some BlockingQueue.OutEnd)]))
      | BlockingQueue.PopItem item bq' =>
          Some (mkState bq' false
                  (<[t := mkCaller PIdle (todo c)
                            (results c ++ [BlockingQueue.OutItem item])]>
                     (callers s))
                  (trace s ++ [mkEvent t BlockingQueue.OpPop
                                 (Some (BlockingQueue.OutItem item))]))
      end
  | PWaiting => None
  | PWoken =>
      if locked s then None
      else Some (mkState (queue s) true
                   (<[t := set_pc PPop c]> (callers s)) (trace s))
  end.

Definition step (a : Act) (s : State) : option State :=
  match a with
  | ARun t =>
      match callers s !! t with
      | Some c => step_run t c s
      | None => None
      end
  | ANotify t u =>
      match callers s !! t, callers s !! u with
      | Some c, Some w =>
          match pc c, pc w with
          | PNotifyOne, PWaiting =>
              Some (mkState (queue s) (locked s)
                      (<[t := set_pc PIdle c]>
                         (<[u := set_pc PWoken w]> (callers s)))
                      (trace s))
          | _, _ => None
          end
      | _, _ => None
      end
  | ASpurious u =>
      match callers s !! u with
      | Some w =>
          match pc w with
          | PWaiting =>
              Some (mkState (queue s) (locked s)
                      (<[u := set_pc PWoken w]> (callers s)) (trace s))
          | _ => None
          end
      | None => None
      end
  end.

Fixpoint run (acts : list Act) (s : State) : State :=
  match acts with
  | [] => s
  | a :: acts' => run acts' (default s (step a s))
  end.

(** The calls in the order of their critical sections, and what the pops
    among them returned. *)
Definition lin_ops (tr : list Event) : list Op := map ev_op tr.

Definition lin_outs (tr : list Event) : list Outcome := omap ev_out tr.

(** The same for the calls of caller [t] alone. *)
Definition by_caller (t : nat) (tr : list Event) : list Event :=
  filter (fun e => ev_caller e = t) tr.

(** The call a caller is in and whose critical section is not complete. *)
Definition current (c : Caller) : list Op :=
  match pc c with
  | PPush item => [BlockingQueue.OpPush item]
  | PShutdown => [BlockingQueue.OpShutdown]
  | PPop => [BlockingQueue.OpPop]
  | PWaiting => [BlockingQueue.OpPop]
  | PWoken => [BlockingQueue.OpPop]
  | _ => []
  end.

(** The steps of [step], one constructor per case. *)
Inductive Step : Act → State → State → Prop :=
| Call_enter t s c o rest :
    callers s !! t = Some c → pc c = PIdle → todo c = o :: rest →
    locked s = false →
    Step (ARun t) s (mkState (queue s) true
              (<[t := mkCaller (enter o) rest (results c)]> (callers s))
              (trace s))
| Push_update t s c item :
    callers s !! t = Some c → pc c = PPush item →
    Step (ARun t) s (mkState (BlockingQueue.push item (queue s)) false
              (<[t := set_pc PNotifyOne c]> (callers s))
              (trace s ++ [mkEvent t (BlockingQueue.OpPush item) None]))
| Push_notify_none t s c :
    callers s !! t = Some c → pc c = PNotifyOne →
    existsb is_waiting (callers s) = false →
    Step (ARun t) s (mkState (queue s) (locked s)
              (<[t := set_pc PIdle c]> (callers s)) (trace s))
| Push_notify t u s c w :
    callers s !! t = Some c → pc c = PNotifyOne →
    callers s !! u = Some w → pc w = PWaiting →
    Step (ANotify t u) s (mkState (queue s) (locked s)
              (<[t := set_pc PIdle c]>
                 (<[u := set_pc PWoken w]> (callers s)))
              (trace s))
| Shutdown_update t s c :
    callers s !! t = Some c → pc c = PShutdown →
    Step (ARun t) s (mkState (BlockingQueue.shutdown (queue s)) false
              (<[t := set_pc PNotifyAll c]> (callers s))
              (trace s ++ [mkEvent t BlockingQueue.OpShutdown None]))
| Shutdown_notify t s c :
    callers s !! t = Some c → pc c = PNotifyAll →
    Step (ARun t) s (mkState (queue s) (locked s)
              (<[t := set_pc PIdle c]> (map wake (callers s))) (trace s))
| Pop_wait t s c :
    callers s !! t = Some c → pc c = PPop →
    BlockingQueue.pop (queue s) = BlockingQueue.PopWait →
    Step (ARun t) s (mkState (queue s) false
              (<[t := set_pc PWaiting c]> (callers s)) (trace s))
| Pop_end t s c :
    callers s !! t = Some c → pc c = PPop →
    BlockingQueue.pop (queue s) = BlockingQueue.PopEnd →
    Step (ARun t) s (mkState (queue s) false
              (<[t := mkCaller PIdle (todo c)
                        (results c ++ [BlockingQueue.OutEnd])]> (callers s))
              (trace s ++ [mkEvent t BlockingQueue.OpPop
                             (Some BlockingQueue.OutEnd)]))
| Pop_item t s c item bq' :
    callers s !! t = Some c → pc c = PPop →
    BlockingQueue.pop (queue s) = BlockingQueue.PopItem item bq' →
    Step (ARun t) s (mkState bq' false
              (<[t := mkCaller PIdle (todo c)
                        (results c ++ [BlockingQueue.OutItem item])]>
                 (callers s))
              (trace s ++ [mkEvent t BlockingQueue.OpPop
                             (Some (BlockingQueue.OutItem item))]))
| Pop_relock t s c :
    callers s !! t = Some c → pc c = PWoken → locked s = false →
    Step (ARun t) s (mkState (queue s) true
              (<[t := set_pc PPop c]> (callers s)) (trace s))
| Pop_spurious u s w :
    callers s !! u = Some w → pc w = PWaiting →
    Step (ASpurious u) s (mkState (queue s) (locked s)
              (<[u := set_pc PWoken w]> (callers s)) (trace s)).

(** Counting the callers: those that hold [m]; those blocked in
    [cv.wait]; those that will look at the queue or unblock a caller that
    will; those about to call [notify_all]. *)
Definition hold_count (c : Caller) : nat :=
  match pc c with
  | PPush _ => 1
  | PShutdown => 1
  | PPop => 1
  | _ => 0
  end.

Definition wait_count (c : Caller) : nat :=
  match pc c with PWaiting => 1 | _ => 0 end.

Definition credit (c : Caller) : nat :=
  match pc c with
  | PNotifyOne => 1
  | PWoken => 1
  | PPop => 1
  | _ => 0
  end.

Definition notify_all_count (c : Caller) : nat :=
  match pc c with PNotifyAll => 1 | _ => 0 end.

(** The wake-up discipline: [m] has at most one owner; while a caller
    waits, each queued item is matched by a caller that will take it or
    will unblock one; and while a caller waits on a stopped queue, a
    [notify_all] is still to come. *)
Record Wake (s : State) : Prop := {
  wake_mutex :
    sum_list (map hold_count (callers s)) = (if locked s then 1 else 0);
  wake_items :
    0 < sum_list (map wait_count (callers s)) →
    length (BlockingQueue.q (queue s)) ≤ sum_list (map credit (callers s));
  wake_stopped :
    BlockingQueue.stopped (queue s) = true →
    0 < sum_list (map wait_count (callers s)) →
    0 < sum_list (map notify_all_count (callers s))
}.

(** The queue and every return of [pop] are those of the atomic calls, run
    in the order of the critical sections; no [pop] has returned from a
    wait whose predicate was false; each caller has got the returns of its
    own pops, and its calls are its program, in order. *)
Record Linear (progs : list (list Op)) (s : State) : Prop := {
  lin_queue :
    BlockingQueue.calls (lin_ops (trace s)) BlockingQueue.empty
    = (queue s, lin_outs (trace s));
  lin_no_wait : BlockingQueue.OutWait ∉ lin_outs (trace s);
  lin_callers : length (callers s) = length progs;
  lin_results :
    ∀ t c, callers s !! t = Some c →
           lin_outs (by_caller t (trace s)) = results c;
  lin_program :
    ∀ t c, callers s !! t = Some c →
           progs !! t
           = Some (lin_ops (by_caller t (trace s)) ++ current c ++ todo c)
}.

(** No caller can take a step of its own: only a spurious wake-up could
    change the state. *)
Definition stuck (s : State) : Prop :=
  (∀ t, step (ARun t) s = None) ∧ (∀ t u, step (ANotify t u) s = None).

(** A caller that has returned from its last call. *)
Definition quiet (c : Caller) : Prop :=
  pc c = PIdle ∧ todo c = [].

(** A caller that can do nothing of its own: it has returned from its last
    call, or it is blocked in [cv.wait]. *)
Definition at_rest (c : Caller) : Prop :=
  quiet c ∨ pc c = PWaiting.

Definition spurious (a : Act) : bool :=
  match a with ASpurious _ => true | _ => false end.

(** A weight that every step other than a spurious wake-up lowers; [n] is
    the number of callers, which bounds how many a [notify_all] unblocks. *)
Definition pc_weight (n : nat) (p : Pc) : nat :=
  match p with
  | PIdle => 0
  | PPush _ => 4
  | PNotifyOne => 3
  | PShutdown => 2 * n + 2
  | PNotifyAll => 2 * n + 1
  | PPop => 1
  | PWaiting => 0
  | PWoken => 2
  end.

Definition op_weight (n : nat) (o : Op) : nat :=
  S (pc_weight n (enter o)).

Definition caller_weight (n : nat) (c : Caller) : nat :=
  sum_list (map (op_weight n) (todo c)) + pc_weight n (pc c).

Definition weight (s : State) : nat :=
  sum_list (map (caller_weight (length (callers s))) (callers s)).

End Queue.
Arguments Pc : clear implicits.
Arguments Caller : clear implicits.
Arguments Event : clear implicits.
Arguments State : clear implicits.
End WaitingQueue.

(* ================================================================== *)
(** * Properties *)

(** ** Sums over lists updated in place *)

Module SumFacts.
Section Sums.
Context {A : Type} (f : A → nat).

Lemma sum_list_insert (l : list A) i x y :
  l !! i = Some x →
  sum_list (map f (<[i := y]> l)) + f x = sum_list (map f l) + f y.
Proof.
  revert i. induction l as [|a l IH]; intros [|i] Hi; try done; simpl in *.
  - injection Hi as ->. lia.
  - specialize (IH _ Hi). lia.
Qed.

Lemma sum_list_lookup (l : list A) i x :
  l !! i = Some x → f x ≤ sum_list (map f l).
Proof.
  revert i. induction l as [|a l IH]; intros [|i] Hi; try done; simpl in *.
  - injection Hi as ->. lia.
  - specialize (IH _ Hi). lia.
Qed.

Lemma sum_list_lookup_two (l : list A) i j x y :
  i ≠ j → l !! i = Some x → l !! j = Some y →
  f x + f y ≤ sum_list (map f l).
Proof.
  revert i j. induction l as [|a l IH]; intros [|i] [|j] Hne Hi Hj;
    try done; simpl in *.
  - injection Hi as ->. pose proof (sum_list_lookup l j y Hj). lia.
  - injection Hj as ->. pose proof (sum_list_lookup l i x Hi). lia.
  - assert (i ≠ j) as Hne' by lia. specialize (IH _ _ Hne' Hi Hj). lia.
Qed.

End Sums.
End SumFacts.

(** ** The blocking queue *)

Module BlockingQueueFacts.
Import BlockingQueue.
Section Facts.
Context {T : Type}.
Implicit Types (bq : t T) (os : list (Op T)) (outs : list (Outcome T)).

Lemma pop_nonempty bq item rest :
  q bq = item :: rest → pop bq = PopItem item (mk rest (stopped bq)).
Proof.
  intros Hq. unfold pop, wait_pred. rewrite Hq.
  rewrite bool_decide_eq_false_2 by discriminate.
  by rewrite orb_true_r, andb_false_r.
Qed.

Lemma pop_end_iff bq :
  pop bq = PopEnd ↔ stopped bq = true ∧ q bq = [].
Proof.
  unfold pop, wait_pred.
  destruct (q bq) as [|x rest] eqn:Hq, (stopped bq); simpl;
    try rewrite bool_decide_eq_true_2 by reflexivity;
    try rewrite bool_decide_eq_false_2 by discriminate;
    simpl; split; try done; intros [? ?]; done.
Qed.

Lemma pop_wait_iff bq :
  pop bq = PopWait ↔ stopped bq = false ∧ q bq = [].
Proof.
  unfold pop, wait_pred.
  destruct (q bq) as [|x rest] eqn:Hq, (stopped bq); simpl;
    try rewrite bool_decide_eq_true_2 by reflexivity;
    try rewrite bool_decide_eq_false_2 by discriminate;
    simpl; split; try done; intros [? ?]; done.
Qed.

Lemma pop_item_inv bq item bq' :
  pop bq = PopItem item bq' →
  q bq = item :: q bq' ∧ stopped bq' = stopped bq.
Proof.
  destruct (q bq) as [|x rest] eqn:Hq.
  - destruct (stopped bq) eqn:Hs.
    + assert (pop bq = PopEnd) as -> by (by apply pop_end_iff). done.
    + assert (pop bq = PopWait) as -> by (by apply pop_wait_iff). done.
  - rewrite (pop_nonempty _ _ _ Hq). by intros [= -> <-].
Qed.

(** What went in is what came out followed by what is still queued. *)
Lemma calls_conservation os bq bq' outs :
  calls os bq = (bq', outs) →
  q bq ++ pushed os = delivered outs ++ q bq'.
Proof.
  revert bq bq' outs. induction os as [|o os IH]; intros bq bq' outs; simpl.
  - intros [= <- <-]. by rewrite app_nil_r.
  - destruct (call o bq) as [bq1 out] eqn:Hcall.
    destruct (calls os bq1) as [bq2 outs2] eqn:Hcalls.
    intros [= <- <-]. specialize (IH _ _ _ Hcalls).
    destruct o as [item| |]; simpl in Hcall.
    + injection Hcall as <- <-. simpl in IH.
      rewrite <- IH. by rewrite <- app_assoc.
    + destruct (pop bq) as [| |item bq3] eqn:Hpop; injection Hcall as <- <-;
        simpl; try done.
      apply pop_item_inv in Hpop as [-> _]. simpl. by f_equal.
    + injection Hcall as <- <-. done.
Qed.

Lemma calls_stopped_mono os bq bq' outs :
  calls os bq = (bq', outs) → stopped bq = true → stopped bq' = true.
Proof.
  revert bq bq' outs. induction os as [|o os IH]; intros bq bq' outs; simpl.
  - by intros [= <- <-].
  - destruct (call o bq) as [bq1 out] eqn:Hcall.
    destruct (calls os bq1) as [bq2 outs2] eqn:Hcalls.
    intros [= <- <-] Hs. apply (IH _ _ _ Hcalls).
    destruct o as [item| |]; simpl in Hcall.
    + by injection Hcall as <- <-.
    + destruct (pop bq) as [| |item bq3] eqn:Hpop; injection Hcall as <- <-;
        try done.
      apply pop_item_inv in Hpop as [_ ->]. done.
    + by injection Hcall as <- <-.
Qed.

Lemma calls_no_wait os bq bq' outs :
  stopped bq = true → calls os bq = (bq', outs) → OutWait ∉ outs.
Proof.
  revert bq bq' outs. induction os as [|o os IH]; intros bq bq' outs; simpl.
  - intros _ [= <- <-]. apply not_elem_of_nil.
  - intros Hs.
    destruct (call o bq) as [bq1 out] eqn:Hcall.
    destruct (calls os bq1) as [bq2 outs2] eqn:Hcalls.
    intros [= <- <-].
    destruct o as [item| |]; simpl in Hcall.
    + injection Hcall as <- <-. by apply (IH (push item bq) _ _ Hs Hcalls).
    + destruct (pop bq) as [| |item bq3] eqn:Hpop; injection Hcall as <- <-.
      * apply pop_wait_iff in Hpop as [Hs' _]. congruence.
      * apply not_elem_of_cons. split; [done|]. by apply (IH _ _ _ Hs Hcalls).
      * apply pop_item_inv in Hpop as [_ Hs'].
        apply not_elem_of_cons. split; [done|].
        apply (IH _ _ _ (eq_trans Hs' Hs) Hcalls).
    + injection Hcall as <- <-. by apply (IH (shutdown bq) _ _ eq_refl Hcalls).
Qed.

(** Without a push in between, stream-end stays stream-end. *)
Lemma calls_end_stable os bq bq' outs :
  forallb (fun o => negb (is_push o)) os = true →
  pop bq = PopEnd →
  calls os bq = (bq', outs) →
  pop bq' = PopEnd ∧ Forall (fun r => r = OutEnd) outs.
Proof.
  revert bq bq' outs. induction os as [|o os IH]; intros bq bq' outs; simpl.
  - intros _ Hend [= <- <-]. done.
  - intros [Ho Hos]%andb_prop Hend.
    destruct (call o bq) as [bq1 out] eqn:Hcall.
    destruct (calls os bq1) as [bq2 outs2] eqn:Hcalls.
    intros [= <- <-].
    destruct o as [item| |]; simpl in Hcall; try done.
    + rewrite Hend in Hcall. injection Hcall as <- <-.
      destruct (IH _ _ _ Hos Hend Hcalls) as [? ?]. split; [done|].
      by constructor.
    + injection Hcall as <- <-.
      apply (IH _ _ _ Hos) in Hcalls; [done|].
      apply pop_end_iff in Hend as [? ?]. by apply pop_end_iff.
Qed.

(** C5 (FIFO delivery).  For every history of calls on a fresh queue, the
    items returned by [pop], in the order of the pops, followed by the items
    still queued, are the items pushed, in the order of the pushes.  So the
    item of the i-th push is the one the i-th successful pop returns: of two
    pushed items that are both dequeued, the one pushed first is dequeued
    first. *)
Theorem fifo_delivery os bq' outs :
  calls os empty = (bq', outs) →
  delivered outs ++ q bq' = pushed os ∧
  (∀ i j a b,
     i < j → j < length (delivered outs) →
     pushed os !! i = Some a → pushed os !! j = Some b →
     delivered outs !! i = Some a ∧ delivered outs !! j = Some b).
Proof.
  intros Hcalls. apply calls_conservation in Hcalls. simpl in Hcalls.
  split; [done|].
  intros i j a b Hij Hj Ha Hb. rewrite Hcalls in Ha, Hb.
  rewrite lookup_app_l in Ha by lia. rewrite lookup_app_l in Hb by lia.
  done.
Qed.

(** C4, amended (stream-end).  [pop] returns the head whenever the queue is
    not empty, and returns stream-end exactly when the queue is stopped and
    empty; when a pop returns stream-end, every item pushed so far has been
    returned by an earlier pop; on a stopped queue no pop waits; and after a
    stream-end every later pop returns stream-end as long as no push comes
    in between. *)
Theorem pop_stream_end :
  (∀ bq item rest,
     q bq = item :: rest → pop bq = PopItem item (mk rest (stopped bq))) ∧
  (∀ bq, pop bq = PopEnd ↔ stopped bq = true ∧ q bq = []) ∧
  (∀ os bq outs,
     calls os empty = (bq, outs) → pop bq = PopEnd →
     delivered outs = pushed os) ∧
  (∀ os bq bq' outs,
     stopped bq = true → calls os bq = (bq', outs) →
     pop bq' ≠ PopWait ∧ OutWait ∉ outs) ∧
  (∀ os bq bq' outs,
     pop bq = PopEnd →
     forallb (fun o => negb (is_push o)) os = true →
     calls os bq = (bq', outs) →
     pop bq' = PopEnd ∧ Forall (fun r => r = OutEnd) outs).
Proof.
  split_and!.
  - apply pop_nonempty.
  - apply pop_end_iff.
  - intros os bq outs Hcalls [_ Hq]%pop_end_iff.
    apply calls_conservation in Hcalls. rewrite Hq, app_nil_r in Hcalls.
    done.
  - intros os bq bq' outs Hs Hcalls. split.
    + intros [Hs' _]%pop_wait_iff.
      rewrite (calls_stopped_mono _ _ _ _ Hcalls Hs) in Hs'. done.
    + by eapply calls_no_wait.
  - intros os bq bq' outs Hend Hos Hcalls. by eapply calls_end_stable.
Qed.

End Facts.

Lemma fifo_delivery_witness :
  delivered [OutItem "x"; OutWait; OutItem "y"] ++ q (mk ["z"] false)
    = pushed [OpPush "x"; OpPop; OpPop; OpPush "y"; OpPush "z"; OpPop] ∧
  (∀ i j a b,
     i < j → j < length (delivered [OutItem "x"; OutWait; OutItem "y"]) →
     pushed [OpPush "x"; OpPop; OpPop; OpPush "y"; OpPush "z"; OpPop] !! i
       = Some a →
     pushed [OpPush "x"; OpPop; OpPop; OpPush "y"; OpPush "z"; OpPop] !! j
       = Some b →
     delivered [OutItem "x"; OutWait; OutItem "y"] !! i = Some a ∧
     delivered [OutItem "x"; OutWait; OutItem "y"] !! j = Some b).
Proof.
  apply (fifo_delivery
           [OpPush "x"; OpPop; OpPop; OpPush "y"; OpPush "z"; OpPop]
           (mk ["z"] false) [OutItem "x"; OutWait; OutItem "y"]).
  reflexivity.
Defined.

(** C4 as stated fails: on a stopped and drained queue a pop returns
    stream-end, a push is still accepted, and the next pop returns that item
    instead of stream-end. *)
Lemma pop_after_stream_end_counterexample :
  calls [OpShutdown; OpPop; OpPush (mkRequest GET "a" ""); OpPop] empty
  = (mk [] true, [OutEnd; OutItem (mkRequest GET "a" "")]).
Proof. reflexivity. Qed.

End BlockingQueueFacts.

(** ** The shard *)

Module ShardFacts.

Lemma exec_all_app rs1 rs2 (d : gmap string string) :
  Shard.exec_all (rs1 ++ rs2) d =
  (let '(d1, reps1) := Shard.exec_all rs1 d in
   let '(d2, reps2) := Shard.exec_all rs2 d1 in
   (d2, reps1 ++ reps2)).
Proof.
  revert d. induction rs1 as [|r rs1 IH]; intros d; simpl.
  - by destruct (Shard.exec_all rs2 d).
  - destruct (Shard.exec r d) as [d1 rep]. rewrite IH.
    destruct (Shard.exec_all rs1 d1) as [d2 reps].
    by destruct (Shard.exec_all rs2 d2).
Qed.

(** A request on another key leaves the entry of [k] as it is. *)
Lemma exec_other_key r k (d : gmap string string) :
  key r ≠ k → Shard.get k (Shard.exec r d).1 = Shard.get k d.
Proof.
  intros Hne. unfold Shard.exec, Shard.get, Shard.set, Shard.del.
  destruct (type r); simpl; [done| |].
  - by rewrite lookup_insert_ne.
  - by rewrite lookup_delete_ne.
Qed.

Lemma exec_all_other_keys rs k (d : gmap string string) :
  Forall (fun r => key r ≠ k) rs →
  Shard.get k (Shard.exec_all rs d).1 = Shard.get k d.
Proof.
  intros Hrs. revert d. induction Hrs as [|r rs Hr _ IH]; intros d; simpl.
  - done.
  - destruct (Shard.exec r d) as [d1 rep] eqn:He.
    specialize (IH d1). destruct (Shard.exec_all rs d1) as [d2 reps].
    simpl in *. rewrite IH. replace d1 with (Shard.exec r d).1 by by rewrite He.
    by apply exec_other_key.
Qed.

End ShardFacts.

(** ** The sharded store against the flat map *)

Module KVStoreFacts.
Section Facts.
Variable hash : string → N.
Implicit Types (shards : list (gmap string string)) (m : gmap string string).

Local Abbreviation shows := (KVStore.shows hash).

Lemma index_Some k shards :
  0 < length shards →
  ∃ i, KVStore.index hash k shards = Some i ∧ i < length shards.
Proof.
  intros Hlen. unfold KVStore.index.
  rewrite bool_decide_eq_false_2 by lia.
  eexists; split; [done|].
  assert (hash k `mod` N.of_nat (length shards) < N.of_nat (length shards))%N
    by (apply N.mod_lt; lia).
  lia.
Qed.

Lemma index_length k shards shards' :
  length shards' = length shards →
  KVStore.index hash k shards' = KVStore.index hash k shards.
Proof. intros Hlen. unfold KVStore.index. by rewrite Hlen. Qed.

Lemma shard_Some k shards :
  0 < length shards →
  ∃ i d, KVStore.shard hash k shards = Some (i, d) ∧
         KVStore.index hash k shards = Some i ∧ shards !! i = Some d.
Proof.
  intros Hlen. destruct (index_Some k shards Hlen) as (i & Hi & Hlt).
  destruct (lookup_lt_is_Some_2 shards i Hlt) as [d Hd].
  exists i, d. unfold KVStore.shard. rewrite Hi. simpl. rewrite Hd. done.
Qed.

Lemma shard_inv k shards i d :
  KVStore.shard hash k shards = Some (i, d) →
  KVStore.index hash k shards = Some i ∧ shards !! i = Some d.
Proof.
  unfold KVStore.shard. destruct (KVStore.index hash k shards) as [j|]; [|done].
  simpl. destruct (shards !! j) as [d'|] eqn:Hd; [|done]. simpl.
  by intros [= <- <-].
Qed.

(** Writing one shard: what [get] sees afterwards. *)
Lemma get_write k k' shards i d d' :
  KVStore.shard hash k shards = Some (i, d) →
  (KVStore.index hash k' shards = Some i → d' !! k' = d !! k') →
  k' ≠ k →
  KVStore.get hash k' (<[i := d']> shards) = KVStore.get hash k' shards.
Proof.
  intros [Hi Hd]%shard_inv Hsame Hne.
  unfold KVStore.get, KVStore.shard.
  rewrite (index_length k' shards) by apply length_insert.
  destruct (KVStore.index hash k' shards) as [j|] eqn:Hj; [|done]. simpl.
  destruct (decide (j = i)) as [->|Hji].
  - rewrite list_lookup_insert_eq by (by eapply lookup_lt_Some).
    rewrite Hd. simpl. unfold Shard.get. f_equal. by apply Hsame.
  - by rewrite list_lookup_insert_ne.
Qed.

Lemma get_written k shards i d d' :
  KVStore.shard hash k shards = Some (i, d) →
  KVStore.get hash k (<[i := d']> shards) = Some (d' !! k).
Proof.
  intros [Hi Hd]%shard_inv.
  unfold KVStore.get, KVStore.shard.
  rewrite (index_length k shards) by apply length_insert.
  rewrite Hi. simpl.
  rewrite list_lookup_insert_eq by (by eapply lookup_lt_Some). done.
Qed.

Lemma set_Some k v shards :
  0 < length shards →
  ∃ s', KVStore.set hash k v shards = Some s' ∧
        length s' = length shards ∧
        KVStore.get hash k s' = Some (Some v) ∧
        ∀ k', k' ≠ k → KVStore.get hash k' s' = KVStore.get hash k' shards.
Proof.
  intros Hlen. destruct (shard_Some k shards Hlen) as (i & d & Hsh & _ & _).
  unfold KVStore.set. rewrite Hsh. simpl. eexists. split; [done|].
  split_and!.
  - apply length_insert.
  - rewrite (get_written _ _ _ _ _ Hsh). unfold Shard.set.
    by rewrite lookup_insert_eq.
  - intros k' Hne. apply (get_write _ _ _ _ _ _ Hsh); [|done].
    intros _. unfold Shard.set. by rewrite lookup_insert_ne.
Qed.

Lemma del_Some k shards :
  0 < length shards →
  ∃ s', KVStore.del hash k shards = Some s' ∧
        length s' = length shards ∧
        KVStore.get hash k s' = Some None ∧
        (∀ k', k' ≠ k → KVStore.get hash k' s' = KVStore.get hash k' shards) ∧
        (KVStore.get hash k shards = Some None → s' = shards).
Proof.
  intros Hlen. destruct (shard_Some k shards Hlen) as (i & d & Hsh & Hi & Hd).
  unfold KVStore.del. rewrite Hsh. simpl. eexists. split; [done|].
  split_and!.
  - apply length_insert.
  - rewrite (get_written _ _ _ _ _ Hsh). unfold Shard.del.
    by rewrite lookup_delete_eq.
  - intros k' Hne. apply (get_write _ _ _ _ _ _ Hsh); [|done].
    intros _. unfold Shard.del. by rewrite lookup_delete_ne.
  - unfold KVStore.get. rewrite Hsh. simpl. unfold Shard.get, Shard.del.
    intros [= Hk]. rewrite delete_id by done. by apply list_insert_id.
Qed.

Lemma get_Some k shards :
  0 < length shards → ∃ v, KVStore.get hash k shards = Some v.
Proof.
  intros Hlen. destruct (shard_Some k shards Hlen) as (i & d & Hsh & _ & _).
  unfold KVStore.get. rewrite Hsh. simpl. by eexists.
Qed.

Lemma shows_make n : 0 < n → shows (KVStore.make n) ∅.
Proof.
  intros Hn. unfold KVStore.make. split; [by rewrite length_replicate|].
  intros k.
  destruct (shard_Some k (replicate n Shard.empty)) as (i & d & Hsh & _ & Hd);
    [by rewrite length_replicate|].
  unfold KVStore.get. rewrite Hsh. simpl.
  apply lookup_replicate in Hd as [-> _]. done.
Qed.

Lemma flat_del_delete k m : Flat.del k m = delete k m.
Proof.
  unfold Flat.del. destruct (m !! k) eqn:Hk; [done|]. by rewrite delete_id.
Qed.

Lemma exec_shows r shards m :
  shows shards m →
  ∃ s', KVStore.exec hash r shards = Some (s', (Flat.exec r m).2) ∧
        length s' = length shards ∧
        shows s' (Flat.exec r m).1.
Proof.
  intros [Hlen Hget]. unfold KVStore.exec, Flat.exec.
  destruct (type r); simpl.
  - rewrite Hget. simpl. eexists. split; [done|]. by split.
  - destruct (set_Some (key r) (value r) shards Hlen)
      as (s' & -> & Hl & Heq & Hne).
    simpl. eexists. split; [done|]. split; [done|]. split; [lia|].
    intros k. unfold Flat.set. destruct (decide (k = key r)) as [->|Hk].
    + by rewrite Heq, lookup_insert_eq.
    + rewrite Hne by done. rewrite lookup_insert_ne by done. apply Hget.
  - destruct (del_Some (key r) shards Hlen)
      as (s' & -> & Hl & Heq & Hne & _).
    simpl. eexists. split; [done|]. split; [done|]. split; [lia|].
    intros k. rewrite flat_del_delete.
    destruct (decide (k = key r)) as [->|Hk].
    + by rewrite Heq, lookup_delete_eq.
    + rewrite Hne by done. rewrite lookup_delete_ne by done. apply Hget.
Qed.

Lemma exec_all_shows rs shards m :
  shows shards m →
  ∃ s', KVStore.exec_all hash rs shards = Some (s', (Flat.exec_all rs m).2) ∧
        length s' = length shards ∧
        shows s' (Flat.exec_all rs m).1.
Proof.
  revert shards m. induction rs as [|r rs IH]; intros shards m Hsh; simpl.
  - eexists. by split.
  - destruct (exec_shows r shards m Hsh) as (s1 & -> & Hl1 & Hsh1). simpl.
    destruct (Flat.exec r m) as [m1 rep]. simpl in *.
    destruct (IH s1 m1 Hsh1) as (s2 & -> & Hl2 & Hsh2). simpl.
    destruct (Flat.exec_all rs m1) as [m2 reps]. simpl in *.
    eexists. split; [done|]. split; [lia|done].
Qed.

Lemma store_exec_other_key r k shards s' rep :
  0 < length shards → key r ≠ k →
  KVStore.exec hash r shards = Some (s', rep) →
  length s' = length shards ∧
  KVStore.get hash k s' = KVStore.get hash k shards.
Proof.
  intros Hlen Hne. unfold KVStore.exec. destruct (type r).
  - destruct (KVStore.get hash (key r) shards); [|done]. simpl.
    by intros [= <- _].
  - destruct (set_Some (key r) (value r) shards Hlen)
      as (s1 & -> & Hl & _ & Hother).
    simpl. intros [= <- _]. split; [done|]. by apply Hother.
  - destruct (del_Some (key r) shards Hlen) as (s1 & -> & Hl & _ & Hother & _).
    simpl. intros [= <- _]. split; [done|]. by apply Hother.
Qed.

Lemma store_exec_all_other_keys rs k shards :
  0 < length shards → Forall (fun r => key r ≠ k) rs →
  ∃ s' reps,
    KVStore.exec_all hash rs shards = Some (s', reps) ∧
    KVStore.get hash k s' = KVStore.get hash k shards.
Proof.
  intros Hlen Hrs. revert shards Hlen.
  induction Hrs as [|r rs Hr _ IH]; intros shards Hlen; simpl.
  - by eexists _, _.
  - destruct (get_Some k shards Hlen) as [v0 Hv0].
    assert (∃ s1 rep, KVStore.exec hash r shards = Some (s1, rep))
      as (s1 & rep & He).
    { unfold KVStore.exec. destruct (type r).
      - destruct (get_Some (key r) shards Hlen) as [v ->]. by eexists _, _.
      - destruct (set_Some (key r) (value r) shards Hlen) as (s1 & -> & _).
        by eexists _, _.
      - destruct (del_Some (key r) shards Hlen) as (s1 & -> & _).
        by eexists _, _. }
    rewrite He. simpl.
    destruct (store_exec_other_key r k shards s1 rep Hlen Hr He) as [Hl1 Hg1].
    destruct (IH s1) as (s2 & reps & -> & Hg2); [lia|]. simpl.
    eexists _, _. split; [done|]. by rewrite Hg2.
Qed.

(** C2 (get after set).  After [set k v], with any calls on other keys in
    between, [get k] returns [v], on one shard and through a store with at
    least one shard; this holds for the empty string as a value too, and
    the result is then present-with-empty, which is not the absent
    result. *)
Theorem get_after_set k v rs (d : gmap string string) shards :
  Forall (fun r => key r ≠ k) rs →
  0 < length shards →
  Shard.get k (Shard.exec_all rs (Shard.set k v d)).1 = Some v ∧
  (∃ s1 s2 reps,
     KVStore.set hash k v shards = Some s1 ∧
     KVStore.exec_all hash rs s1 = Some (s2, reps) ∧
     KVStore.get hash k s2 = Some (Some v)) ∧
  Shard.get k (Shard.exec_all rs (Shard.set k "" d)).1 = Some "" ∧
  Some "" ≠ (None : option string).
Proof.
  intros Hrs Hlen. split_and!; try done.
  - rewrite ShardFacts.exec_all_other_keys by done.
    unfold Shard.get, Shard.set. by rewrite lookup_insert_eq.
  - destruct (set_Some k v shards Hlen) as (s1 & Hs1 & Hl1 & Hg1 & _).
    destruct (store_exec_all_other_keys rs k s1) as (s2 & reps & Hs2 & Hg2);
      [lia|done|].
    exists s1, s2, reps. split_and!; try done. by rewrite Hg2.
  - rewrite ShardFacts.exec_all_other_keys by done.
    unfold Shard.get, Shard.set. by rewrite lookup_insert_eq.
Qed.

(** C3 (delete and absent keys).  [del k] always yields a shard in which
    [get k] is absent and every other key is as before; on a shard without
    [k] it changes nothing; [get] of a key that is not stored is the absent
    result.  The calls have no failure outcome: on a store with at least
    one shard [del] and [get] are always defined, [del] of an absent key
    leaves the store as it is, and the worker that runs [DEL] or [GET] for
    an absent key goes on to its log line. *)
Theorem delete_and_absent k (d : gmap string string) shards :
  Shard.get k (Shard.del k d) = None ∧
  (∀ k', k' ≠ k → Shard.get k' (Shard.del k d) = Shard.get k' d) ∧
  (Shard.get k d = None → Shard.del k d = d) ∧
  (k ∉ dom d ↔ Shard.get k d = None) ∧
  Shard.get k Shard.empty = None ∧
  (0 < length shards →
   ∃ s',
     KVStore.del hash k shards = Some s' ∧
     KVStore.get hash k s' = Some None ∧
     (∀ k', k' ≠ k → KVStore.get hash k' s' = KVStore.get hash k' shards) ∧
     (KVStore.get hash k shards = Some None →
      s' = shards ∧
      KVStore.exec hash (mkRequest DEL k "") shards = Some (shards, RVoid) ∧
      KVStore.exec hash (mkRequest GET k "") shards
        = Some (shards, RVal None))).
Proof.
  unfold Shard.get, Shard.del, Shard.empty. split_and!.
  - apply lookup_delete_eq.
  - intros k' Hne. by apply lookup_delete_ne.
  - apply delete_id.
  - apply not_elem_of_dom.
  - apply lookup_empty.
  - intros Hlen.
    destruct (del_Some k shards Hlen) as (s' & Hdel & _ & Hg & Hother & Hid).
    exists s'. split_and!; try done. intros Habs.
    specialize (Hid Habs). subst s'. split; [done|].
    unfold KVStore.exec. simpl. by rewrite Hdel, Habs.
Qed.

(** C10 (sharding transparency).  For every hash, every positive number of
    shards and every sequence of requests run in order on a fresh store, the
    calls are all defined, their replies are those of the same sequence on
    one flat map, and the final store is equivalent to the final flat map:
    every [get] answers as the lookup there, and any further sequence gets
    the replies the flat map gives. *)
Theorem sharding_transparent shardCount rs :
  1 ≤ shardCount →
  ∃ s',
    KVStore.exec_all hash rs (KVStore.make shardCount)
      = Some (s', (Flat.exec_all rs ∅).2) ∧
    length s' = shardCount ∧
    (∀ k, KVStore.get hash k s' = Some (Flat.get k (Flat.exec_all rs ∅).1)) ∧
    (∀ rs', ∃ s'',
        KVStore.exec_all hash rs' s'
          = Some (s'', (Flat.exec_all rs' (Flat.exec_all rs ∅).1).2)).
Proof.
  intros Hsc.
  destruct (exec_all_shows rs (KVStore.make shardCount) ∅)
    as (s' & He & Hlen & Hsh); [apply shows_make; lia|].
  exists s'. split_and!.
  - exact He.
  - rewrite Hlen. apply length_replicate.
  - apply Hsh.
  - intros rs'. destruct (exec_all_shows rs' _ _ Hsh) as (s'' & He' & _).
    by exists s''.
Qed.

End Facts.

Lemma get_after_set_witness :
  Shard.get "k"
    (Shard.exec_all [mkRequest SET "j" "w"; mkRequest DEL "i" ""]
       (Shard.set "k" "v" ∅)).1 = Some "v" ∧
  (∃ s1 s2 reps,
     KVStore.set ThreadPool.fnv1a "k" "v" (KVStore.make 4) = Some s1 ∧
     KVStore.exec_all ThreadPool.fnv1a
       [mkRequest SET "j" "w"; mkRequest DEL "i" ""] s1 = Some (s2, reps) ∧
     KVStore.get ThreadPool.fnv1a "k" s2 = Some (Some "v")) ∧
  Shard.get "k"
    (Shard.exec_all [mkRequest SET "j" "w"; mkRequest DEL "i" ""]
       (Shard.set "k" "" ∅)).1 = Some "" ∧
  Some "" ≠ (None : option string).
Proof.
  apply (get_after_set ThreadPool.fnv1a "k" "v"
           [mkRequest SET "j" "w"; mkRequest DEL "i" ""] ∅ (KVStore.make 4)).
  - repeat constructor; simpl; discriminate.
  - simpl. lia.
Defined.

Lemma sharding_transparent_witness :
  ∃ s',
    KVStore.exec_all ThreadPool.fnv1a ThreadPool.main_requests (KVStore.make 4)
      = Some (s', (Flat.exec_all ThreadPool.main_requests ∅).2) ∧
    length s' = 4 ∧
    (∀ k, KVStore.get ThreadPool.fnv1a k s'
          = Some (Flat.get k (Flat.exec_all ThreadPool.main_requests ∅).1)) ∧
    (∀ rs', ∃ s'',
        KVStore.exec_all ThreadPool.fnv1a rs' s'
          = Some (s'', (Flat.exec_all rs'
                          (Flat.exec_all ThreadPool.main_requests ∅).1).2)).
Proof.
  apply (sharding_transparent ThreadPool.fnv1a 4 ThreadPool.main_requests).
  lia.
Defined.

End KVStoreFacts.

(** ** The thread pool *)

Module ThreadPoolFacts.
Import ThreadPool.

Section Facts.
Variable hash : string → N.

Local Abbreviation Step := (ThreadPool.Step hash).
Local Abbreviation Inv := (ThreadPool.Inv hash).

Lemma with_worker_Some i w s th :
  workers s !! i = Some th →
  with_worker i w s =
  mkState (queue s) (kv s) (<[i := mkThread w (joinable th)]> (workers s))
    (main s) (out s) (submitted s) (applied s).
Proof. intros H. unfold with_worker. by rewrite H. Qed.

Lemma step_Step t s s' : step hash t s = Some s' → Step t s s'.
Proof.
  destruct t as [|i]; simpl.
  - unfold step_main. destruct (main s) as [[|[r| |i] todo]|] eqn:Hm; try done.
    + intros [= <-]. by constructor.
    + intros [= <-]. by constructor.
    + destruct (workers s !! i) as [[b j]|] eqn:Hw; [|done]. simpl.
      destruct j.
      * destruct b; try done. intros [= <-]. by econstructor.
      * intros [= <-]. by econstructor.
  - unfold step_worker. destruct (workers s !! i) as [th|] eqn:Hw; [|done].
    destruct (body th) as [|r|[|c cs]| |] eqn:Hb; try done.
    + destruct (BlockingQueue.pop (queue s)) as [| |r bq'] eqn:Hpop; [done| |].
      * intros [= <-]. rewrite (with_worker_Some _ _ _ _ Hw).
        apply BlockingQueueFacts.pop_end_iff in Hpop as [? ?].
        by constructor.
      * intros [= <-]. rewrite (with_worker_Some _ _ _ th) by done. simpl.
        apply BlockingQueueFacts.pop_item_inv in Hpop as [Hq Hs].
        destruct bq' as [rest st]. simpl in *. subst st.
        by econstructor.
    + destruct (KVStore.exec hash r (kv s)) as [[kv' rep]|] eqn:He.
      * intros [= <-]. rewrite (with_worker_Some _ _ _ th) by done. simpl.
        by econstructor.
      * intros [= <-]. rewrite (with_worker_Some _ _ _ _ Hw).
        by econstructor.
    + intros [= <-]. rewrite (with_worker_Some _ _ _ _ Hw). by constructor.
    + intros [= <-]. rewrite (with_worker_Some _ _ _ th) by done. simpl.
      by econstructor.
Qed.

Lemma flat_exec_all_snoc rs r (m : gmap string string) :
  (Flat.exec_all (rs ++ [r]) m).1 = (Flat.exec r (Flat.exec_all rs m).1).1.
Proof.
  revert m. induction rs as [|r' rs IH]; intros m; simpl.
  - by destruct (Flat.exec r m).
  - destruct (Flat.exec r' m) as [m1 rep]. specialize (IH m1).
    destruct (Flat.exec_all (rs ++ [r]) m1), (Flat.exec_all rs m1). done.
Qed.

Lemma in_flight_insert (ws : list Thread) i th th' :
  ws !! i = Some th →
  held th ++ flat_map held (<[i := th']> ws)
  ≡ₚ held th' ++ flat_map held ws.
Proof.
  revert i. induction ws as [|w ws IH]; intros [|i] Hi; try done; simpl in *.
  - injection Hi as ->. apply Permutation_app_swap_app.
  - rewrite (Permutation_app_swap_app (held th) (held w)).
    rewrite (IH _ Hi). apply Permutation_app_swap_app.
Qed.

Lemma in_flight_insert_idle (ws : list Thread) i th th' :
  ws !! i = Some th → held th = [] → held th' = [] →
  flat_map held (<[i := th']> ws) ≡ₚ flat_map held ws.
Proof.
  intros Hi Hth Hth'. pose proof (in_flight_insert ws i th th' Hi) as H.
  by rewrite Hth, Hth' in H.
Qed.

Lemma Inv_init shardCount n cs :
  0 < shardCount → Inv n (compile n cs) (init shardCount n cs).
Proof.
  intros Hsc. split; simpl.
  - apply length_replicate.
  - by apply KVStoreFacts.shows_make.
  - unfold in_flight. simpl. induction n as [|n IH]; simpl; done.
  - by apply Forall_replicate.
  - by apply Forall_replicate.
  - by intros todo [= <-].
Qed.

Lemma Inv_step n prog t s s' :
  Inv n prog s → Step t s s' → Inv n prog s'.
Proof.
  intros [Hw Hst Hc Hd Hj Hp] HS. unfold in_flight in *.
  destruct HS as [s r todo Hm|s todo Hm|s i todo Hm Hi|s i todo th Hm Hi Hjn
                 |s i th Hi Hb Hs Hq|s i th r rest Hi Hb Hq
                 |s i th r kv' rep Hi Hb He|s i th r Hi Hb He
                 |s i th c cs Hi Hb|s i th Hi Hb];
    split; simpl; unfold in_flight; simpl;
    rewrite ?length_insert; try done.
  all: try (intros ? [= <-]; rewrite <- (Hp _ Hm); simpl;
            by rewrite <- ?app_assoc).
  all: try (apply Forall_insert; [done|]; simpl; try done; intros Hjn;
            rewrite Forall_lookup in Hj; specialize (Hj _ _ Hi Hjn);
            congruence).
  all: try (destruct (KVStoreFacts.exec_shows hash r _ _ Hst)
              as (s1 & He1 & _); congruence).
  all: try (by rewrite (in_flight_insert_idle _ _ _ _ Hi)
              by (by unfold held; rewrite ?Hb)).
  - (* push *) rewrite Hc. by rewrite !app_assoc.
  - (* pop of an item *)
    pose proof (in_flight_insert _ _ _
                  (mkThread (WExec r) (joinable th)) Hi) as HP.
    unfold held at 1 2 in HP. rewrite Hb in HP. simpl in HP.
    rewrite Hc, Hq, HP. simpl. apply Permutation_app_head.
    symmetry. apply Permutation_middle.
  - (* store call: the store *)
    rewrite flat_exec_all_snoc.
    destruct (KVStoreFacts.exec_shows hash r _ _ Hst) as (s1 & He1 & _ & Hsh).
    rewrite He in He1. by injection He1 as <- _.
  - (* store call: the histories *)
    pose proof (in_flight_insert _ _ _
                  (mkThread (WPrint (log_line i r rep)) (joinable th)) Hi) as HP.
    unfold held at 1 2 in HP. rewrite Hb in HP. simpl in HP.
    rewrite Hc, <- HP, <- !app_assoc. done.
Qed.

(** Running a schedule is a sequence of steps. *)
Lemma Inv_run n prog sched s :
  Inv n prog s → Inv n prog (run hash sched s).
Proof.
  revert s. induction sched as [|t sched IH]; intros s HI; simpl; [done|].
  apply IH. destruct (step hash t s) as [s'|] eqn:Hs; simpl; [|done].
  eapply Inv_step; [done|]. by apply step_Step.
Qed.

(** *** Programs that submit and then shut down once

    The owner is either still submitting (the queue is open, no worker has
    returned, every handle is joinable) or joining (the queue is stopped,
    the first [k] workers are joined, and once a worker has returned the
    queue is empty for good). *)

Lemma compile_drain n rs :
  compile n (map Submit rs ++ [Shutdown]) = drain_prog n rs.
Proof.
  unfold compile, drain_prog. rewrite flat_map_app. simpl.
  rewrite app_nil_r. f_equal. induction rs as [|r rs IH]; simpl; by f_equal.
Qed.

Lemma pushes_drain n rs : pushes (drain_prog n rs) = rs.
Proof.
  unfold pushes, drain_prog. rewrite flat_map_app. simpl.
  assert (flat_map (fun i => match i with IPush r => [r] | _ => [] end)
            (map IJoin (seq 0 n)) = []) as ->.
  { generalize 0. induction n as [|n IH]; intros k; simpl; [done|apply IH]. }
  rewrite app_nil_r. induction rs as [|r rs IH]; simpl; by f_equal.
Qed.

Lemma Drain_init shardCount n rs :
  Drain n (init shardCount n (map Submit rs ++ [Shutdown])).
Proof.
  left. exists rs. simpl. rewrite compile_drain. split_and!; try done.
  by apply Forall_replicate.
Qed.

Lemma joined_insert (ws : list Thread) (k : nat) i th w :
  (∀ j th', ws !! j = Some th' → joinable th' = bool_decide (k ≤ j)%nat) →
  ws !! i = Some th →
  ∀ j th', <[i := mkThread w (joinable th)]> ws !! j = Some th' →
           joinable th' = bool_decide (k ≤ j)%nat.
Proof.
  intros Hall Hi j th' [(-> & <- & _)|(Hne & Hj)]%list_lookup_insert_Some.
  - simpl. by apply Hall.
  - by apply Hall.
Qed.

Lemma Drain_step n t s s' :
  Drain n s → Step t s s' → Drain n s'.
Proof.
  intros [(pu & Hmain & Hst & Hall)|(k & Hk & Hmain & Hst & Hjn & Hq)] HS.
  - (* submitting *)
    destruct HS as [s r todo Hm|s todo Hm|s i todo Hm Hi|s i todo th Hm Hi Hjn
                   |s i th Hi Hb Hs Hq|s i th r rest Hi Hb Hq
                   |s i th r kv' rep Hi Hb He|s i th r Hi Hb He
                   |s i th c cs Hi Hb|s i th Hi Hb].
    all: try (rewrite Hmain in Hm; destruct pu as [|r' pu];
              simpl in Hm; try done; injection Hm as <-; subst).
    all: try congruence.
    + left. exists pu. simpl. by split_and!.
    + right. exists 0. simpl. rewrite Nat.sub_0_r. split_and!; try done.
      * lia.
      * intros i th Hi. rewrite Forall_lookup in Hall.
        by destruct (Hall _ _ Hi) as [-> _].
      * eapply Forall_impl; [exact Hall|]. by intros th [_ ?] ?.
    + left. exists pu. simpl. split_and!; try done.
      apply Forall_insert; [done|]. simpl. rewrite Forall_lookup in Hall.
      by destruct (Hall _ _ Hi) as [-> _].
    + left. exists pu. simpl. split_and!; try done.
      apply Forall_insert; [done|]. simpl. rewrite Forall_lookup in Hall.
      by destruct (Hall _ _ Hi) as [-> _].
    + left. exists pu. simpl. split_and!; try done.
      apply Forall_insert; [done|]. simpl. rewrite Forall_lookup in Hall.
      by destruct (Hall _ _ Hi) as [-> _].
    + left. exists pu. simpl. split_and!; try done.
      apply Forall_insert; [done|]. simpl. rewrite Forall_lookup in Hall.
      by destruct (Hall _ _ Hi) as [-> _].
    + left. exists pu. simpl. split_and!; try done.
      apply Forall_insert; [done|]. simpl. rewrite Forall_lookup in Hall.
      by destruct (Hall _ _ Hi) as [-> _].
  - (* joining *)
    destruct HS as [s r todo Hm|s todo Hm|s i todo Hm Hi|s i todo th Hm Hi Hjn'
                   |s i th Hi Hb Hs Hq'|s i th r rest Hi Hb Hq'
                   |s i th r kv' rep Hi Hb He|s i th r Hi Hb He
                   |s i th c cs Hi Hb|s i th Hi Hb].
    all: try (rewrite Hmain in Hm; destruct (n - k) as [|d] eqn:Hd;
              simpl in Hm; try done; injection Hm as <- <-).
    + right. exists (S k). simpl. replace (n - S k) with d by lia.
      split_and!; try done.
      * lia.
      * intros j th' [(-> & <- & _)|(Hne & Hj)]%list_lookup_insert_Some; simpl.
        -- by rewrite bool_decide_eq_false_2 by lia.
        -- rewrite (Hjn _ _ Hj). apply bool_decide_ext. lia.
      * apply Forall_insert; [done|]. simpl. intros _.
        rewrite Forall_lookup in Hq. by apply (Hq _ _ Hi).
    + rewrite (Hjn _ _ Hi) in Hjn'. by rewrite bool_decide_eq_true_2 in Hjn' by lia.
    + right. exists k. simpl. split_and!; try done.
      * by eapply joined_insert.
      * by apply Forall_insert.
    + right. exists k. simpl. split_and!; try done.
      * by eapply joined_insert.
      * apply Forall_insert; [|done].
        eapply Forall_impl; [exact Hq|]. simpl. intros th' Hth' Hr.
        specialize (Hth' Hr). congruence.
    + right. exists k. simpl. split_and!; try done.
      * by eapply joined_insert.
      * by apply Forall_insert.
    + right. exists k. simpl. split_and!; try done.
      * by eapply joined_insert.
      * by apply Forall_insert.
    + right. exists k. simpl. split_and!; try done.
      * by eapply joined_insert.
      * by apply Forall_insert.
    + right. exists k. simpl. split_and!; try done.
      * by eapply joined_insert.
      * by apply Forall_insert.
Qed.

Lemma Drain_run n sched s :
  Drain n s → Drain n (run hash sched s).
Proof.
  revert s. induction sched as [|t sched IH]; intros s HD; simpl; [done|].
  apply IH. destruct (step hash t s) as [s'|] eqn:Hs; simpl; [|done].
  eapply Drain_step; [done|]. by apply step_Step.
Qed.

(** When the owner has finished such a program, the pool is quiescent and
    every request has gone through the store. *)
Lemma drain_finished n prog s :
  0 < n → Inv n prog s → Drain n s → finished s →
  Forall (fun th => body th = WReturned ∧ joinable th = false) (workers s) ∧
  BlockingQueue.q (queue s) = [] ∧
  BlockingQueue.stopped (queue s) = true ∧
  in_flight s = [] ∧
  submitted s = pushes prog ∧
  applied s ≡ₚ pushes prog.
Proof.
  intros Hn [Hw Hst Hc Hd Hj Hp] HD Hfin. unfold finished in Hfin.
  pose proof (Hp _ Hfin) as Hsub. simpl in Hsub. rewrite app_nil_r in Hsub.
  destruct HD as [(pu & Hmain & _)|(k & Hk & Hmain & Hs & Hjn & Hq)].
  { rewrite Hmain in Hfin. unfold drain_prog in Hfin. by destruct pu. }
  rewrite Hmain in Hfin. injection Hfin as Hseq.
  assert (k = n) as ->.
  { destruct (n - k) as [|d] eqn:Hd'; [lia|done]. }
  assert (Hall : Forall (fun th => body th = WReturned ∧ joinable th = false)
                   (workers s)).
  { rewrite Forall_lookup. intros i th Hi.
    assert (joinable th = false) as Hf.
    { rewrite (Hjn _ _ Hi). apply bool_decide_eq_false_2.
      apply lookup_lt_Some in Hi. lia. }
    split; [|done]. rewrite Forall_lookup in Hj. by apply (Hj _ _ Hi). }
  assert (Hempty : BlockingQueue.q (queue s) = []).
  { destruct (workers s) as [|th ws] eqn:Hws; [simpl in Hw; lia|].
    apply Forall_cons in Hq as [Hq _]. apply Forall_cons in Hall as [[Hb _] _].
    by apply Hq. }
  assert (Hfl : in_flight s = []).
  { unfold in_flight. clear -Hall. induction Hall as [|th ws [Hb _] _ IH]; [done|].
    simpl. unfold held at 1. by rewrite Hb. }
  split_and!; try done.
  rewrite Hfl, Hempty, !app_nil_r in Hc. by rewrite <- Hc, Hsub.
Qed.

End Facts.

(** *** The entry of one key after a sequence of requests *)

Lemma flat_final k rs (m : gmap string string) :
  Flat.get k (Flat.exec_all rs m).1 = Flat.final k rs (m !! k).
Proof.
  revert m. induction rs as [|r rs IH]; intros m; simpl; [done|].
  destruct (Flat.exec r m) as [m1 rep] eqn:He. specialize (IH m1).
  destruct (Flat.exec_all rs m1) as [m2 reps]. simpl in *. rewrite IH.
  f_equal. unfold Flat.exec in He. unfold Flat.writes, Flat.written.
  destruct (type r) eqn:Ht; injection He as <- _; simpl.
  - by rewrite andb_false_r.
  - rewrite andb_true_r. unfold Flat.set. case_bool_decide as Hk.
    + subst k. by rewrite lookup_insert_eq.
    + by rewrite lookup_insert_ne.
  - rewrite andb_true_r, KVStoreFacts.flat_del_delete. case_bool_decide as Hk.
    + subst k. by rewrite lookup_delete_eq.
    + by rewrite lookup_delete_ne.
Qed.

(** If every write on [k] writes [v] and there is one (or [v] is there
    already), the entry ends as [v]. *)
Lemma final_only_value k v rs cur :
  Forall (fun r => Flat.writes k r = true → Flat.written r = Some v) rs →
  cur = Some v ∨ Exists (fun r => Flat.writes k r = true) rs →
  Flat.final k rs cur = Some v.
Proof.
  intros Hall. revert cur. induction Hall as [|r rs Hr _ IH]; intros cur Hcur.
  - destruct Hcur as [->|Hex]; [done|]. by apply Exists_nil in Hex.
  - simpl. apply IH. destruct (Flat.writes k r) eqn:Hw.
    + left. by apply Hr.
    + destruct Hcur as [->|Hex]; [by left|]. right.
      apply Exists_cons in Hex as [Hex|Hex]; [congruence|done].
Qed.

(** If every write on [k] deletes or writes [v], the entry ends absent or
    as [v]. *)
Lemma final_absent_or_value k v rs cur :
  Forall (fun r => Flat.writes k r = true →
                   Flat.written r = None ∨ Flat.written r = Some v) rs →
  cur = None ∨ cur = Some v →
  Flat.final k rs cur = None ∨ Flat.final k rs cur = Some v.
Proof.
  intros Hall. revert cur. induction Hall as [|r rs Hr _ IH]; intros cur Hcur.
  - done.
  - simpl. apply IH. destruct (Flat.writes k r); [by apply Hr|done].
Qed.

(** *** Progress and termination

    A weight that every step lowers: what the owner still has to run, what
    is queued, and how far each worker is from the next [pop].  A queued
    request outweighs the steps a worker spends on it, and a request still
    to be submitted outweighs a queued one. *)

Section Progress.
Variable hash : string → N.

Lemma log_line_length i r rep : length (log_line i r rep) ≤ 7.
Proof. unfold log_line. destruct (type r), rep as [[v|]|]; simpl; lia. Qed.

Lemma Step_weight t s s' : Step hash t s s' → weight s' < weight s.
Proof.
  intros HS. unfold weight.
  destruct HS as [s r todo Hm|s todo Hm|s i todo Hm Hi|s i todo th Hm Hi Hjn
                 |s i th Hi Hb Hs Hq|s i th r rest Hi Hb Hq
                 |s i th r kv' rep Hi Hb He|s i th r Hi Hb He
                 |s i th c cs Hi Hb|s i th Hi Hb]; simpl;
    try rewrite Hm; simpl; rewrite ?length_app; simpl;
    try lia;
    try (pose proof (SumFacts.sum_list_insert (fun th => worker_weight (body th))
                       _ _ _ (mkThread WReturned false) Hi) as Hsum;
         simpl in Hsum; lia).
  - pose proof (SumFacts.sum_list_insert (fun th => worker_weight (body th))
                  _ _ _ (mkThread WReturned (joinable th)) Hi) as Hsum.
    simpl in Hsum. rewrite Hb in Hsum. simpl in Hsum. lia.
  - pose proof (SumFacts.sum_list_insert (fun th => worker_weight (body th))
                  _ _ _ (mkThread (WExec r) (joinable th)) Hi) as Hsum.
    simpl in Hsum. rewrite Hb in Hsum. rewrite Hq. simpl in *. lia.
  - pose proof (SumFacts.sum_list_insert (fun th => worker_weight (body th))
                  _ _ _ (mkThread (WPrint (log_line i r rep)) (joinable th)) Hi)
      as Hsum.
    simpl in Hsum. rewrite Hb in Hsum. simpl in Hsum.
    pose proof (log_line_length i r rep). lia.
  - pose proof (SumFacts.sum_list_insert (fun th => worker_weight (body th))
                  _ _ _ (mkThread WUndefined (joinable th)) Hi) as Hsum.
    simpl in Hsum. rewrite Hb in Hsum. simpl in Hsum. lia.
  - pose proof (SumFacts.sum_list_insert (fun th => worker_weight (body th))
                  _ _ _ (mkThread (WPrint cs) (joinable th)) Hi) as Hsum.
    simpl in Hsum. rewrite Hb in Hsum. simpl in Hsum. lia.
  - pose proof (SumFacts.sum_list_insert (fun th => worker_weight (body th))
                  _ _ _ (mkThread WPop (joinable th)) Hi) as Hsum.
    simpl in Hsum. rewrite Hb in Hsum. simpl in Hsum. lia.
Qed.

(** No deadlock: while the owner of a submit-then-shutdown program has not
    finished, some thread can take a step. *)
Lemma drain_progress n prog s :
  Inv hash n prog s → Drain n s → ¬ finished s →
  ∃ t s', step hash t s = Some s'.
Proof.
  intros [Hw _ _ Hd _ _] HD Hnf.
  destruct HD as [(pu & Hmain & _)|(k & Hk & Hmain & Hs & Hjn & _)].
  { exists TMain. simpl. unfold step_main. rewrite Hmain.
    destruct pu as [|r pu]; simpl; by eexists. }
  destruct (n - k) as [|d] eqn:Hd'.
  { exfalso. apply Hnf. unfold finished. by rewrite Hmain. }
  destruct (lookup_lt_is_Some_2 (workers s) k) as [th Hth]; [lia|].
  pose proof (Hjn _ _ Hth) as Hjo.
  rewrite bool_decide_eq_true_2 in Hjo by lia.
  rewrite Forall_lookup in Hd. specialize (Hd _ _ Hth). simpl in Hd.
  destruct (body th) as [|r|cs| |] eqn:Hb; [| | | |done].
  - exists (TWorker k). simpl. unfold step_worker. rewrite Hth, Hb.
    destruct (BlockingQueue.pop (queue s)) as [| |r bq'] eqn:Hpop;
      [|by eexists|by eexists].
    apply BlockingQueueFacts.pop_wait_iff in Hpop as [Hs' _]. congruence.
  - exists (TWorker k). simpl. unfold step_worker. rewrite Hth, Hb.
    destruct (KVStore.exec hash r (kv s)) as [[kv' rep]|]; by eexists.
  - exists (TWorker k). simpl. unfold step_worker. rewrite Hth, Hb.
    destruct cs; by eexists.
  - exists TMain. simpl. unfold step_main. rewrite Hmain. simpl.
    rewrite Hth, Hjo, Hb. by eexists.
Qed.

(** Termination: shutdown returns.  From every state such a program
    reaches there is a continuation, no longer than the weight of the
    state, that brings the owner to the end of [shutdown]. *)
Lemma drain_returns n prog s :
  Inv hash n prog s → Drain n s →
  ∃ ext, length ext ≤ weight s ∧ finished (run hash ext s).
Proof.
  remember (weight s) as w eqn:Hw. revert s Hw.
  induction (lt_wf w) as [w _ IH]. intros s -> HI HD.
  assert (finished s ∨ ¬ finished s) as [Hfin|Hnf].
  { unfold finished. destruct (main s) as [[|i todo]|]; [by left|by right..]. }
  { exists []. split; [simpl; lia|done]. }
  destruct (drain_progress n prog s HI HD Hnf) as (t & s' & Hstep).
  pose proof (step_Step hash _ _ _ Hstep) as HS.
  destruct (IH (weight s') (Step_weight _ _ _ HS) s' eq_refl
              (Inv_step hash _ _ _ _ _ HI HS) (Drain_step hash _ _ _ _ HD HS))
    as (ext & Hlen & Hfin).
  exists (t :: ext). split.
  - simpl. pose proof (Step_weight _ _ _ HS). lia.
  - simpl. by rewrite Hstep.
Qed.

End Progress.

(** *** After the workers have returned

    Once every worker has left its loop, only the owner moves. *)

Section Quiescent.
Variable hash : string → N.

Lemma returned_worker_stuck i s :
  all_returned s → step hash (TWorker i) s = None.
Proof.
  intros Hall. simpl. unfold step_worker.
  destruct (workers s !! i) as [th|] eqn:Hi; [|done].
  unfold all_returned in Hall. rewrite Forall_lookup in Hall.
  by rewrite (Hall _ _ Hi).
Qed.

(** What a run can change once all workers have returned: the owner moves
    on, the queue grows by what it submits, nothing reaches the store. *)
Lemma returned_run sched s :
  all_returned s →
  all_returned (run hash sched s) ∧
  kv (run hash sched s) = kv s ∧
  applied (run hash sched s) = applied s ∧
  out (run hash sched s) = out s ∧
  ∃ more,
    BlockingQueue.q (queue (run hash sched s))
      = BlockingQueue.q (queue s) ++ more ∧
    submitted (run hash sched s) = submitted s ++ more.
Proof.
  revert s. induction sched as [|t sched IH]; intros s Hall; simpl.
  { split_and!; try done. exists []. by rewrite !app_nil_r. }
  destruct (step hash t s) as [s'|] eqn:Hs; simpl; [|by apply IH].
  destruct t as [|i]; [|by rewrite returned_worker_stuck in Hs].
  apply step_Step in Hs.
  inversion Hs as [s0 r todo Hm|s0 todo Hm|s0 i todo Hm Hi
                  |s0 i todo th Hm Hi Hjn| | | | | |]; subst.
  all: match goal with
       | |- context [run hash _ ?s1] =>
           destruct (IH s1) as (H1 & H2 & H3 & H4 & more & H5 & H6);
           [unfold all_returned; simpl; try done; by apply Forall_insert|]
       end.
  all: simpl in *; split_and!; try done.
  - exists (r :: more). rewrite H5, H6. by rewrite <- !app_assoc.
  - by exists more.
  - by exists more.
  - by exists more.
Qed.

Lemma shutdown_again_run n todo sched s :
  0 < n → length (workers s) = n →
  Forall (fun th => body th = WReturned ∧ joinable th = false) (workers s) →
  main s = MRun (instrs n Shutdown ++ todo) →
  run hash sched s = shutdown_again n todo s (main_steps sched).
Proof.
  intros Hn Hlen Hall Hmain.
  assert (Hret : all_returned s).
  { eapply Forall_impl; [exact Hall|]. by intros th [? _]. }
  assert (H0 : ∃ th ws, workers s = th :: ws ∧ joinable th = false).
  { destruct (workers s) as [|th ws]; [simpl in Hlen; lia|].
    apply Forall_cons in Hall as [[_ Hj] _]. by exists th, ws. }
  destruct H0 as (th & ws & Hws & Hj).
  assert (Hseq : map IJoin (seq 0 n) = IJoin 0 :: map IJoin (seq 1 (n - 1))).
  { destruct n; [lia|]. simpl. by rewrite Nat.sub_0_r. }
  (* phase 2: the exception has been raised *)
  assert (P2 : ∀ sched',
    run hash sched'
      (mkState (BlockingQueue.shutdown (queue s)) (kv s) (workers s)
         MThrew (out s) (submitted s) (applied s))
    = mkState (BlockingQueue.shutdown (queue s)) (kv s) (workers s)
        MThrew (out s) (submitted s) (applied s)).
  { induction sched' as [|t sched' IH]; [done|]. simpl.
    destruct t as [|i]; [done|]. by rewrite returned_worker_stuck. }
  (* phase 1: the queue call is done, the first join is next *)
  assert (P1 : ∀ sched',
    run hash sched'
      (mkState (BlockingQueue.shutdown (queue s)) (kv s) (workers s)
         (MRun (map IJoin (seq 0 n) ++ todo)) (out s) (submitted s) (applied s))
    = shutdown_again n todo s (S (main_steps sched'))).
  { induction sched' as [|t sched' IH]; [done|]. simpl run.
    destruct t as [|i].
    - simpl step. unfold step_main. simpl main. rewrite Hseq. simpl.
      rewrite Hws. simpl. rewrite Hj. simpl. rewrite <- Hws. apply P2.
    - rewrite returned_worker_stuck by done. apply IH. }
  (* phase 0: the call has not started *)
  induction sched as [|t sched IH]; [done|]. simpl run.
  destruct t as [|i].
  - simpl step. unfold step_main. rewrite Hmain. simpl. apply P1.
  - rewrite returned_worker_stuck by done. apply IH.
Qed.

End Quiescent.

Section Drain.
Variable hash : string → N.

(** Drain on shutdown, for any workload, any positive number of shards and
    any positive number of workers. *)
Lemma drain_general shardCount n rs sched s :
  0 < shardCount → 0 < n →
  s = run hash sched (init shardCount n (map Submit rs ++ [Shutdown])) →
  finished s →
  submitted s = rs ∧
  applied s ≡ₚ rs ∧
  in_flight s = [] ∧
  BlockingQueue.q (queue s) = [] ∧
  BlockingQueue.stopped (queue s) = true ∧
  Forall (fun th => body th = WReturned ∧ joinable th = false) (workers s) ∧
  ∀ k, KVStore.get hash k (kv s) = Some (Flat.final k (applied s) None).
Proof.
  intros Hsc Hn -> Hfin.
  pose proof (Inv_run hash n _ sched _
                (Inv_init hash shardCount n (map Submit rs ++ [Shutdown]) Hsc))
    as HI.
  pose proof (Drain_run hash n sched _ (Drain_init shardCount n rs)) as HD.
  destruct (drain_finished hash n _ _ Hn HI HD Hfin)
    as (Hall & Hq & Hs & Hfl & Hsub & Happ).
  rewrite compile_drain, pushes_drain in Hsub, Happ.
  split_and!; try done.
  intros k. destruct (inv_store _ _ _ _ HI) as [_ Hget].
  pose proof (flat_final k (applied (run hash sched
                 (init shardCount n (map Submit rs ++ [Shutdown])))) ∅) as HF.
  rewrite lookup_empty in HF. by rewrite Hget, <- HF.
Qed.

(** Such a program always comes to the end of [shutdown]: no state it
    reaches is a deadlock, and each has a continuation that finishes. *)
Lemma drain_general_returns shardCount n rs sched s :
  0 < shardCount →
  s = run hash sched (init shardCount n (map Submit rs ++ [Shutdown])) →
  (¬ finished s → ∃ t s', step hash t s = Some s') ∧
  (∃ ext, length ext ≤ weight s ∧ finished (run hash ext s)).
Proof.
  intros Hsc ->.
  pose proof (Inv_run hash n _ sched _
                (Inv_init hash shardCount n (map Submit rs ++ [Shutdown]) Hsc))
    as HI.
  pose proof (Drain_run hash n sched _ (Drain_init shardCount n rs)) as HD.
  split.
  - by eapply drain_progress.
  - by eapply drain_returns.
Qed.

(** C1, amended (drain on shutdown, the workload of [main]).  Whatever the
    hash and the schedule: no state of the run is a deadlock and [shutdown]
    can always run to its end; and when [shutdown] has returned, the six
    requests were all submitted, each has been applied to the store exactly
    once (in some order), none is queued or held by a worker, both workers
    have returned and are joined; every key holds what the last write
    applied to it left; [get "b"] is ["2"]; and [get "a"] is absent or
    ["1"]. *)
Theorem drain_on_shutdown sched s :
  s = run hash sched main_init →
  (¬ finished s → ∃ t s', step hash t s = Some s') ∧
  (∃ ext, finished (run hash ext s)) ∧
  (finished s →
  submitted s = main_requests ∧
  applied s ≡ₚ main_requests ∧
  in_flight s = [] ∧
  BlockingQueue.q (queue s) = [] ∧
  Forall (fun th => body th = WReturned ∧ joinable th = false) (workers s) ∧
  (∀ k, KVStore.get hash k (kv s) = Some (Flat.final k (applied s) None)) ∧
  KVStore.get hash "b" (kv s) = Some (Some "2") ∧
  (KVStore.get hash "a" (kv s) = Some None ∨
   KVStore.get hash "a" (kv s) = Some (Some "1"))).
Proof.
  intros Hs.
  destruct (drain_general_returns NUM_SHARDS NUM_WORKERS main_requests sched s)
    as (Hprog & ext & _ & Hext); [unfold NUM_SHARDS; lia|done|].
  split; [done|]. split; [by exists ext|]. intros Hfin.
  destruct (drain_general NUM_SHARDS NUM_WORKERS main_requests sched s)
    as (Hsub & Happ & Hfl & Hq & _ & Hall & Hget);
    [unfold NUM_SHARDS; lia|unfold NUM_WORKERS; lia|done|done|].
  split_and!; try done.
  - rewrite Hget. f_equal. apply final_only_value.
    + rewrite Happ. unfold main_requests.
      repeat (apply Forall_cons; split); try (by apply Forall_nil);
        vm_compute; intros Hw; try discriminate Hw; done.
    + right. rewrite Happ. unfold main_requests.
      apply Exists_cons_tl, Exists_cons_hd. done.
  - rewrite Hget.
    destruct (final_absent_or_value "a" "1" (applied s) None) as [->| ->];
      [|by left|by left|by right].
    rewrite Happ. unfold main_requests.
    repeat (apply Forall_cons; split); try (by apply Forall_nil);
      vm_compute; intros Hw; try discriminate Hw; [by right|by left].
Qed.

End Drain.

Lemma drain_on_shutdown_witness :
  (¬ finished (run fnv1a calm_schedule main_init) →
   ∃ t s', step fnv1a t (run fnv1a calm_schedule main_init) = Some s') ∧
  (∃ ext, finished (run fnv1a ext (run fnv1a calm_schedule main_init))) ∧
  (finished (run fnv1a calm_schedule main_init) →
  submitted (run fnv1a calm_schedule main_init) = main_requests ∧
  applied (run fnv1a calm_schedule main_init) ≡ₚ main_requests ∧
  in_flight (run fnv1a calm_schedule main_init) = [] ∧
  BlockingQueue.q (queue (run fnv1a calm_schedule main_init)) = [] ∧
  Forall (fun th => body th = WReturned ∧ joinable th = false)
    (workers (run fnv1a calm_schedule main_init)) ∧
  (∀ k, KVStore.get fnv1a k (kv (run fnv1a calm_schedule main_init))
        = Some (Flat.final k (applied (run fnv1a calm_schedule main_init)) None)) ∧
  KVStore.get fnv1a "b" (kv (run fnv1a calm_schedule main_init))
    = Some (Some "2") ∧
  (KVStore.get fnv1a "a" (kv (run fnv1a calm_schedule main_init)) = Some None ∨
   KVStore.get fnv1a "a" (kv (run fnv1a calm_schedule main_init))
     = Some (Some "1"))).
Proof.
  apply (drain_on_shutdown fnv1a calm_schedule
           (run fnv1a calm_schedule main_init)).
  reflexivity.
Defined.

(** Under [calm_schedule] the owner of [main] does come to the end of
    [shutdown], with ["a"] absent. *)
Lemma calm_schedule_finishes :
  finished (run fnv1a calm_schedule main_init) ∧
  KVStore.get fnv1a "a" (kv (run fnv1a calm_schedule main_init)) = Some None.
Proof. split; vm_compute; reflexivity. Qed.

(** *** One worker

    A pool with a single worker applies the requests in the order in which
    they were submitted. *)

Lemma serial_step hash n prog t s s' :
  Inv hash n prog s →
  length (workers s) = 1 → serial s → Step hash t s s' → serial s'.
Proof.
  unfold serial, in_flight. intros HI Hlen Hser HS.
  pose proof (inv_store _ _ _ _ HI) as Hsh.
  destruct HS as [s r todo Hm|s todo Hm|s i todo Hm Hi|s i todo th Hm Hi Hjn
                 |s i th Hi Hb Hs Hq|s i th r rest Hi Hb Hq
                 |s i th r kv' rep Hi Hb He|s i th r Hi Hb He
                 |s i th c cs Hi Hb|s i th Hi Hb]; simpl; try done.
  1: by rewrite Hser, !app_assoc.
  all: destruct (workers s) as [|th0 [|th1 ws]] eqn:Hws; try done;
       destruct i as [|i]; try done; simpl in Hi; injection Hi as ->;
       simpl in *; unfold held in *; simpl; rewrite ?Hb in Hser;
       simpl in *; rewrite ?app_nil_r in *; try done.
  - by rewrite Hser, Hq.
  - by rewrite Hser, <- app_assoc.
  - destruct (KVStoreFacts.exec_shows hash r _ _ Hsh) as (k1 & He1 & _).
    congruence.
Qed.

Lemma serial_run hash n prog sched s :
  Inv hash n prog s →
  length (workers s) = 1 → serial s →
  serial (run hash sched s) ∧ length (workers (run hash sched s)) = 1.
Proof.
  revert s. induction sched as [|t sched IH]; intros s HI Hlen Hser; simpl;
    [done|].
  destruct (step hash t s) as [s'|] eqn:Hs; simpl; [|by apply IH].
  apply step_Step in Hs. apply IH.
  - by eapply Inv_step.
  - destruct Hs; simpl; rewrite ?length_insert; done.
  - by eapply serial_step.
Qed.

(** With one worker, when [shutdown] has returned the requests have been
    applied in the order of submission; for the requests of [main],
    [get "a"] is then absent. *)
Lemma single_worker_order hash shardCount rs sched s :
  0 < shardCount →
  s = run hash sched (init shardCount 1 (map Submit rs ++ [Shutdown])) →
  finished s →
  applied s = rs ∧
  (rs = main_requests → KVStore.get hash "a" (kv s) = Some None).
Proof.
  intros Hsc Hs Hfin.
  destruct (drain_general hash shardCount 1 rs sched s Hsc) as
    (Hsub & _ & Hfl & Hq & _ & _ & Hget); [lia|done|done|].
  destruct (serial_run hash 1 _ sched _
              (Inv_init hash shardCount 1 (map Submit rs ++ [Shutdown]) Hsc))
    as [Hser _]; [done|done|].
  rewrite <- Hs in Hser. unfold serial in Hser.
  rewrite Hfl, Hq, !app_nil_r, Hsub in Hser.
  split; [done|]. intros ->. by rewrite Hget, <- Hser.
Qed.

(** *** The hash does not matter

    Two pools that differ only in the hash of their stores take the same
    steps under the same schedule: the hash decides where a key is kept,
    never what a [get] returns. *)

Lemma step_any_hash h1 h2 n prog t s1 s2 :
  Inv h1 n prog s1 → Inv h2 n prog s2 → same_but_store s1 s2 →
  match step h1 t s1, step h2 t s2 with
  | Some s1', Some s2' => same_but_store s1' s2'
  | None, None => True
  | _, _ => False
  end.
Proof.
  intros HI1 HI2 (Hq & Hw & Hm & Ho & Hs & Ha).
  pose proof (inv_store _ _ _ _ HI1) as Hsh1.
  pose proof (inv_store _ _ _ _ HI2) as Hsh2.
  destruct s1 as [q1 kv1 w1 m1 o1 su1 a1], s2 as [q2 kv2 w2 m2 o2 su2 a2].
  simpl in *. subst q2 w2 m2 o2 su2 a2.
  destruct t as [|i]; simpl.
  - unfold step_main. simpl.
    destruct m1 as [[|[r| |i] todo]|]; simpl; try done.
    destruct (w1 !! i) as [[b j]|]; simpl; [|done].
    destruct j; [destruct b|]; done.
  - unfold step_worker. simpl.
    destruct (w1 !! i) as [th|] eqn:Hi; [|done].
    destruct (body th) as [|r|[|c cs]| |] eqn:Hb; try done.
    + destruct (BlockingQueue.pop q1) as [| |r bq']; [done| |];
        unfold with_worker; simpl; rewrite Hi; done.
    + destruct (KVStoreFacts.exec_shows h1 r _ _ Hsh1) as (k1 & -> & _).
      destruct (KVStoreFacts.exec_shows h2 r _ _ Hsh2) as (k2 & -> & _).
      unfold with_worker; simpl; rewrite Hi; done.
    + unfold with_worker; simpl; rewrite Hi; done.
    + unfold with_worker; simpl; rewrite Hi; done.
Qed.

Lemma run_any_hash h1 h2 n prog sched s1 s2 :
  Inv h1 n prog s1 → Inv h2 n prog s2 → same_but_store s1 s2 →
  same_but_store (run h1 sched s1) (run h2 sched s2).
Proof.
  revert s1 s2. induction sched as [|t sched IH]; intros s1 s2 HI1 HI2 Hsim;
    simpl; [done|].
  pose proof (step_any_hash h1 h2 n prog t s1 s2 HI1 HI2 Hsim) as Hstep.
  destruct (step h1 t s1) as [s1'|] eqn:H1, (step h2 t s2) as [s2'|] eqn:H2;
    try done; simpl.
  - apply IH; [| |done].
    + eapply Inv_step; [exact HI1|]. by apply step_Step.
    + eapply Inv_step; [exact HI2|]. by apply step_Step.
  - by apply IH.
Qed.

(** The race of [racy_schedule] is there whatever the hash. *)
Lemma race_for_every_hash hash :
  finished (run hash racy_schedule main_init) ∧
  KVStore.get hash "a" (kv (run hash racy_schedule main_init))
    = Some (Some "1").
Proof.
  assert (0 < NUM_SHARDS) as Hsc by (unfold NUM_SHARDS; lia).
  pose proof (Inv_init hash NUM_SHARDS NUM_WORKERS main_calls Hsc) as HI.
  pose proof (Inv_init fnv1a NUM_SHARDS NUM_WORKERS main_calls Hsc) as HI'.
  pose proof (run_any_hash hash fnv1a _ _ racy_schedule _ _ HI HI'
                (conj eq_refl (conj eq_refl (conj eq_refl
                   (conj eq_refl (conj eq_refl eq_refl))))))
    as (_ & _ & Hm & _ & _ & Ha).
  fold main_init in Hm, Ha. split.
  - unfold finished. rewrite Hm. vm_compute. reflexivity.
  - pose proof (Inv_run hash _ _ racy_schedule _ HI) as HR.
    destruct (inv_store _ _ _ _ HR) as [_ Hget].
    fold main_init in Hget. rewrite Hget, Ha. vm_compute. reflexivity.
Qed.

(** C1 as stated fails: under [racy_schedule] every request is applied and
    [shutdown] returns, yet [get "a"] is ["1"], not absent. *)
Lemma drain_final_state_counterexample :
  finished (run fnv1a racy_schedule main_init) ∧
  applied (run fnv1a racy_schedule main_init) =
    [ mkRequest SET "b" "2"; mkRequest GET "a" ""; mkRequest DEL "a" "";
      mkRequest GET "a" ""; mkRequest GET "b" ""; mkRequest SET "a" "1" ] ∧
  KVStore.get fnv1a "a" (kv (run fnv1a racy_schedule main_init))
    = Some (Some "1").
Proof. vm_compute. done. Qed.

Section Rejections.
Variable hash : string → N.

(** C6, amended (a second shutdown).  [BlockingQueue::shutdown] is
    idempotent.  A second [ThreadPool::shutdown] on a pool with at least
    one worker, all joined by the first call, changes neither the store nor
    the workers nor the contents of the queue, which stays stopped, and it
    never waits: its first step repeats [queue.shutdown()], its second step
    is [join] on the first worker, whose handle is no longer joinable, so
    the call throws [std::system_error] and does not return. *)
Theorem shutdown_twice n todo sched s :
  0 < n → length (workers s) = n →
  Forall (fun th => body th = WReturned ∧ joinable th = false) (workers s) →
  main s = MRun (instrs n Shutdown ++ todo) →
  (∀ bq : BlockingQueue.t Request,
     BlockingQueue.shutdown (BlockingQueue.shutdown bq)
       = BlockingQueue.shutdown bq) ∧
  run hash sched s = shutdown_again n todo s (main_steps sched) ∧
  kv (run hash sched s) = kv s ∧
  workers (run hash sched s) = workers s ∧
  BlockingQueue.q (queue (run hash sched s)) = BlockingQueue.q (queue s) ∧
  (1 ≤ main_steps sched →
   BlockingQueue.stopped (queue (run hash sched s)) = true) ∧
  (2 ≤ main_steps sched → main (run hash sched s) = MThrew) ∧
  ¬ finished (run hash sched s).
Proof.
  intros Hn Hlen Hall Hmain.
  rewrite (shutdown_again_run hash n todo sched s Hn Hlen Hall Hmain).
  split; [done|]. split; [done|].
  destruct (main_steps sched) as [|[|k]]; simpl; split_and!; try done; try lia.
  - unfold finished. rewrite Hmain. done.
  - unfold finished. simpl. destruct n; [lia|done].
Qed.

(** C8, amended (submit after shutdown).  A [submit] made when every
    worker has returned is not rejected: the call returns normally and the
    request is appended to the queue.  Whatever runs afterwards, the request
    stays queued and never reaches the store. *)
Theorem submit_after_shutdown r todo sched s :
  all_returned s →
  main s = MRun (IPush r :: todo) →
  ∃ s1,
    step hash TMain s = Some s1 ∧
    main s1 = MRun todo ∧
    BlockingQueue.q (queue s1) = BlockingQueue.q (queue s) ++ [r] ∧
    kv (run hash sched s1) = kv s ∧
    applied (run hash sched s1) = applied s ∧
    ∃ more,
      BlockingQueue.q (queue (run hash sched s1))
        = BlockingQueue.q (queue s) ++ r :: more.
Proof.
  intros Hall Hmain. simpl. unfold step_main. rewrite Hmain.
  eexists. split; [done|]. simpl. split; [done|]. split; [done|].
  match goal with
  | |- context [run hash sched ?s1] =>
      destruct (returned_run hash sched s1 Hall)
        as (_ & Hkv & Happ & _ & more & Hq & _)
  end.
  simpl in *. split_and!; try done.
  exists more. by rewrite Hq, <- app_assoc.
Qed.

(** C7, amended (empty keys).  [submit] does not look at the key: a request
    with the empty key is enqueued by the first step of the owner, and when
    [shutdown] has returned it has been applied to the store, where the
    empty key then holds what the request wrote. *)
Theorem empty_key_accepted shardCount n r sched s :
  key r = "" →
  0 < shardCount → 0 < n →
  s = run hash sched (init shardCount n [Submit r; Shutdown]) →
  BlockingQueue.q
    (queue (run hash [TMain] (init shardCount n [Submit r; Shutdown]))) = [r] ∧
  (finished s →
   applied s = [r] ∧
   KVStore.get hash "" (kv s) = Some (Flat.written r)).
Proof.
  intros Hkey Hsc Hn Hs. split; [done|]. intros Hfin.
  destruct (drain_general hash shardCount n [r] sched s Hsc Hn Hs Hfin)
    as (_ & Happ & _ & _ & _ & _ & Hget).
  apply Permutation_singleton_r in Happ.
  split; [done|]. rewrite Hget, Happ. simpl.
  unfold Flat.writes, Flat.written. rewrite Hkey.
  rewrite bool_decide_eq_true_2 by done. by destruct (type r).
Qed.

End Rejections.

Lemma shutdown_twice_witness :
  (∀ bq : BlockingQueue.t Request,
     BlockingQueue.shutdown (BlockingQueue.shutdown bq)
       = BlockingQueue.shutdown bq) ∧
  run fnv1a [TMain; TWorker 0; TMain]
    (run fnv1a calm_schedule
       (init NUM_SHARDS NUM_WORKERS (main_calls ++ [Shutdown])))
  = shutdown_again 2 []
      (run fnv1a calm_schedule
         (init NUM_SHARDS NUM_WORKERS (main_calls ++ [Shutdown])))
      (main_steps [TMain; TWorker 0; TMain]) ∧
  kv (run fnv1a [TMain; TWorker 0; TMain]
        (run fnv1a calm_schedule
           (init NUM_SHARDS NUM_WORKERS (main_calls ++ [Shutdown]))))
  = kv (run fnv1a calm_schedule
          (init NUM_SHARDS NUM_WORKERS (main_calls ++ [Shutdown]))) ∧
  workers (run fnv1a [TMain; TWorker 0; TMain]
             (run fnv1a calm_schedule
                (init NUM_SHARDS NUM_WORKERS (main_calls ++ [Shutdown]))))
  = workers (run fnv1a calm_schedule
               (init NUM_SHARDS NUM_WORKERS (main_calls ++ [Shutdown]))) ∧
  BlockingQueue.q
    (queue (run fnv1a [TMain; TWorker 0; TMain]
              (run fnv1a calm_schedule
                 (init NUM_SHARDS NUM_WORKERS (main_calls ++ [Shutdown])))))
  = BlockingQueue.q
      (queue (run fnv1a calm_schedule
                (init NUM_SHARDS NUM_WORKERS (main_calls ++ [Shutdown])))) ∧
  (1 ≤ main_steps [TMain; TWorker 0; TMain] →
   BlockingQueue.stopped
     (queue (run fnv1a [TMain; TWorker 0; TMain]
               (run fnv1a calm_schedule
                  (init NUM_SHARDS NUM_WORKERS (main_calls ++ [Shutdown])))))
   = true) ∧
  (2 ≤ main_steps [TMain; TWorker 0; TMain] →
   main (run fnv1a [TMain; TWorker 0; TMain]
           (run fnv1a calm_schedule
              (init NUM_SHARDS NUM_WORKERS (main_calls ++ [Shutdown]))))
   = MThrew) ∧
  ¬ finished
      (run fnv1a [TMain; TWorker 0; TMain]
         (run fnv1a calm_schedule
            (init NUM_SHARDS NUM_WORKERS (main_calls ++ [Shutdown])))).
Proof.
  apply (shutdown_twice fnv1a 2 [] [TMain; TWorker 0; TMain]
           (run fnv1a calm_schedule
              (init NUM_SHARDS NUM_WORKERS (main_calls ++ [Shutdown])))).
  - lia.
  - vm_compute. reflexivity.
  - vm_compute. repeat constructor.
  - vm_compute. reflexivity.
Defined.

(** C6 as stated fails: in [main] followed by a second [shutdown], the
    second call throws. *)
Lemma shutdown_twice_counterexample :
  main (run fnv1a calm_schedule
          (init NUM_SHARDS NUM_WORKERS (main_calls ++ [Shutdown])))
    = MRun (instrs NUM_WORKERS Shutdown) ∧
  main (run fnv1a (calm_schedule ++ [TMain; TMain])
          (init NUM_SHARDS NUM_WORKERS (main_calls ++ [Shutdown])))
    = MThrew.
Proof. split; vm_compute; reflexivity. Qed.

Lemma submit_after_shutdown_witness :
  ∃ s1,
    step fnv1a TMain
      (run fnv1a calm_schedule
         (init NUM_SHARDS NUM_WORKERS
            (main_calls ++ [Submit (mkRequest SET "c" "3")]))) = Some s1 ∧
    main s1 = MRun [] ∧
    BlockingQueue.q (queue s1)
    = BlockingQueue.q
        (queue (run fnv1a calm_schedule
                  (init NUM_SHARDS NUM_WORKERS
                     (main_calls ++ [Submit (mkRequest SET "c" "3")]))))
      ++ [mkRequest SET "c" "3"] ∧
    kv (run fnv1a [TWorker 0; TWorker 1; TMain] s1)
    = kv (run fnv1a calm_schedule
            (init NUM_SHARDS NUM_WORKERS
               (main_calls ++ [Submit (mkRequest SET "c" "3")]))) ∧
    applied (run fnv1a [TWorker 0; TWorker 1; TMain] s1)
    = applied (run fnv1a calm_schedule
                 (init NUM_SHARDS NUM_WORKERS
                    (main_calls ++ [Submit (mkRequest SET "c" "3")]))) ∧
    ∃ more,
      BlockingQueue.q (queue (run fnv1a [TWorker 0; TWorker 1; TMain] s1))
      = BlockingQueue.q
          (queue (run fnv1a calm_schedule
                    (init NUM_SHARDS NUM_WORKERS
                       (main_calls ++ [Submit (mkRequest SET "c" "3")]))))
        ++ mkRequest SET "c" "3" :: more.
Proof.
  apply (submit_after_shutdown fnv1a (mkRequest SET "c" "3") []
           [TWorker 0; TWorker 1; TMain]
           (run fnv1a calm_schedule
              (init NUM_SHARDS NUM_WORKERS
                 (main_calls ++ [Submit (mkRequest SET "c" "3")])))).
  - vm_compute. repeat constructor.
  - vm_compute. reflexivity.
Defined.

(** C8 as stated fails: in [main] followed by one more [submit], the call
    returns normally, and the request is left in the queue for good; the
    store never sees it. *)
Lemma submit_after_shutdown_counterexample :
  finished
    (run fnv1a (calm_schedule ++ [TMain; TWorker 0; TWorker 1])
       (init NUM_SHARDS NUM_WORKERS
          (main_calls ++ [Submit (mkRequest SET "c" "3")]))) ∧
  BlockingQueue.q
    (queue
       (run fnv1a (calm_schedule ++ [TMain; TWorker 0; TWorker 1])
          (init NUM_SHARDS NUM_WORKERS
             (main_calls ++ [Submit (mkRequest SET "c" "3")]))))
    = [mkRequest SET "c" "3"] ∧
  KVStore.get fnv1a "c"
    (kv (run fnv1a (calm_schedule ++ [TMain; TWorker 0; TWorker 1])
           (init NUM_SHARDS NUM_WORKERS
              (main_calls ++ [Submit (mkRequest SET "c" "3")]))))
    = Some None.
Proof. split_and!; vm_compute; reflexivity. Qed.

Lemma empty_key_accepted_witness :
  BlockingQueue.q
    (queue (run fnv1a [TMain]
              (init NUM_SHARDS NUM_WORKERS
                 [Submit (mkRequest SET "" "x"); Shutdown])))
    = [mkRequest SET "" "x"] ∧
  (finished
     (run fnv1a single_schedule
        (init NUM_SHARDS NUM_WORKERS
           [Submit (mkRequest SET "" "x"); Shutdown])) →
   applied
     (run fnv1a single_schedule
        (init NUM_SHARDS NUM_WORKERS
           [Submit (mkRequest SET "" "x"); Shutdown]))
     = [mkRequest SET "" "x"] ∧
   KVStore.get fnv1a ""
     (kv (run fnv1a single_schedule
            (init NUM_SHARDS NUM_WORKERS
               [Submit (mkRequest SET "" "x"); Shutdown])))
     = Some (Flat.written (mkRequest SET "" "x"))).
Proof.
  apply (empty_key_accepted fnv1a NUM_SHARDS NUM_WORKERS
           (mkRequest SET "" "x") single_schedule
           (run fnv1a single_schedule
              (init NUM_SHARDS NUM_WORKERS
                 [Submit (mkRequest SET "" "x"); Shutdown]))).
  - reflexivity.
  - unfold NUM_SHARDS. lia.
  - unfold NUM_WORKERS. lia.
  - reflexivity.
Defined.

(** C7 as stated fails: [Get] with the empty key is enqueued by [submit],
    and a [Set] with the empty key, submitted before [shutdown], has
    changed the store when [shutdown] returns. *)
Lemma empty_key_counterexample :
  BlockingQueue.q
    (queue (run fnv1a [TMain]
              (init NUM_SHARDS NUM_WORKERS
                 [Submit (mkRequest GET "" ""); Shutdown])))
    = [mkRequest GET "" ""] ∧
  finished
    (run fnv1a single_schedule
       (init NUM_SHARDS NUM_WORKERS
          [Submit (mkRequest SET "" "x"); Shutdown])) ∧
  KVStore.get fnv1a ""
    (kv (run fnv1a single_schedule
           (init NUM_SHARDS NUM_WORKERS
              [Submit (mkRequest SET "" "x"); Shutdown])))
    = Some (Some "x").
Proof. split_and!; vm_compute; reflexivity. Qed.

End ThreadPoolFacts.

(** ** The shard under its lock *)

Module LockedShardFacts.
Import LockedShard.

Lemma step_Call t s s' : step t s = Some s' → Step t s s'.
Proof.
  unfold step. destruct (callers s !! t) as [c|] eqn:Hc; [|done].
  destruct (pc c) as [|r|r|r rep] eqn:Hpc.
  - destruct (todo c) as [|r rest] eqn:Htodo; [done|].
    destruct (acquire (mode r) (mutex s)) as [m'|] eqn:Hacq; [|done].
    intros [= <-]. by econstructor.
  - intros [= <-]. by econstructor.
  - destruct (Shard.exec r (data s)) as [d' rep] eqn:He. intros [= <-].
    replace d' with (Shard.exec r (data s)).1 by by rewrite He.
    replace rep with (Shard.exec r (data s)).2 by by rewrite He.
    by econstructor.
  - intros [= <-]. by econstructor.
Qed.

Lemma shared_count_eq p td rp :
  shared_count (mkCaller p td rp) =
  match p with
  | PIdle => 0
  | PLocked r | PAccess r | PDone r _ =>
      match mode r with Shared => 1 | Exclusive => 0 end
  end.
Proof. by destruct p. Qed.

Lemma exclusive_count_eq p td rp :
  exclusive_count (mkCaller p td rp) =
  match p with
  | PIdle => 0
  | PLocked r | PAccess r | PDone r _ =>
      match mode r with Shared => 0 | Exclusive => 1 end
  end.
Proof. by destruct p. Qed.

Lemma counts_idle (progs : list (list Request)) :
  sum_list (map shared_count (map (fun p => mkCaller PIdle p []) progs)) = 0 ∧
  sum_list (map exclusive_count (map (fun p => mkCaller PIdle p []) progs)) = 0.
Proof. induction progs as [|p progs [IH1 IH2]]; simpl; [done|]. by split. Qed.

Lemma Locks_init d0 progs : Locks (init d0 progs).
Proof.
  destruct (counts_idle progs) as [H1 H2].
  split; simpl; by rewrite ?H1, ?H2.
Qed.

Lemma mode_writes r :
  mode r = if writes r then Exclusive else Shared.
Proof. unfold mode, writes. by destruct (type r). Qed.

Lemma writes_false r : writes r = false ↔ type r = GET.
Proof. unfold writes. by destruct (type r). Qed.

Lemma holds_inside c : holds c = mode <$> inside c.
Proof. unfold holds, inside. by destruct (pc c). Qed.

(** Two callers that are inside a call at the same time are both inside a
    call that only reads. *)
Lemma two_inside s i j ci cj ri rj :
  Locks s → i ≠ j →
  callers s !! i = Some ci → callers s !! j = Some cj →
  inside ci = Some ri → inside cj = Some rj →
  writes ri = false ∧ writes rj = false.
Proof.
  intros [Hr Hw Hx _] Hne Hi Hj Hri Hrj.
  pose proof (SumFacts.sum_list_lookup_two shared_count _ _ _ _ _ Hne Hi Hj)
    as Hs.
  pose proof (SumFacts.sum_list_lookup_two exclusive_count _ _ _ _ _ Hne Hi Hj)
    as He.
  unfold shared_count at 1 2 in Hs. unfold exclusive_count at 1 2 in He.
  rewrite !holds_inside, Hri, Hrj in Hs, He. simpl in Hs, He.
  rewrite !mode_writes in Hs, He.
  destruct (SharedMutex.writer (mutex s)) eqn:Hwr.
  - specialize (Hx eq_refl). destruct (writes ri), (writes rj); simpl in *;
      try done; lia.
  - destruct (writes ri), (writes rj); simpl in *; try done; lia.
Qed.

(** No caller is in the middle of a conflicting access when a caller that
    holds the lock starts its own. *)
Lemma no_conflict s t c r :
  Locks s → callers s !! t = Some c → pc c = PLocked r →
  existsb (conflicts r) (callers s) = false.
Proof.
  intros HL Hc Hpc.
  destruct (existsb (conflicts r) (callers s)) eqn:Hex; [|done].
  exfalso. apply existsb_exists in Hex as (c' & Hin & Hcf).
  apply list_elem_of_In, list_elem_of_lookup in Hin as [j Hj].
  unfold conflicts in Hcf.
  destruct (pc c') as [|r'|r'|r' rep'] eqn:Hpc'; try done.
  assert (t ≠ j) as Hne by (intros ->; congruence).
  destruct (two_inside s t j c c' r r' HL Hne Hc Hj) as [H1 H2].
  - unfold inside. by rewrite Hpc.
  - unfold inside. by rewrite Hpc'.
  - by rewrite H1, H2 in Hcf.
Qed.

Lemma Locks_step t s s' : Locks s → Step t s s' → Locks s'.
Proof.
  intros HL HS. pose proof HL as [Hr Hw Hx Hrace].
  destruct HS as [t s c r rest m' Hc Hpc Htodo Hacq|t s c r Hc Hpc
                 |t s c r Hc Hpc|t s c r rep Hc Hpc].
  - pose proof (SumFacts.sum_list_insert shared_count _ _ _
                  (mkCaller (PLocked r) rest (replies c)) Hc) as Hs.
    pose proof (SumFacts.sum_list_insert exclusive_count _ _ _
                  (mkCaller (PLocked r) rest (replies c)) Hc) as He.
    destruct c as [pcc td rp]. simpl in Hpc. subst pcc.
    repeat rewrite shared_count_eq in Hs.
    repeat rewrite exclusive_count_eq in He.
    simpl in Hs, He.
    unfold acquire, SharedMutex.lock, SharedMutex.lock_shared in Hacq.
    destruct (mode r); simpl in *.
    + destruct (SharedMutex.writer (mutex s)) eqn:Hwr; [done|].
      injection Hacq as <-. split; simpl; try done; lia.
    + destruct (SharedMutex.writer (mutex s)) eqn:Hwr; [done|].
      destruct (SharedMutex.readers (mutex s)) as [|k] eqn:Hrd; [|done].
      injection Hacq as <-. split; simpl; try done; lia.
  - pose proof (SumFacts.sum_list_insert shared_count _ _ _
                  (mkCaller (PAccess r) (todo c) (replies c)) Hc) as Hs.
    pose proof (SumFacts.sum_list_insert exclusive_count _ _ _
                  (mkCaller (PAccess r) (todo c) (replies c)) Hc) as He.
    pose proof (no_conflict _ _ _ _ HL Hc Hpc) as Hnc.
    destruct c as [pcc td rp]. simpl in Hpc. subst pcc.
    repeat rewrite shared_count_eq in Hs.
    repeat rewrite exclusive_count_eq in He.
    simpl in Hs, He.
    split; simpl; try lia.
    + intros Hwr. specialize (Hx Hwr). lia.
    + by rewrite Hrace, Hnc.
  - pose proof (SumFacts.sum_list_insert shared_count _ _ _
                  (mkCaller (PDone r (Shard.exec r (data s)).2) (todo c)
                     (replies c)) Hc) as Hs.
    pose proof (SumFacts.sum_list_insert exclusive_count _ _ _
                  (mkCaller (PDone r (Shard.exec r (data s)).2) (todo c)
                     (replies c)) Hc) as He.
    destruct c as [pcc td rp]. simpl in Hpc. subst pcc.
    repeat rewrite shared_count_eq in Hs.
    repeat rewrite exclusive_count_eq in He.
    simpl in Hs, He.
    split; simpl; try done; try lia.
    intros Hwr. specialize (Hx Hwr). lia.
  - pose proof (SumFacts.sum_list_insert shared_count _ _ _
                  (mkCaller PIdle (todo c) (replies c ++ [rep])) Hc) as Hs.
    pose proof (SumFacts.sum_list_insert exclusive_count _ _ _
                  (mkCaller PIdle (todo c) (replies c ++ [rep])) Hc) as He.
    pose proof (SumFacts.sum_list_lookup exclusive_count _ _ _ Hc) as Hle.
    pose proof (SumFacts.sum_list_lookup shared_count _ _ _ Hc) as Hle'.
    destruct c as [pcc td rp]. simpl in Hpc. subst pcc.
    repeat rewrite shared_count_eq in Hs.
    repeat rewrite exclusive_count_eq in He.
    rewrite shared_count_eq in Hle'. rewrite exclusive_count_eq in Hle.
    simpl in Hs, He, Hle, Hle'.
    unfold release, SharedMutex.unlock, SharedMutex.unlock_shared.
    destruct (mode r); simpl in *.
    + destruct (SharedMutex.writer (mutex s)) eqn:Hwr.
      * specialize (Hx eq_refl). lia.
      * split; simpl; rewrite ?Hwr; try done; lia.
    + destruct (SharedMutex.writer (mutex s)) eqn:Hwr; [|lia].
      specialize (Hx eq_refl). split; simpl; try done; lia.
Qed.

Lemma Locks_run sched s : Locks s → Locks (run sched s).
Proof.
  revert s. induction sched as [|t sched IH]; intros s HL; simpl; [done|].
  apply IH. destruct (step t s) as [s'|] eqn:Hs; simpl; [|done].
  eapply Locks_step; [done|]. by apply step_Call.
Qed.

(** *** The linearization *)

Lemma lin_requests_snoc tr e :
  lin_requests (tr ++ [e]) =
  lin_requests tr ++ match e with ELin _ _ r _ => [r] | _ => [] end.
Proof.
  induction tr as [|e' tr IH]; simpl.
  - by destruct e.
  - destruct e'; rewrite IH; done.
Qed.

Lemma lin_replies_snoc tr e :
  lin_replies (tr ++ [e]) =
  lin_replies tr ++ match e with ELin _ _ _ rep => [rep] | _ => [] end.
Proof.
  induction tr as [|e' tr IH]; simpl.
  - by destruct e.
  - destruct e'; rewrite IH; done.
Qed.

Lemma lin_requests_of_snoc t tr e :
  lin_requests_of t (tr ++ [e]) =
  lin_requests_of t tr ++
  match e with
  | ELin t' _ r _ => if decide (t' = t) then [r] else []
  | _ => []
  end.
Proof.
  induction tr as [|e' tr IH]; simpl.
  - destruct e; try done; by case_decide.
  - destruct e'; rewrite IH; try done; by case_decide.
Qed.

Lemma lin_replies_of_snoc t tr e :
  lin_replies_of t (tr ++ [e]) =
  lin_replies_of t tr ++
  match e with
  | ELin t' _ _ rep => if decide (t' = t) then [rep] else []
  | _ => []
  end.
Proof.
  induction tr as [|e' tr IH]; simpl.
  - destruct e; try done; by case_decide.
  - destruct e'; rewrite IH; try done; by case_decide.
Qed.

Lemma Linear_init d0 progs : Linear d0 progs (init d0 progs).
Proof.
  split; simpl.
  - done.
  - apply length_map.
  - intros t c Hc. rewrite list_lookup_fmap in Hc.
    destruct (progs !! t); [|done]. by injection Hc as <-.
  - intros t c Hc. rewrite list_lookup_fmap in Hc.
    destruct (progs !! t); [|done]. by injection Hc as <-.
Qed.

Lemma Linear_step d0 progs t s s' :
  Linear d0 progs s → Step t s s' → Linear d0 progs s'.
Proof.
  intros [Hd Hlen Hrec Hprog] HS.
  destruct HS as [t s c r rest m' Hc Hpc Htodo Hacq|t s c r Hc Hpc
                 |t s c r Hc Hpc|t s c r rep Hc Hpc];
    pose proof (Hrec _ _ Hc) as Hrc; pose proof (Hprog _ _ Hc) as Hpr;
    unfold pending, current in Hrc, Hpr; rewrite Hpc in Hrc, Hpr;
    simpl in Hrc, Hpr; rewrite ?app_nil_r in Hrc;
    split; simpl;
    rewrite ?length_insert, ?lin_requests_snoc, ?lin_replies_snoc,
      ?app_nil_r; try done;
    try (intros t' c' [(<- & <- & _)|(Hne & Hc')]%list_lookup_insert_Some;
         rewrite ?lin_requests_of_snoc, ?lin_replies_of_snoc;
         unfold pending, current; simpl;
         [rewrite ?decide_True by done; rewrite ?app_nil_r
         |rewrite ?decide_False by done; rewrite ?app_nil_r;
          first [by apply Hrec|by apply Hprog]]).
  - done.
  - by rewrite Hpr, Htodo.
  - done.
  - done.
  - rewrite ShardFacts.exec_all_app, Hd. simpl.
    by destruct (Shard.exec r (data s)).
  - by rewrite Hrc.
  - by rewrite Hpr, <- app_assoc.
  - done.
  - done.
Qed.

Lemma Linear_run d0 progs sched s :
  Linear d0 progs s → Linear d0 progs (run sched s).
Proof.
  revert s. induction sched as [|t sched IH]; intros s HL; simpl; [done|].
  apply IH. destruct (step t s) as [s'|] eqn:Hs; simpl; [|done].
  eapply Linear_step; [done|]. by apply step_Call.
Qed.

(** *** Real-time order *)

Lemma Ordered_init d0 progs : Ordered (init d0 progs).
Proof.
  split; simpl.
  - intros e c He. by apply not_elem_of_nil in He.
  - intros i j t k r rep r' rep' Hi. by rewrite lookup_nil in Hi.
  - intros i j t k r r' rep' Hi. by rewrite lookup_nil in Hi.
Qed.

Lemma Ordered_step t s s' : Ordered s → Step t s s' → Ordered s'.
Proof.
  intros [Hcalls Hlr Hal] HS.
  destruct HS as [t s c r rest m' Hc Hpc Htodo Hacq|t s c r Hc Hpc
                 |t s c r Hc Hpc|t s c r rep Hc Hpc]; split; simpl.
  (* the lock is taken *)
  - intros e c' [He| ->%list_elem_of_singleton]%elem_of_app
                [(Heq & <- & _)|(Hne & Hc')]%list_lookup_insert_Some; simpl in *.
    + rewrite Heq in Hc. destruct (Hcalls _ _ He Hc) as [Hle Hall].
      split; [done|]. intros Hk. specialize (Hall Hk).
      destruct e; simpl in *; [done|by destruct Hall as (? & ? & ?); congruence|done].
    + by apply Hcalls.
    + split; [done|]. by intros _.
    + done.
  - intros i j t' k r0 rep r' rep'
           [[Hi Hi']|[-> [=]]]%lookup_snoc_Some
           [[Hj Hj']|[-> [=]]]%lookup_snoc_Some.
    by eapply Hlr.
  - intros i j t' k r0 r' rep'
           [[Hi Hi']|[-> [=]]]%lookup_snoc_Some
           [[Hj Hj']|[-> Heq]]%lookup_snoc_Some.
    + by eapply Hal.
    + injection Heq as <- <- <-.
      assert (He : ELin t (length (replies c)) r' rep' ∈ trace s)
        by (apply list_elem_of_lookup; eauto).
      destruct (Hcalls _ _ He Hc) as [_ Hall].
      destruct (Hall eq_refl) as (? & ? & ?). congruence.
  (* the access starts *)
  - intros e c' He [(Heq & <- & _)|(Hne & Hc')]%list_lookup_insert_Some;
      simpl in *.
    + rewrite Heq in Hc. destruct (Hcalls _ _ He Hc) as [Hle Hall].
      split; [done|]. intros Hk. specialize (Hall Hk).
      destruct e; simpl in *; [done|by destruct Hall as (? & ? & ?); congruence|done].
    + by apply Hcalls.
  - done.
  - done.
  (* the access completes *)
  - intros e c' [He| ->%list_elem_of_singleton]%elem_of_app
                [(Heq & <- & _)|(Hne & Hc')]%list_lookup_insert_Some; simpl in *.
    + rewrite Heq in Hc. destruct (Hcalls _ _ He Hc) as [Hle Hall].
      split; [done|]. intros Hk. specialize (Hall Hk).
      destruct e; simpl in *; [done|by destruct Hall as (? & ? & ?); congruence|done].
    + by apply Hcalls.
    + split; [done|]. intros _. by eexists _, _.
    + done.
  - intros i j t' k r0 rep r' rep'
           [[Hi Hi']|[-> [=]]]%lookup_snoc_Some
           [[Hj Hj']|[-> Heq]]%lookup_snoc_Some.
    + by eapply Hlr.
    + injection Heq as <- <- <- <-.
      assert (He : ERel t (length (replies c)) r0 rep ∈ trace s)
        by (apply list_elem_of_lookup; eauto).
      destruct (Hcalls _ _ He Hc) as [_ Hall]. by destruct (Hall eq_refl).
  - intros i j t' k r0 r' rep'
           [[Hi Hi']|[-> Heq]]%lookup_snoc_Some
           [[Hj Hj']|[-> [=]]]%lookup_snoc_Some.
    + by eapply Hal.
    + done.
  (* the lock is released *)
  - intros e c' [He| ->%list_elem_of_singleton]%elem_of_app
                [(Heq & <- & _)|(Hne & Hc')]%list_lookup_insert_Some; simpl in *.
    + rewrite Heq in Hc. destruct (Hcalls _ _ He Hc) as [Hle Hall].
      rewrite length_app. simpl. split; [lia|]. intros Hk. lia.
    + by apply Hcalls.
    + rewrite length_app. simpl. split; [lia|]. intros Hk. lia.
    + done.
  - intros i j t' k r0 rep0 r' rep'
           [[Hi Hi']|[-> Heq]]%lookup_snoc_Some
           [[Hj Hj']|[-> [=]]]%lookup_snoc_Some.
    + by eapply Hlr.
    + done.
  - intros i j t' k r0 r' rep'
           [[Hi Hi']|[-> [=]]]%lookup_snoc_Some
           [[Hj Hj']|[-> [=]]]%lookup_snoc_Some.
    by eapply Hal.
Qed.

Lemma Ordered_run sched s : Ordered s → Ordered (run sched s).
Proof.
  revert s. induction sched as [|t sched IH]; intros s HO; simpl; [done|].
  apply IH. destruct (step t s) as [s'|] eqn:Hs; simpl; [|done].
  eapply Ordered_step; [done|]. by apply step_Call.
Qed.

(** A call that starts after another has returned is linearized after
    it. *)
Lemma real_time_order s i j li lj ta ka ra repa tb kb rb ra' repa' rb' repb' :
  Ordered s →
  trace s !! i = Some (ERel ta ka ra repa) →
  trace s !! j = Some (EAcq tb kb rb) →
  i < j →
  trace s !! li = Some (ELin ta ka ra' repa') →
  trace s !! lj = Some (ELin tb kb rb' repb') →
  li < lj.
Proof.
  intros [_ Hlr Hal] Hi Hj Hij Hli Hlj.
  pose proof (Hlr _ _ _ _ _ _ _ _ Hi Hli).
  pose proof (Hal _ _ _ _ _ _ _ Hlj Hj). lia.
Qed.

(** *** Readers do not wait for readers *)

Lemma get_not_blocked s t c r rest :
  Locks s →
  Forall (fun c' => ∀ r', inside c' = Some r' → type r' = GET) (callers s) →
  callers s !! t = Some c → pc c = PIdle → todo c = r :: rest →
  type r = GET →
  ∃ s', step t s = Some s' ∧
        callers s' = <[t := mkCaller (PLocked r) rest (replies c)]> (callers s).
Proof.
  intros [_ Hw _ _] Hall Hc Hpc Htodo Hty.
  assert (SharedMutex.writer (mutex s) = false) as Hwr.
  { destruct (SharedMutex.writer (mutex s)); [|done]. exfalso.
    assert (sum_list (map exclusive_count (callers s)) = 0); [|lia].
    clear -Hall. induction Hall as [|c' cs Hc' _ IH]; [done|]. simpl.
    rewrite IH. unfold exclusive_count. rewrite holds_inside.
    destruct (inside c') as [r'|]; [|done]. simpl.
    rewrite mode_writes.
    by rewrite (proj2 (writes_false r') (Hc' r' eq_refl)). }
  unfold step. rewrite Hc, Hpc, Htodo.
  rewrite mode_writes, (proj2 (writes_false r) Hty). simpl.
  unfold SharedMutex.lock_shared. rewrite Hwr. by eexists.
Qed.

(** C9 (per-shard linearizability).  For every initial contents, every
    set of callers with their programs of [get]/[set]/[del] calls on the
    shard, and every schedule: no data race happens, an access that
    modifies [data] never overlapping another access; the order in which
    the accesses complete is a total order of the calls in which the
    contents and every reply are those of the calls run one after the other
    from the initial contents; each caller receives the replies of its own
    calls, in program order; the order agrees with real time (a call whose
    lock is taken after another call released its lock comes later; the
    lock is held strictly inside the call); while a caller is inside a
    [set] or a [del] no other caller is inside a call; and while every
    caller that is inside a call is inside a [get], and no caller is about
    to take the lock for a [set] or a [del], a caller whose next call is a
    [get] does not wait: its step takes the lock and it is inside its
    [get] together with the others. *)
Theorem shard_linearizable d0 progs sched :
  let s := run sched (init d0 progs) in
  raced s = false ∧
  Shard.exec_all (lin_requests (trace s)) d0
    = (data s, lin_replies (trace s)) ∧
  (∀ t c, callers s !! t = Some c →
          lin_replies_of t (trace s) = replies c ++ pending c ∧
          progs !! t
            = Some (lin_requests_of t (trace s) ++ current c ++ todo c)) ∧
  (∀ i j li lj ta ka ra repa tb kb rb ra' repa' rb' repb',
     trace s !! i = Some (ERel ta ka ra repa) →
     trace s !! j = Some (EAcq tb kb rb) →
     i < j →
     trace s !! li = Some (ELin ta ka ra' repa') →
     trace s !! lj = Some (ELin tb kb rb' repb') →
     li < lj) ∧
  (∀ i j ci cj ri,
     i ≠ j → callers s !! i = Some ci → callers s !! j = Some cj →
     inside ci = Some ri → type ri ≠ GET →
     inside cj = None) ∧
  (∀ t c r rest,
     Forall (fun c' => ∀ r', inside c' = Some r' → type r' = GET)
       (callers s) →
     Forall (fun c' => ¬ wants_exclusive c') (callers s) →
     callers s !! t = Some c → pc c = PIdle → todo c = r :: rest →
     type r = GET →
     ∃ s', step t s = Some s' ∧
           callers s'
           = <[t := mkCaller (PLocked r) rest (replies c)]> (callers s)).
Proof.
  intros s.
  pose proof (Locks_run sched _ (Locks_init d0 progs)) as HL.
  pose proof (Linear_run d0 progs sched _ (Linear_init d0 progs)) as HLin.
  pose proof (Ordered_run sched _ (Ordered_init d0 progs)) as HO.
  fold s in HL, HLin, HO. split_and!.
  - apply (locks_no_race _ HL).
  - apply (lin_data _ _ _ HLin).
  - intros t c Hc. split.
    + by apply (lin_received _ _ _ HLin).
    + by apply (lin_program _ _ _ HLin).
  - intros. by eapply real_time_order.
  - intros i j ci cj ri Hne Hi Hj Hri Hty.
    destruct (inside cj) as [rj|] eqn:Hrj; [|done].
    destruct (two_inside s i j ci cj ri rj HL Hne Hi Hj Hri Hrj) as [Hw _].
    by apply writes_false in Hw.
  - intros t c r rest Hall _ Hc Hpc Htd Hty. by eapply get_not_blocked.
Qed.

(** Two [get] calls inside the shard at the same time, a [set] waiting for
    them, and the outcome once all three have returned. *)
Lemma readers_overlap :
  map pc (callers (run [0; 1; 0; 1]
                     (init {[ "a" := "1" ]}
                        [[mkRequest GET "a" ""]; [mkRequest GET "a" ""];
                         [mkRequest SET "a" "2"]])))
    = [PAccess (mkRequest GET "a" ""); PAccess (mkRequest GET "a" ""); PIdle] ∧
  step 2 (run [0; 1; 0; 1]
            (init {[ "a" := "1" ]}
               [[mkRequest GET "a" ""]; [mkRequest GET "a" ""];
                [mkRequest SET "a" "2"]])) = None ∧
  map replies (callers (run [0; 1; 0; 1; 2; 0; 0; 1; 2; 1; 2; 2; 2; 2]
                          (init {[ "a" := "1" ]}
                             [[mkRequest GET "a" ""]; [mkRequest GET "a" ""];
                              [mkRequest SET "a" "2"]])))
    = [[RVal (Some "1")]; [RVal (Some "1")]; [RVoid]] ∧
  data (run [0; 1; 0; 1; 2; 0; 0; 1; 2; 1; 2; 2; 2; 2]
          (init {[ "a" := "1" ]}
             [[mkRequest GET "a" ""]; [mkRequest GET "a" ""];
              [mkRequest SET "a" "2"]])) !! "a" = Some "2".
Proof. split_and!; vm_compute; reflexivity. Qed.

End LockedShardFacts.

(** * Further properties *)

(** ** The blocking queue: shutdown, and push against pop *)

Module BlockingQueueMore.
Import BlockingQueue.
Section More.
Context {T : Type}.
Implicit Types (bq : t T) (x : T).

Lemma calls_pop_item (os : list (Op T)) bq x rest :
  q bq = x :: rest →
  calls (OpPop :: os) bq
  = (let '(bq2, outs) := calls os (mk rest (stopped bq)) in
     (bq2, OutItem x :: outs)).
Proof.
  intros Hq. cbn [calls call].
  by rewrite (BlockingQueueFacts.pop_nonempty bq x rest Hq).
Qed.

Lemma drain_stopped (l : list T) k :
  calls (replicate (length l + k) OpPop) (mk l true)
  = (mk [] true, map OutItem l ++ replicate k OutEnd).
Proof.
  induction l as [|x l IH].
  - simpl. induction k as [|k IH]; simpl; [done|]. by rewrite IH.
  - change (replicate (length (x :: l) + k) OpPop)
      with (OpPop :: replicate (length l + k) (@OpPop T)).
    rewrite (calls_pop_item _ (mk (x :: l) true) x l eq_refl).
    cbn [stopped]. by rewrite IH.
Qed.

(** X1 (shutdown discards nothing).  Whatever the queue holds when
    [shutdown] is called, the next pops return exactly those items, in
    order, none of them waiting; the queue is then empty and stopped, and
    every further pop returns stream-end. *)
Theorem shutdown_then_drain bq k :
  calls (OpShutdown :: replicate (length (q bq) + k) OpPop) bq
  = (mk [] true, map OutItem (q bq) ++ replicate k OutEnd).
Proof.
  destruct bq as [l st]. cbn [calls call shutdown q].
  by rewrite drain_stopped.
Qed.

(** X2 (push against pop).  A push on an empty queue followed by a pop
    hands the pushed item back and leaves the queue as it was, stopped or
    not; on a queue that is not empty, a pop returns the same head whether
    a push came first or not, and both orders leave the same queue. *)
Theorem push_pop bq x :
  (q bq = [] → pop (push x bq) = PopItem x bq) ∧
  (∀ y rest,
     q bq = y :: rest →
     pop (push x bq) = PopItem y (push x (mk rest (stopped bq))) ∧
     pop bq = PopItem y (mk rest (stopped bq))).
Proof.
  split.
  - intros Hq. destruct bq as [l st]. simpl in Hq. subst l.
    by rewrite (BlockingQueueFacts.pop_nonempty (push x (mk [] st)) x []).
  - intros y rest Hq. split; [|by apply BlockingQueueFacts.pop_nonempty].
    rewrite (BlockingQueueFacts.pop_nonempty (push x bq) y (rest ++ [x]));
      [done|]. simpl. by rewrite Hq.
Qed.

End More.

Lemma push_pop_witness :
  pop (push "x" (mk [] true)) = PopItem "x" (mk [] true).
Proof. apply (proj1 (push_pop (mk [] true) "x")). reflexivity. Defined.

End BlockingQueueMore.

(** ** The sharded store: routing, partition, composition *)

Module KVStoreMore.
Section More.
Variable hash : string → N.
Implicit Types (shards : list (gmap string string)).

(** A store call is the shard call on the routed shard. *)
Lemma exec_via_shard r shards :
  KVStore.exec hash r shards =
  '(i, d) ← KVStore.shard hash (key r) shards;
  Some (<[i := (Shard.exec r d).1]> shards, (Shard.exec r d).2).
Proof.
  unfold KVStore.exec, Shard.exec, KVStore.get, KVStore.set, KVStore.del.
  destruct (KVStore.shard hash (key r) shards) as [[i d]|] eqn:Hsh;
    destruct (type r); simpl; try done.
  apply KVStoreFacts.shard_inv in Hsh as [_ Hd].
  by rewrite list_insert_id.
Qed.

Lemma exec_length r shards s' rep :
  KVStore.exec hash r shards = Some (s', rep) → length s' = length shards.
Proof.
  rewrite exec_via_shard.
  destruct (KVStore.shard hash (key r) shards) as [[i d]|]; [|done]. simpl.
  intros [= <- _]. apply length_insert.
Qed.

Lemma exec_all_length rs shards s' reps :
  KVStore.exec_all hash rs shards = Some (s', reps) →
  length s' = length shards.
Proof.
  revert shards s' reps. induction rs as [|r rs IH]; intros shards s' reps;
    simpl.
  - by intros [= <- _].
  - destruct (KVStore.exec hash r shards) as [[s1 rep]|] eqn:He; [|done].
    simpl. destruct (KVStore.exec_all hash rs s1) as [[s2 reps2]|] eqn:Ha;
      [|done].
    simpl. intros [= <- _]. rewrite (IH _ _ _ Ha). by eapply exec_length.
Qed.

(** X3 (delegation).  Every store call is defined exactly when the store
    has a shard; it then runs the corresponding shard call on the one shard
    the key is routed to, hands that shard's reply back unchanged, and
    leaves every other shard as it was. *)
Theorem store_call_delegates r shards :
  (0 < length shards ↔ is_Some (KVStore.exec hash r shards)) ∧
  (∀ s' rep,
     KVStore.exec hash r shards = Some (s', rep) →
     ∃ i d,
       KVStore.index hash (key r) shards = Some i ∧
       shards !! i = Some d ∧
       s' !! i = Some (Shard.exec r d).1 ∧
       rep = (Shard.exec r d).2 ∧
       ∀ j, j ≠ i → s' !! j = shards !! j).
Proof.
  split.
  - rewrite exec_via_shard. split.
    + intros Hlen.
      destruct (KVStoreFacts.shard_Some hash (key r) shards Hlen)
        as (i & d & -> & _). by eexists.
    + intros [x Hx]. unfold KVStore.shard, KVStore.index in Hx.
      case_bool_decide as Hl; [done|lia].
  - intros s' rep. rewrite exec_via_shard.
    destruct (KVStore.shard hash (key r) shards) as [[i d]|] eqn:Hsh; [|done].
    simpl. intros [= <- <-].
    apply KVStoreFacts.shard_inv in Hsh as [Hi Hd].
    exists i, d. split_and!; try done.
    + apply list_lookup_insert_eq. by eapply lookup_lt_Some.
    + intros j Hj. by apply list_lookup_insert_ne.
Qed.

(** X4 (stable routing).  No sequence of calls changes the number of
    shards, so every key is routed to the same shard before and after, and
    the shard index it is routed to is always within the vector. *)
Theorem routing_stable rs shards s' reps k :
  KVStore.exec_all hash rs shards = Some (s', reps) →
  length s' = length shards ∧
  KVStore.index hash k s' = KVStore.index hash k shards ∧
  (∀ i, KVStore.index hash k s' = Some i → i < length s').
Proof.
  intros He. pose proof (exec_all_length _ _ _ _ He) as Hlen.
  split; [done|]. split; [by apply KVStoreFacts.index_length|].
  intros i Hi. unfold KVStore.index in Hi.
  case_bool_decide as Hl; [done|]. injection Hi as <-.
  assert (hash k `mod` N.of_nat (length s') < N.of_nat (length s'))%N
    by (apply N.mod_lt; lia).
  lia.
Qed.

Lemma partitioned_exec r shards s' rep :
  KVStore.partitioned hash shards →
  KVStore.exec hash r shards = Some (s', rep) →
  KVStore.partitioned hash s'.
Proof.
  intros Hp He. pose proof (exec_length _ _ _ _ He) as Hlen.
  rewrite exec_via_shard in He.
  destruct (KVStore.shard hash (key r) shards) as [[i d]|] eqn:Hsh; [|done].
  simpl in He. injection He as <- <-.
  apply KVStoreFacts.shard_inv in Hsh as [Hi Hd].
  intros j d' k [(<- & <- & _)|(Hne & Hj)]%list_lookup_insert_Some Hk;
    rewrite (KVStoreFacts.index_length hash k shards) by apply length_insert.
  - unfold Shard.exec in Hk. destruct (type r); simpl in Hk.
    + by eapply Hp.
    + unfold Shard.set in Hk. destruct (decide (k = key r)) as [->|Hkr].
      * done.
      * rewrite lookup_insert_ne in Hk by done. by eapply Hp.
    + unfold Shard.del in Hk. destruct (decide (k = key r)) as [->|Hkr].
      * done.
      * rewrite lookup_delete_ne in Hk by done. by eapply Hp.
  - by eapply Hp.
Qed.

(** X5 (partition).  In a store built by any sequence of calls from a
    fresh one, a shard only ever holds keys that are routed to it; so no key
    is held by two shards. *)
Theorem keys_in_own_shard n rs s' reps :
  KVStore.exec_all hash rs (KVStore.make n) = Some (s', reps) →
  KVStore.partitioned hash s' ∧
  (∀ i j di dj k,
     s' !! i = Some di → s' !! j = Some dj →
     is_Some (di !! k) → is_Some (dj !! k) → i = j).
Proof.
  intros He.
  assert (Hp : KVStore.partitioned hash s').
  { assert (H0 : KVStore.partitioned hash (KVStore.make n)).
    { intros i d k Hd [v Hv]. unfold KVStore.make in Hd.
      apply lookup_replicate in Hd as [-> _]. done. }
    revert He H0. generalize (KVStore.make n). revert s' reps.
    induction rs as [|r rs IH]; intros s' reps shards; simpl.
    - by intros [= <- _].
    - destruct (KVStore.exec hash r shards) as [[s1 rep]|] eqn:He1; [|done].
      simpl. destruct (KVStore.exec_all hash rs s1) as [[s2 reps2]|] eqn:Ha;
        [|done].
      simpl. intros [= <- _] Hp. eapply IH; [done|].
      by eapply partitioned_exec. }
  split; [done|]. intros i j di dj k Hi Hj Hki Hkj.
  pose proof (Hp _ _ _ Hi Hki). pose proof (Hp _ _ _ Hj Hkj). congruence.
Qed.

Lemma shard_exec_commute r1 r2 (d : gmap string string) :
  key r1 ≠ key r2 →
  (Shard.exec r2 (Shard.exec r1 d).1).1 = (Shard.exec r1 (Shard.exec r2 d).1).1 ∧
  (Shard.exec r2 (Shard.exec r1 d).1).2 = (Shard.exec r2 d).2.
Proof.
  intros Hne. unfold Shard.exec, Shard.get, Shard.set, Shard.del.
  destruct (type r1), (type r2); simpl; split; try done.
  - by rewrite lookup_insert_ne.
  - by apply insert_insert_ne.
  - by rewrite delete_insert_ne.
  - by rewrite lookup_delete_ne.
  - by rewrite delete_insert_ne.
  - apply delete_delete.
Qed.

(** X6 (calls on different keys commute).  On a store with a shard, two
    calls on different keys can run in either order: both orders end in the
    same store, and each call gets the same reply in both. *)
Theorem calls_commute r1 r2 shards :
  key r1 ≠ key r2 →
  0 < length shards →
  ∃ sa sb s' rep1 rep2,
    KVStore.exec hash r1 shards = Some (sa, rep1) ∧
    KVStore.exec hash r2 sa = Some (s', rep2) ∧
    KVStore.exec hash r2 shards = Some (sb, rep2) ∧
    KVStore.exec hash r1 sb = Some (s', rep1).
Proof.
  intros Hne Hlen.
  destruct (KVStoreFacts.shard_Some hash (key r1) shards Hlen)
    as (i1 & d1 & Hsh1 & Hi1 & Hd1).
  destruct (KVStoreFacts.shard_Some hash (key r2) shards Hlen)
    as (i2 & d2 & Hsh2 & Hi2 & Hd2).
  pose proof (lookup_lt_Some _ _ _ Hd1) as Hlt1.
  pose proof (lookup_lt_Some _ _ _ Hd2) as Hlt2.
  assert (Hsh : ∀ k i d0 j e,
            KVStore.index hash k shards = Some i →
            <[j := e]> shards !! i = Some d0 →
            KVStore.shard hash k (<[j := e]> shards) = Some (i, d0)).
  { intros k i d0 j e Hi Hd. unfold KVStore.shard.
    rewrite (KVStoreFacts.index_length hash k shards) by apply length_insert.
    rewrite Hi. simpl. by rewrite Hd. }
  destruct (decide (i1 = i2)) as [<-|Hi].
  - assert (d2 = d1) as -> by congruence.
    destruct (shard_exec_commute r1 r2 d1 Hne) as [Hc1 Hc2].
    destruct (shard_exec_commute r2 r1 d1 (not_eq_sym Hne)) as [_ Hc3].
    eexists _, _, _, _, _. split_and!.
    + rewrite exec_via_shard, Hsh1. simpl. done.
    + rewrite exec_via_shard.
      rewrite (Hsh (key r2) i1 (Shard.exec r1 d1).1 i1 _ Hi2
                 (list_lookup_insert_eq _ _ _ Hlt1)).
      simpl. rewrite list_insert_insert_eq, Hc2. done.
    + rewrite exec_via_shard, Hsh2. simpl. done.
    + rewrite exec_via_shard.
      rewrite (Hsh (key r1) i1 (Shard.exec r2 d1).1 i1 _ Hi1
                 (list_lookup_insert_eq _ _ _ Hlt1)).
      simpl. rewrite list_insert_insert_eq, Hc3, Hc1. done.
  - assert (Hl2 : <[i1 := (Shard.exec r1 d1).1]> shards !! i2 = Some d2)
      by (by rewrite list_lookup_insert_ne).
    assert (Hl1 : <[i2 := (Shard.exec r2 d2).1]> shards !! i1 = Some d1)
      by (by rewrite list_lookup_insert_ne).
    eexists _, _, _, _, _. split_and!.
    + rewrite exec_via_shard, Hsh1. simpl. done.
    + rewrite exec_via_shard, (Hsh _ _ _ _ _ Hi2 Hl2). simpl. done.
    + rewrite exec_via_shard, Hsh2. simpl. done.
    + rewrite exec_via_shard, (Hsh _ _ _ _ _ Hi1 Hl1). simpl.
      by rewrite list_insert_insert_ne by done.
Qed.

(** X7 (overwriting).  On a store with a shard: a [set] after a [set] on
    the same key leaves the store that the second [set] alone would leave;
    a [del] after a [set] leaves the store that the [del] alone would
    leave; and a second [del] changes nothing. *)
Theorem last_write_wins k v1 v2 shards :
  0 < length shards →
  ∃ s1 s2,
    KVStore.set hash k v1 shards = Some s1 ∧
    KVStore.set hash k v2 s1 = KVStore.set hash k v2 shards ∧
    KVStore.del hash k s1 = KVStore.del hash k shards ∧
    KVStore.del hash k shards = Some s2 ∧
    KVStore.del hash k s2 = Some s2.
Proof.
  intros Hlen.
  destruct (KVStoreFacts.shard_Some hash k shards Hlen)
    as (i & d & Hsh & Hi & Hd).
  pose proof (lookup_lt_Some _ _ _ Hd) as Hlt.
  assert (Hsh' : ∀ e, KVStore.shard hash k (<[i := e]> shards) = Some (i, e)).
  { intros e. unfold KVStore.shard.
    rewrite (KVStoreFacts.index_length hash k shards) by apply length_insert.
    rewrite Hi. simpl. by rewrite list_lookup_insert_eq. }
  unfold KVStore.set, KVStore.del. rewrite Hsh. simpl.
  eexists _, _. split; [done|]. rewrite !Hsh'. simpl.
  rewrite !list_insert_insert_eq. unfold Shard.set, Shard.del.
  rewrite insert_insert_eq, delete_insert_eq, delete_delete_eq. done.
Qed.

(** X8 (fresh store).  A store constructed with at least one shard holds no
    key: every [get] is absent.  Constructed with no shard, it has no
    defined call at all: the remainder by the number of shards is
    undefined. *)
Theorem fresh_store n r :
  (0 < n → ∀ k, KVStore.get hash k (KVStore.make n) = Some None) ∧
  (n = 0 → KVStore.exec hash r (KVStore.make n) = None).
Proof.
  split.
  - intros Hn k. destruct (KVStoreFacts.shows_make hash n Hn) as [_ Hget].
    by rewrite Hget, lookup_empty.
  - intros ->. rewrite exec_via_shard. done.
Qed.

End More.

Lemma routing_stable_witness :
  length (default [] (fst <$> KVStore.exec_all ThreadPool.fnv1a
                                ThreadPool.main_requests (KVStore.make 4)))
    = length (KVStore.make 4) ∧
  KVStore.index ThreadPool.fnv1a "a"
    (default [] (fst <$> KVStore.exec_all ThreadPool.fnv1a
                           ThreadPool.main_requests (KVStore.make 4)))
    = KVStore.index ThreadPool.fnv1a "a" (KVStore.make 4) ∧
  (∀ i, KVStore.index ThreadPool.fnv1a "a"
          (default [] (fst <$> KVStore.exec_all ThreadPool.fnv1a
                                 ThreadPool.main_requests (KVStore.make 4)))
        = Some i →
        i < length (default [] (fst <$> KVStore.exec_all ThreadPool.fnv1a
                                          ThreadPool.main_requests
                                          (KVStore.make 4)))).
Proof.
  apply (routing_stable ThreadPool.fnv1a ThreadPool.main_requests
           (KVStore.make 4) _
           (default [] (snd <$> KVStore.exec_all ThreadPool.fnv1a
                                  ThreadPool.main_requests (KVStore.make 4)))).
  vm_compute. reflexivity.
Defined.

Lemma keys_in_own_shard_witness :
  KVStore.partitioned ThreadPool.fnv1a
    (default [] (fst <$> KVStore.exec_all ThreadPool.fnv1a
                           ThreadPool.main_requests (KVStore.make 4))) ∧
  (∀ i j di dj k,
     default [] (fst <$> KVStore.exec_all ThreadPool.fnv1a
                           ThreadPool.main_requests (KVStore.make 4)) !! i
       = Some di →
     default [] (fst <$> KVStore.exec_all ThreadPool.fnv1a
                           ThreadPool.main_requests (KVStore.make 4)) !! j
       = Some dj →
     is_Some (di !! k) → is_Some (dj !! k) → i = j).
Proof.
  apply (keys_in_own_shard ThreadPool.fnv1a 4 ThreadPool.main_requests _
           (default [] (snd <$> KVStore.exec_all ThreadPool.fnv1a
                                  ThreadPool.main_requests (KVStore.make 4)))).
  vm_compute. reflexivity.
Defined.

Lemma calls_commute_witness :
  ∃ sa sb s' rep1 rep2,
    KVStore.exec ThreadPool.fnv1a (mkRequest SET "a" "1") (KVStore.make 4)
      = Some (sa, rep1) ∧
    KVStore.exec ThreadPool.fnv1a (mkRequest GET "b" "") sa = Some (s', rep2) ∧
    KVStore.exec ThreadPool.fnv1a (mkRequest GET "b" "") (KVStore.make 4)
      = Some (sb, rep2) ∧
    KVStore.exec ThreadPool.fnv1a (mkRequest SET "a" "1") sb = Some (s', rep1).
Proof.
  apply (calls_commute ThreadPool.fnv1a (mkRequest SET "a" "1")
           (mkRequest GET "b" "") (KVStore.make 4)).
  - discriminate.
  - simpl. lia.
Defined.

Lemma last_write_wins_witness :
  ∃ s1 s2,
    KVStore.set ThreadPool.fnv1a "a" "1" (KVStore.make 4) = Some s1 ∧
    KVStore.set ThreadPool.fnv1a "a" "2" s1
      = KVStore.set ThreadPool.fnv1a "a" "2" (KVStore.make 4) ∧
    KVStore.del ThreadPool.fnv1a "a" s1
      = KVStore.del ThreadPool.fnv1a "a" (KVStore.make 4) ∧
    KVStore.del ThreadPool.fnv1a "a" (KVStore.make 4) = Some s2 ∧
    KVStore.del ThreadPool.fnv1a "a" s2 = Some s2.
Proof.
  apply (last_write_wins ThreadPool.fnv1a "a" "1" "2" (KVStore.make 4)).
  simpl. lia.
Defined.

End KVStoreMore.

(** ** The thread pool: any program, any workload *)

Module ThreadPoolMore.
Import ThreadPool ThreadPoolFacts.
Section More.
Variable hash : string → N.

(** X9 (requests are accounted for).  In every state of every run of every
    program on a store with a shard, each request submitted so far is in
    exactly one place: applied to the store, held by a worker between its
    [pop] and its store call, or still queued; and what was submitted plus
    what the owner has still to submit are the requests of the program. *)
Theorem requests_accounted shardCount n cs sched s :
  0 < shardCount →
  s = run hash sched (init shardCount n cs) →
  submitted s ≡ₚ applied s ++ in_flight s ++ BlockingQueue.q (queue s) ∧
  length (workers s) = n ∧
  (∀ todo, main s = MRun todo →
           submitted s ++ pushes todo = pushes (compile n cs)).
Proof.
  intros Hsc ->.
  pose proof (Inv_run hash n _ sched _ (Inv_init hash shardCount n cs Hsc))
    as [Hw _ Hc _ _ Hp].
  done.
Qed.

(** X10 (the store is the replay of its calls).  In every state of every
    run of every program on a store with a shard, every [get] on the store
    answers as a flat map on which the requests applied so far were run one
    after the other, in the order in which the workers' store calls took
    place; and no worker has met an undefined store call. *)
Theorem store_is_replay shardCount n cs sched s :
  0 < shardCount →
  s = run hash sched (init shardCount n cs) →
  (∀ k, KVStore.get hash k (kv s)
        = Some (Flat.get k (Flat.exec_all (applied s) ∅).1)) ∧
  length (kv s) = shardCount ∧
  Forall (fun th => body th ≠ WUndefined) (workers s).
Proof.
  intros Hsc ->.
  pose proof (Inv_run hash n _ sched _ (Inv_init hash shardCount n cs Hsc))
    as HI.
  destruct HI as [_ [_ Hget] _ Hd _ _]. split; [done|]. split; [|done].
  clear. induction sched as [|t sched IH] using rev_ind.
  - simpl. apply length_replicate.
  - assert (Hrun : ∀ l1 l2 s0, run hash (l1 ++ l2) s0
                               = run hash l2 (run hash l1 s0)).
    { induction l1 as [|a l1 IHl]; intros l2 s0; simpl; [done|apply IHl]. }
    rewrite Hrun. simpl.
    destruct (step hash t (run hash sched (init shardCount n cs)))
      as [s'|] eqn:Hs; simpl; [|done].
    apply step_Step in Hs. rewrite <- IH.
    inversion Hs; subst; simpl; try done.
    match goal with
    | H : KVStore.exec _ _ _ = Some _ |- _ =>
        apply KVStoreMore.exec_length in H
    end.
    done.
Qed.

(** X11 (drain on shutdown, any workload).  For every workload, every
    positive number of shards and of workers and every schedule: when
    [shutdown] has returned, every request has been submitted and applied
    exactly once, nothing is queued or held, the queue is stopped, every
    worker has returned and is joined, every key holds what the last write
    applied to it left, and no thread can take a further step. *)
Theorem drain_any_workload shardCount n rs sched s :
  0 < shardCount → 0 < n →
  s = run hash sched (init shardCount n (map Submit rs ++ [Shutdown])) →
  finished s →
  submitted s = rs ∧
  applied s ≡ₚ rs ∧
  in_flight s = [] ∧
  BlockingQueue.q (queue s) = [] ∧
  BlockingQueue.stopped (queue s) = true ∧
  Forall (fun th => body th = WReturned ∧ joinable th = false) (workers s) ∧
  (∀ k, KVStore.get hash k (kv s) = Some (Flat.final k (applied s) None)) ∧
  (∀ t, step hash t s = None).
Proof.
  intros Hsc Hn Hs Hfin.
  destruct (drain_general hash shardCount n rs sched s Hsc Hn Hs Hfin)
    as (H1 & H2 & H3 & H4 & H5 & H6 & H7).
  split_and!; try done.
  intros [|i].
  - simpl. unfold step_main. by rewrite Hfin.
  - apply returned_worker_stuck. eapply Forall_impl; [exact H6|].
    by intros th [? _].
Qed.

(** X12 (shutdown returns, any workload).  For every workload on a store
    with a shard: every step of every thread lowers the weight of the state,
    so no run goes on for ever; while the owner has not come to the end of
    [shutdown] some thread can take a step; and from every state the owner
    can be brought to the end of [shutdown] within as many steps as the
    weight of the state. *)
Theorem shutdown_returns shardCount n rs sched s :
  0 < shardCount →
  s = run hash sched (init shardCount n (map Submit rs ++ [Shutdown])) →
  (∀ t s', step hash t s = Some s' → weight s' < weight s) ∧
  (¬ finished s → ∃ t s', step hash t s = Some s') ∧
  (∃ ext, length ext ≤ weight s ∧ finished (run hash ext s)).
Proof.
  intros Hsc Hs.
  destruct (drain_general_returns hash shardCount n rs sched s Hsc Hs)
    as [Hprog Hext].
  split_and!; try done.
  intros t s' Hstep. eapply Step_weight. by apply step_Step.
Qed.

(** X13 (one worker serves in order).  With a single worker, when
    [shutdown] has returned the requests have been applied in the order in
    which they were submitted, and every key holds what the last request
    submitted for it wrote. *)
Theorem one_worker_in_order shardCount rs sched s :
  0 < shardCount →
  s = run hash sched (init shardCount 1 (map Submit rs ++ [Shutdown])) →
  finished s →
  applied s = rs ∧
  ∀ k, KVStore.get hash k (kv s) = Some (Flat.final k rs None).
Proof.
  intros Hsc Hs Hfin.
  destruct (single_worker_order hash shardCount rs sched s Hsc Hs Hfin)
    as [Happ _].
  destruct (drain_general hash shardCount 1 rs sched s Hsc) as
    (_ & _ & _ & _ & _ & _ & Hget); [lia|done|done|].
  split; [done|]. intros k. by rewrite Hget, Happ.
Qed.

(** *** No workers *)

Lemma unserved_init shardCount cs :
  unserved (compile 0 cs) (init shardCount 0 cs).
Proof.
  split_and!; try done. exists (compile 0 cs). split_and!; try done.
  unfold compile. induction cs as [|[r|] cs IH]; simpl; by repeat constructor.
Qed.

Lemma unserved_step prog t s s' :
  unserved prog s → step hash t s = Some s' → unserved prog s'.
Proof.
  intros (Hw & Ha & Hq & todo & Hm & Hnj & Hp).
  destruct t as [|i]; simpl.
  - unfold step_main. rewrite Hm.
    destruct todo as [|[r| |i] todo]; try done.
    + intros [= <-]. split_and!; simpl; try done; [by rewrite Hq|].
      exists todo. split_and!; try done.
      * by apply Forall_cons in Hnj as [_ ?].
      * rewrite <- Hp. simpl. by rewrite <- app_assoc.
    + intros [= <-]. split_and!; simpl; try done.
      exists todo. split_and!; try done.
      by apply Forall_cons in Hnj as [_ ?].
    + by apply Forall_cons in Hnj as [[] _].
  - unfold step_worker. by rewrite Hw.
Qed.

Lemma unserved_run prog sched s :
  unserved prog s → unserved prog (run hash sched s).
Proof.
  revert s. induction sched as [|t sched IH]; intros s Hu; simpl; [done|].
  apply IH. destruct (step hash t s) as [s'|] eqn:Hs; simpl; [|done].
  by eapply unserved_step.
Qed.

Lemma unserved_finish prog s :
  unserved prog s → ∃ ext, finished (run hash ext s).
Proof.
  intros Hu. pose proof Hu as (_ & _ & _ & todo & Hm & Hnj & _).
  revert s Hu Hm. induction todo as [|i todo IH]; intros s Hu Hm.
  - by exists [].
  - assert (∃ s', step hash TMain s = Some s' ∧ main s' = MRun todo)
      as (s' & Hs & Hm').
    { simpl. unfold step_main. rewrite Hm.
      destruct i as [r| |i]; [by eexists|by eexists|].
      by apply Forall_cons in Hnj as [[] _]. }
    destruct (IH (proj2 (proj1 (Forall_cons _ _ _) Hnj)) s') as [ext Hext];
      [by eapply unserved_step|done|].
    exists (TMain :: ext). cbn [run]. by rewrite Hs.
Qed.

(** X15 (no workers).  A pool constructed with zero workers never applies
    anything: in every state of every run of every program the store is as
    constructed, everything submitted so far is still in the queue, in
    order, and the owner has not thrown; [shutdown] has nothing to join, so
    the owner can always come to its end, and it does so with every request
    of the program left in the queue. *)
Theorem no_workers_nothing_served shardCount cs sched s :
  s = run hash sched (init shardCount 0 cs) →
  applied s = [] ∧
  kv s = KVStore.make shardCount ∧
  BlockingQueue.q (queue s) = submitted s ∧
  main s ≠ MThrew ∧
  (finished s → BlockingQueue.q (queue s) = pushes (compile 0 cs)) ∧
  (∃ ext, finished (run hash ext s)).
Proof.
  intros ->.
  pose proof (unserved_run _ sched _ (unserved_init shardCount cs)) as Hu.
  pose proof Hu as (Hw & Ha & Hq & todo & Hm & Hnj & Hp).
  destruct (returned_run hash sched (init shardCount 0 cs))
    as (_ & Hkv & _); [by constructor|].
  split_and!; try done.
  - by rewrite Hm.
  - intros Hfin. unfold finished in Hfin. rewrite Hfin in Hm.
    injection Hm as <-. simpl in Hp. by rewrite app_nil_r, <- Hq in Hp.
  - by eapply unserved_finish.
Qed.

(** *** The order of exits *)

Lemma exits_step t s s' :
  exits_in_order s → Step hash t s s' → exits_in_order s'.
Proof.
  unfold exits_in_order. intros Hall HS.
  destruct HS as [s r todo Hm|s todo Hm|s i todo Hm Hi|s i todo th Hm Hi Hjn
                 |s i th Hi Hb Hs Hq|s i th r rest Hi Hb Hq
                 |s i th r kv' rep Hi Hb He|s i th r Hi Hb He
                 |s i th c cs Hi Hb|s i th Hi Hb]; simpl.
  1, 2, 4: eapply Forall_impl; [exact Hall|]; simpl; by intros ? [? ?].
  all: apply Forall_insert; [exact Hall|]; simpl;
       rewrite Forall_lookup in Hall; destruct (Hall _ _ Hi) as [H1 H2];
       simpl in *; split; intros Hx; try done;
       try (by apply H1); try (specialize (H2 Hx); congruence).
Qed.

(** X16 (workers exit after the stop, joins come after the exit).  In every
    state of every run of every program, a worker has left its loop only if
    [queue.shutdown()] has been called, and a thread handle has been joined
    only if its worker has left its loop. *)
Theorem exits_after_stop shardCount n cs sched :
  exits_in_order (run hash sched (init shardCount n cs)) ∧
  (BlockingQueue.stopped (queue (run hash sched (init shardCount n cs)))
     = false →
   Forall (fun th => body th ≠ WReturned ∧ joinable th = true)
     (workers (run hash sched (init shardCount n cs)))).
Proof.
  assert (He : exits_in_order (run hash sched (init shardCount n cs))).
  { assert (H0 : exits_in_order (init shardCount n cs)).
    { unfold exits_in_order. simpl. by apply Forall_replicate. }
    revert H0. generalize (init shardCount n cs).
    induction sched as [|t sched IH]; intros s Hs; simpl; [done|].
    apply IH. destruct (step hash t s) as [s'|] eqn:Hst; simpl; [|done].
    eapply exits_step; [done|]. by apply step_Step. }
  split; [done|]. intros Hns.
  eapply Forall_impl; [exact He|]. simpl. intros th [H1 H2]. split.
  - intros Hr. specialize (H1 Hr). congruence.
  - destruct (joinable th); [done|]. specialize (H2 eq_refl).
    specialize (H1 H2). congruence.
Qed.

(** *** No shards *)

Lemma unusable_step t s s' :
  unusable s → Step hash t s s' → unusable s'.
Proof.
  intros (Hkv & Ha & Ho & Hall) HS.
  destruct HS as [s r todo Hm|s todo Hm|s i todo Hm Hi|s i todo th Hm Hi Hjn
                 |s i th Hi Hb Hs Hq|s i th r rest Hi Hb Hq
                 |s i th r kv' rep Hi Hb He|s i th r Hi Hb He
                 |s i th c cs Hi Hb|s i th Hi Hb];
    unfold unusable; simpl; try done.
  - split_and!; try done. by apply Forall_insert.
  - split_and!; try done. by apply Forall_insert.
  - split_and!; try done. by apply Forall_insert.
  - rewrite Hkv in He. rewrite KVStoreMore.exec_via_shard in He. done.
  - split_and!; try done. by apply Forall_insert.
  - rewrite Forall_lookup in Hall. specialize (Hall _ _ Hi).
    unfold printing in Hall. by rewrite Hb in Hall.
  - split_and!; try done. by apply Forall_insert.
Qed.

(** X17 (no shards).  On a store constructed with zero shards no store call
    is defined: in every state of every run of every program nothing has
    been applied and nothing has been logged, and a worker that has taken a
    request off the queue is stuck at an undefined call. *)
Theorem no_shards_nothing_applied n cs sched :
  applied (run hash sched (init 0 n cs)) = [] ∧
  out (run hash sched (init 0 n cs)) = [] ∧
  kv (run hash sched (init 0 n cs)) = [] ∧
  Forall (fun th => ∀ r, body th = WExec r →
                         KVStore.exec hash r
                           (kv (run hash sched (init 0 n cs))) = None)
    (workers (run hash sched (init 0 n cs))).
Proof.
  assert (Hu : unusable (run hash sched (init 0 n cs))).
  { assert (H0 : unusable (init 0 n cs)).
    { unfold unusable. simpl. split_and!; try done. by apply Forall_replicate. }
    revert H0. generalize (init 0 n cs).
    induction sched as [|t sched IH]; intros s Hs; simpl; [done|].
    apply IH. destruct (step hash t s) as [s'|] eqn:Hst; simpl; [|done].
    eapply unusable_step; [done|]. by apply step_Step. }
  destruct Hu as (Hkv & Ha & Ho & _). split_and!; try done.
  apply Forall_forall. intros th _ r _. rewrite Hkv.
  by rewrite KVStoreMore.exec_via_shard.
Qed.

(** *** The log of a single worker *)

Lemma flat_replies_snoc rs r (m : gmap string string) :
  (Flat.exec_all (rs ++ [r]) m).2
  = (Flat.exec_all rs m).2 ++ [(Flat.exec r (Flat.exec_all rs m).1).2].
Proof.
  revert m. induction rs as [|r' rs IH]; intros m; simpl.
  - by destruct (Flat.exec r m).
  - destruct (Flat.exec r' m) as [m1 rep]. specialize (IH m1).
    destruct (Flat.exec_all (rs ++ [r]) m1), (Flat.exec_all rs m1).
    simpl in *. by rewrite IH.
Qed.

Lemma flat_replies_length rs (m : gmap string string) :
  length (Flat.exec_all rs m).2 = length rs.
Proof.
  revert m. induction rs as [|r rs IH]; intros m; simpl; [done|].
  destruct (Flat.exec r m) as [m1 rep]. specialize (IH m1).
  destruct (Flat.exec_all rs m1). simpl in *. by rewrite IH.
Qed.

Lemma log_of_snoc id rs reps r rep :
  length reps = length rs →
  log_of id (rs ++ [r]) (reps ++ [rep]) = log_of id rs reps ++ log_line id r rep.
Proof.
  revert reps. induction rs as [|r' rs IH]; intros [|rep' reps] Hlen;
    simpl in *; try done.
  - by rewrite app_nil_r.
  - rewrite IH by lia. by rewrite app_assoc.
Qed.

Lemma solo_log_step n prog t s s' :
  Inv hash n prog s → solo_log s → Step hash t s s' → solo_log s'.
Proof.
  intros HI (th0 & Hws & Hlog) HS. pose proof (inv_store _ _ _ _ HI) as Hsh.
  unfold solo_log.
  destruct HS as [s r todo Hm|s todo Hm|s i todo Hm Hi|s i todo th Hm Hi Hjn
                 |s i th Hi Hb Hs Hq|s i th r rest Hi Hb Hq
                 |s i th r kv' rep Hi Hb He|s i th r Hi Hb He
                 |s i th c cs Hi Hb|s i th Hi Hb]; simpl;
    try (by exists th0);
    rewrite Hws in *; destruct i as [|i]; try done;
    simpl in Hi; injection Hi as ->; unfold printing in *; simpl in *;
    rewrite ?Hb in *; eexists; (split; [done|]); simpl; try done.
  - destruct (KVStoreFacts.exec_shows hash r _ _ Hsh) as (k1 & He1 & _).
    rewrite He in He1. injection He1 as _ ->.
    rewrite flat_replies_snoc, log_of_snoc by apply flat_replies_length.
    rewrite app_nil_r in Hlog. by rewrite Hlog.
  - by rewrite <- app_assoc.
Qed.

(** X18 (the log of one worker).  With a single worker, when [shutdown]
    has returned, what reached [std::cout] is one complete log line per
    request, in the order of submission, each [GET] line showing the value
    that the requests submitted before it left for its key, or the null
    marker when they left none. *)
Theorem one_worker_log shardCount rs sched s :
  0 < shardCount →
  s = run hash sched (init shardCount 1 (map Submit rs ++ [Shutdown])) →
  finished s →
  out s = log_of 0 rs (Flat.exec_all rs ∅).2.
Proof.
  intros Hsc Hs Hfin.
  destruct (single_worker_order hash shardCount rs sched s Hsc Hs Hfin)
    as [Happ _].
  destruct (drain_general hash shardCount 1 rs sched s Hsc) as
    (_ & _ & _ & _ & _ & Hall & _); [lia|done|done|].
  assert (Hlog : solo_log s).
  { subst s. clear Hfin Happ Hall.
    pose proof (Inv_init hash shardCount 1 (map Submit rs ++ [Shutdown]) Hsc)
      as HI.
    assert (H0 : solo_log (init shardCount 1 (map Submit rs ++ [Shutdown])))
      by (by eexists).
    revert HI H0. generalize (init shardCount 1 (map Submit rs ++ [Shutdown])).
    induction sched as [|t sched IH]; intros s HI Hs; simpl; [done|].
    destruct (step hash t s) as [s'|] eqn:Hst; simpl; [|by apply IH].
    apply step_Step in Hst. apply IH.
    - by eapply Inv_step.
    - by eapply solo_log_step. }
  destruct Hlog as (th & Hws & Hlog). rewrite Hws in Hall.
  apply Forall_cons in Hall as [[Hb _] _].
  unfold printing in Hlog. rewrite Hb, app_nil_r, Happ in Hlog. done.
Qed.

(** *** The log of several workers *)

Lemma worker_log_snoc j ids rs reps i r rep :
  length ids = length rs → length reps = length rs →
  worker_log j (ids ++ [i]) (rs ++ [r]) (reps ++ [rep])
  = worker_log j ids rs reps
    ++ (if decide (i = j) then log_line j r rep else []).
Proof.
  revert rs reps. induction ids as [|i' ids IH]; intros [|r' rs] [|rep' reps];
    simpl; intros Hl1 Hl2; try done.
  - by rewrite app_nil_r.
  - rewrite IH by lia. by rewrite app_assoc.
Qed.

Lemma written_snoc j tags o i c :
  length tags = length o →
  written j (tags ++ [i]) (o ++ [c])
  = written j tags o ++ (if decide (i = j) then [c] else []).
Proof.
  intros Hlen. unfold written.
  rewrite zip_with_app by done. rewrite filter_app, map_app. f_equal.
  simpl. rewrite filter_cons, filter_nil. simpl.
  by destruct (decide (i = j)).
Qed.

Lemma logged_init shardCount n cs : logged n (init shardCount n cs).
Proof.
  exists [], []. split_and!; simpl; try done.
  intros i th [-> _]%lookup_replicate. done.
Qed.

Lemma logged_step n prog t s s' :
  Inv hash n prog s → logged n s → Step hash t s s' → logged n s'.
Proof.
  intros HI (ids & tags & Hlen & Hids & Hlt & Htags & Hlog) HS.
  pose proof (inv_store _ _ _ _ HI) as Hsh.
  pose proof (inv_workers _ _ _ _ HI) as Hn.
  unfold logged.
  destruct HS as [s r todo Hm|s todo Hm|s i todo Hm Hi|s i todo th Hm Hi Hjn
                 |s i th Hi Hb Hs Hq|s i th r rest Hi Hb Hq
                 |s i th r kv' rep Hi Hb He|s i th r Hi Hb He
                 |s i th c cs Hi Hb|s i th Hi Hb]; cbn [out workers applied].
  1, 2, 4: by exists ids, tags.
  - (* join *)
    exists ids, tags. split_and!; try done.
    intros j th' [(-> & <- & _)|(Hne & Hj)]%list_lookup_insert_Some;
      [|by apply Hlog].
    by rewrite <- (Hlog _ _ Hi).
  - (* the loop ends *)
    exists ids, tags. split_and!; try done.
    intros j th' [(-> & <- & _)|(Hne & Hj)]%list_lookup_insert_Some;
      [|by apply Hlog].
    rewrite <- (Hlog _ _ Hi). unfold printing. simpl. by rewrite Hb.
  - (* a request is taken *)
    exists ids, tags. split_and!; try done.
    intros j th' [(-> & <- & _)|(Hne & Hj)]%list_lookup_insert_Some;
      [|by apply Hlog].
    rewrite <- (Hlog _ _ Hi). unfold printing. simpl. by rewrite Hb.
  - (* the store call *)
    exists (ids ++ [i]), tags.
    destruct (KVStoreFacts.exec_shows hash r _ _ Hsh) as (k1 & He1 & _).
    rewrite He in He1. injection He1 as _ ->.
    split_and!; try done.
    + rewrite !length_app. simpl. lia.
    + apply Forall_app. split; [done|]. constructor; [|done].
      apply lookup_lt_Some in Hi. lia.
    + intros j th' Hj.
      rewrite flat_replies_snoc, worker_log_snoc
        by (try apply flat_replies_length; done).
      apply list_lookup_insert_Some in Hj as [(-> & <- & _)|(Hne & Hj)].
      * rewrite decide_True by done. rewrite <- (Hlog _ _ Hi).
        unfold printing. simpl. by rewrite Hb, app_nil_r.
      * rewrite decide_False by done. rewrite app_nil_r. by apply Hlog.
  - (* an undefined store call *)
    exists ids, tags. split_and!; try done.
    intros j th' [(-> & <- & _)|(Hne & Hj)]%list_lookup_insert_Some;
      [|by apply Hlog].
    rewrite <- (Hlog _ _ Hi). unfold printing. simpl. by rewrite Hb.
  - (* an insertion *)
    exists ids, (tags ++ [i]). split_and!; try done.
    + rewrite !length_app. simpl. lia.
    + apply Forall_app. split; [done|]. constructor; [|done].
      apply lookup_lt_Some in Hi. lia.
    + intros j th' Hj. rewrite written_snoc by done.
      apply list_lookup_insert_Some in Hj as [(-> & <- & _)|(Hne & Hj)].
      * rewrite decide_True by done. rewrite <- (Hlog _ _ Hi).
        unfold printing. simpl. rewrite Hb. by rewrite <- app_assoc.
      * rewrite decide_False by done. rewrite app_nil_r. by apply Hlog.
  - (* back to pop *)
    exists ids, tags. split_and!; try done.
    intros j th' [(-> & <- & _)|(Hne & Hj)]%list_lookup_insert_Some;
      [|by apply Hlog].
    rewrite <- (Hlog _ _ Hi). unfold printing. simpl. by rewrite Hb.
Qed.

(** X25 (the output is an interleaving of the workers' logs).  In every
    state of every run of every program on a store with a shard, with any
    number of workers: every request applied so far was applied by one of
    the workers and every insertion that reached [std::cout] was run by one
    of them, in such a way that the insertions of each worker, in the order
    in which they reached [std::cout], followed by those the worker has
    still to run for its current line, are exactly the log lines of the
    requests that worker applied, in the order in which it applied them,
    each under the number of the worker and each [GET] line with the value
    that the requests applied before it left for its key; a worker that has
    left its loop has written all of its lines. *)
Theorem every_request_logged shardCount n cs sched s :
  0 < shardCount →
  s = run hash sched (init shardCount n cs) →
  ∃ ids tags,
    length ids = length (applied s) ∧
    Forall (fun i => i < n) ids ∧
    length tags = length (out s) ∧
    Forall (fun i => i < n) tags ∧
    ∀ i th,
      workers s !! i = Some th →
      written i tags (out s) ++ printing th
      = worker_log i ids (applied s) (Flat.exec_all (applied s) ∅).2 ∧
      (body th = WReturned →
       written i tags (out s)
       = worker_log i ids (applied s) (Flat.exec_all (applied s) ∅).2).
Proof.
  intros Hsc ->.
  assert (Hlog : logged n (run hash sched (init shardCount n cs))).
  { pose proof (Inv_init hash shardCount n cs Hsc) as HI.
    pose proof (logged_init shardCount n cs) as H0.
    revert HI H0. generalize (init shardCount n cs).
    induction sched as [|t sched IH]; intros s HI Hs; simpl; [done|].
    destruct (step hash t s) as [s'|] eqn:Hst; simpl; [|by apply IH].
    apply step_Step in Hst. apply IH.
    - by eapply Inv_step.
    - by eapply logged_step. }
  destruct Hlog as (ids & tags & Hlen & Hids & Hlt & Htags & Hlog).
  exists ids, tags. split_and!; try done.
  intros i th Hi. split; [by apply Hlog|].
  intros Hb. rewrite <- (Hlog _ _ Hi). unfold printing.
  by rewrite Hb, app_nil_r.
Qed.

End More.

(** X14 (the hash is not observable).  Two pools that run the same program
    under the same schedule with different hash functions, on stores with a
    shard, agree at every moment on the queue, on every worker, on the
    owner, on the output and on both histories; and every [get] gives the
    same answer on their two stores. *)
Theorem hash_not_observable h1 h2 shardCount n cs sched k :
  0 < shardCount →
  same_but_store (run h1 sched (init shardCount n cs))
                 (run h2 sched (init shardCount n cs)) ∧
  KVStore.get h1 k (kv (run h1 sched (init shardCount n cs)))
  = KVStore.get h2 k (kv (run h2 sched (init shardCount n cs))).
Proof.
  intros Hsc.
  pose proof (Inv_init h1 shardCount n cs Hsc) as HI1.
  pose proof (Inv_init h2 shardCount n cs Hsc) as HI2.
  assert (Hsim : same_but_store (run h1 sched (init shardCount n cs))
                                (run h2 sched (init shardCount n cs))).
  { apply (run_any_hash h1 h2 n (compile n cs)); try done;
      by repeat split. }
  split; [done|].
  destruct (inv_store _ _ _ _ (Inv_run h1 _ _ sched _ HI1)) as [_ ->].
  destruct (inv_store _ _ _ _ (Inv_run h2 _ _ sched _ HI2)) as [_ ->].
  destruct Hsim as (_ & _ & _ & _ & _ & ->). done.
Qed.

Lemma requests_accounted_witness :
  submitted calm_final
    ≡ₚ applied calm_final ++ in_flight calm_final
       ++ BlockingQueue.q (queue calm_final) ∧
  length (workers calm_final) = NUM_WORKERS ∧
  (∀ todo, main calm_final = MRun todo →
           submitted calm_final ++ pushes todo
           = pushes (compile NUM_WORKERS main_calls)).
Proof.
  apply (requests_accounted fnv1a NUM_SHARDS NUM_WORKERS main_calls
           calm_schedule calm_final).
  - unfold NUM_SHARDS. lia.
  - reflexivity.
Defined.

Lemma store_is_replay_witness :
  (∀ k, KVStore.get fnv1a k (kv calm_final)
        = Some (Flat.get k (Flat.exec_all (applied calm_final) ∅).1)) ∧
  length (kv calm_final) = NUM_SHARDS ∧
  Forall (fun th => body th ≠ WUndefined) (workers calm_final).
Proof.
  apply (store_is_replay fnv1a NUM_SHARDS NUM_WORKERS main_calls
           calm_schedule calm_final).
  - unfold NUM_SHARDS. lia.
  - reflexivity.
Defined.

Lemma drain_any_workload_witness :
  submitted calm_final = main_requests ∧
  applied calm_final ≡ₚ main_requests ∧
  in_flight calm_final = [] ∧
  BlockingQueue.q (queue calm_final) = [] ∧
  BlockingQueue.stopped (queue calm_final) = true ∧
  Forall (fun th => body th = WReturned ∧ joinable th = false)
    (workers calm_final) ∧
  (∀ k, KVStore.get fnv1a k (kv calm_final)
        = Some (Flat.final k (applied calm_final) None)) ∧
  (∀ t, step fnv1a t calm_final = None).
Proof.
  apply (drain_any_workload fnv1a NUM_SHARDS NUM_WORKERS main_requests
           calm_schedule calm_final).
  - unfold NUM_SHARDS. lia.
  - unfold NUM_WORKERS. lia.
  - reflexivity.
  - vm_compute. reflexivity.
Defined.

Lemma shutdown_returns_witness :
  (∀ t s', step fnv1a t (run fnv1a [TMain; TWorker 1] main_init) = Some s' →
           weight s' < weight (run fnv1a [TMain; TWorker 1] main_init)) ∧
  (¬ finished (run fnv1a [TMain; TWorker 1] main_init) →
   ∃ t s', step fnv1a t (run fnv1a [TMain; TWorker 1] main_init) = Some s') ∧
  (∃ ext,
     length ext ≤ weight (run fnv1a [TMain; TWorker 1] main_init) ∧
     finished (run fnv1a ext (run fnv1a [TMain; TWorker 1] main_init))).
Proof.
  apply (shutdown_returns fnv1a NUM_SHARDS NUM_WORKERS main_requests
           [TMain; TWorker 1] (run fnv1a [TMain; TWorker 1] main_init)).
  - unfold NUM_SHARDS. lia.
  - reflexivity.
Defined.

Lemma one_worker_in_order_witness :
  applied solo_final = main_requests ∧
  ∀ k, KVStore.get fnv1a k (kv solo_final)
       = Some (Flat.final k main_requests None).
Proof.
  apply (one_worker_in_order fnv1a NUM_SHARDS main_requests solo_schedule
           solo_final).
  - unfold NUM_SHARDS. lia.
  - reflexivity.
  - vm_compute. reflexivity.
Defined.

Lemma one_worker_log_witness :
  out solo_final = log_of 0 main_requests (Flat.exec_all main_requests ∅).2.
Proof.
  apply (one_worker_log fnv1a NUM_SHARDS main_requests solo_schedule
           solo_final).
  - unfold NUM_SHARDS. lia.
  - reflexivity.
  - vm_compute. reflexivity.
Defined.

Lemma no_workers_nothing_served_witness :
  applied unserved_final = [] ∧
  kv unserved_final = KVStore.make NUM_SHARDS ∧
  BlockingQueue.q (queue unserved_final) = submitted unserved_final ∧
  main unserved_final ≠ MThrew ∧
  (finished unserved_final →
   BlockingQueue.q (queue unserved_final) = pushes (compile 0 main_calls)) ∧
  (∃ ext, finished (run fnv1a ext unserved_final)).
Proof.
  apply (no_workers_nothing_served fnv1a NUM_SHARDS main_calls
           (replicate 7 TMain) unserved_final).
  reflexivity.
Defined.

Lemma hash_not_observable_witness :
  same_but_store
    (run fnv1a racy_schedule (init NUM_SHARDS NUM_WORKERS main_calls))
    (run (fun _ => 0%N) racy_schedule (init NUM_SHARDS NUM_WORKERS main_calls)) ∧
  KVStore.get fnv1a "a"
    (kv (run fnv1a racy_schedule (init NUM_SHARDS NUM_WORKERS main_calls)))
  = KVStore.get (fun _ => 0%N) "a"
      (kv (run (fun _ => 0%N) racy_schedule
             (init NUM_SHARDS NUM_WORKERS main_calls))).
Proof.
  apply (hash_not_observable fnv1a (fun _ => 0%N) NUM_SHARDS NUM_WORKERS
           main_calls racy_schedule "a").
  unfold NUM_SHARDS. lia.
Defined.

Lemma every_request_logged_witness :
  ∃ ids tags,
    length ids = length (applied calm_final) ∧
    Forall (fun i => i < NUM_WORKERS) ids ∧
    length tags = length (out calm_final) ∧
    Forall (fun i => i < NUM_WORKERS) tags ∧
    ∀ i th,
      workers calm_final !! i = Some th →
      written i tags (out calm_final) ++ printing th
      = worker_log i ids (applied calm_final)
          (Flat.exec_all (applied calm_final) ∅).2 ∧
      (body th = WReturned →
       written i tags (out calm_final)
       = worker_log i ids (applied calm_final)
           (Flat.exec_all (applied calm_final) ∅).2).
Proof.
  apply (every_request_logged fnv1a NUM_SHARDS NUM_WORKERS main_calls
           calm_schedule calm_final).
  - unfold NUM_SHARDS. lia.
  - reflexivity.
Defined.

End ThreadPoolMore.

(** ** The shard under its lock: exclusion and completion *)

Module LockedShardMore.
Import LockedShard LockedShardFacts.

(** X19 (the lock excludes).  In every state of every run, two different
    callers are inside a call on the shard at the same time, each between
    taking the lock and its return, only if both calls are [get]; so a
    caller that is inside a [set] or a [del] is inside alone. *)
Theorem lock_excludes d0 progs sched i j ci cj ri rj :
  i ≠ j →
  callers (run sched (init d0 progs)) !! i = Some ci →
  callers (run sched (init d0 progs)) !! j = Some cj →
  inside ci = Some ri → inside cj = Some rj →
  type ri = GET ∧ type rj = GET.
Proof.
  intros Hne Hi Hj Hri Hrj.
  pose proof (Locks_run sched _ (Locks_init d0 progs)) as HL.
  destruct (two_inside _ i j ci cj ri rj HL Hne Hi Hj Hri Hrj) as [H1 H2].
  split; by apply writes_false.
Qed.

Lemma lock_excludes_witness :
  type (mkRequest GET "a" "") = GET ∧ type (mkRequest GET "b" "") = GET.
Proof.
  apply (lock_excludes {[ "a" := "1" ]}
           [[mkRequest GET "a" ""]; [mkRequest GET "b" ""]] [0; 1; 0] 0 1
           (mkCaller (PAccess (mkRequest GET "a" "")) [] [])
           (mkCaller (PLocked (mkRequest GET "b" "")) [] [])
           (mkRequest GET "a" "") (mkRequest GET "b" "")).
  - lia.
  - reflexivity.
  - reflexivity.
  - reflexivity.
  - reflexivity.
Defined.

Lemma sum_list_pos {A} (f : A → nat) (l : list A) :
  0 < sum_list (map f l) → ∃ i x, l !! i = Some x ∧ 0 < f x.
Proof.
  induction l as [|a l IH]; simpl; [lia|]. intros Hpos.
  destruct (f a) as [|k] eqn:Hfa.
  - destruct IH as (i & x & Hi & Hx); [lia|]. by exists (S i), x.
  - exists 0, a. split; [done|lia].
Qed.

Lemma sum_list_zero {A} (f : A → nat) (l : list A) :
  sum_list (map f l) = 0 → Forall (fun x => f x = 0) l.
Proof.
  induction l as [|a l IH]; simpl; [by constructor|]. intros Hz.
  constructor; [lia|apply IH; lia].
Qed.

Lemma busy_steps s t c :
  callers s !! t = Some c → pc c ≠ PIdle → ∃ s', step t s = Some s'.
Proof.
  intros Hc Hpc. unfold step. rewrite Hc.
  destruct (pc c) as [|r|r|r rep]; [done|by eexists| |by eexists].
  destruct (Shard.exec r (data s)). by eexists.
Qed.

Lemma locked_progress s :
  Locks s → 0 < weight s → ∃ t s', step t s = Some s'.
Proof.
  intros [Hr Hw Hx _] Hpos.
  destruct (sum_list_pos _ _ Hpos) as (t & c & Hc & Hcw).
  destruct (decide (sum_list (map shared_count (callers s))
                    + sum_list (map exclusive_count (callers s)) = 0))
    as [Hfree|Hheld].
  - (* nobody holds the lock *)
    destruct (pc c) as [|r|r|r rep] eqn:Hpc;
      [|exists t; apply (busy_steps s t c Hc); congruence..].
    unfold caller_weight in Hcw. rewrite Hpc in Hcw. simpl in Hcw.
    destruct (todo c) as [|r rest] eqn:Htodo; [simpl in Hcw; lia|].
    exists t. unfold step. rewrite Hc, Hpc, Htodo.
    assert (SharedMutex.writer (mutex s) = false) as Hwr.
    { destruct (SharedMutex.writer (mutex s)); [lia|done]. }
    assert (SharedMutex.readers (mutex s) = 0) as Hrd by lia.
    unfold acquire, SharedMutex.lock, SharedMutex.lock_shared.
    rewrite Hwr, Hrd. destruct (mode r); by eexists.
  - (* somebody holds it, and can go on *)
    assert (0 < sum_list (map (fun c => shared_count c + exclusive_count c)
                            (callers s))) as Hsum.
    { clear -Hheld. induction (callers s) as [|a l IH]; simpl in *; lia. }
    destruct (sum_list_pos _ _ Hsum) as (t' & c' & Hc' & Hh).
    exists t'. apply (busy_steps s t' c' Hc').
    intros Hidle. unfold shared_count, exclusive_count, holds in Hh.
    rewrite Hidle in Hh. simpl in Hh. lia.
Qed.

Lemma caller_weight_eq p td rp :
  caller_weight (mkCaller p td rp) = 4 * length td + pc_weight p.
Proof. done. Qed.

Lemma Call_weight t s s' : Step t s s' → weight s' < weight s.
Proof.
  intros HS. unfold weight.
  destruct HS as [t s c r rest m' Hc Hpc Htodo Hacq|t s c r Hc Hpc
                 |t s c r Hc Hpc|t s c r rep Hc Hpc]; simpl;
    match goal with
    | |- context [<[t := ?c']> _] =>
        pose proof (SumFacts.sum_list_insert caller_weight _ _ _ c' Hc) as Hs
    end;
    destruct c as [pcc td rp]; simpl in *; subst;
    repeat rewrite caller_weight_eq in Hs; simpl in Hs; lia.
Qed.

Lemma lin_of_lengths t tr :
  length (lin_replies_of t tr) = length (lin_requests_of t tr).
Proof.
  induction tr as [|e tr IH]; simpl; [done|].
  destruct e; try done. case_decide; simpl; by rewrite ?IH.
Qed.

Lemma locked_completion d0 progs s :
  Locks s → Linear d0 progs s →
  ∃ ext,
    length ext ≤ weight s ∧
    Forall quiet (callers (run ext s)) ∧
    mutex (run ext s) = SharedMutex.free ∧
    ∀ t c, callers (run ext s) !! t = Some c →
           ∃ p, progs !! t = Some p ∧ length (replies c) = length p.
Proof.
  remember (weight s) as w eqn:Hw. revert s Hw.
  induction (lt_wf w) as [w _ IH]. intros s -> HL HLin.
  destruct (decide (weight s = 0)) as [Hz|Hnz].
  - exists []. simpl. split; [lia|].
    assert (Hq : Forall quiet (callers s)).
    { apply sum_list_zero in Hz. eapply Forall_impl; [exact Hz|].
      intros c Hc. unfold caller_weight in Hc. unfold quiet.
      destruct (pc c), (todo c); simpl in Hc; try lia. done. }
    split; [done|]. split.
    + destruct HL as [Hr Hwr _ _].
      assert (Hcount : sum_list (map shared_count (callers s)) = 0 ∧
                       sum_list (map exclusive_count (callers s)) = 0).
      { clear -Hq. induction Hq as [|c l [Hpc _] _ [IH1 IH2]]; [done|].
        simpl. unfold shared_count at 1, exclusive_count at 1, holds.
        rewrite Hpc. simpl. done. }
      destruct Hcount as [Hs0 He0]. rewrite Hs0 in Hr. rewrite He0 in Hwr.
      destruct (mutex s) as [wr rd]. simpl in *. subst rd.
      destruct wr; [lia|done].
    + intros t c Hc. rewrite Forall_lookup in Hq.
      destruct (Hq _ _ Hc) as [Hpc Htd].
      pose proof (lin_program _ _ _ HLin _ _ Hc) as Hp.
      pose proof (lin_received _ _ _ HLin _ _ Hc) as Hrc.
      unfold current, pending in Hp, Hrc. rewrite Hpc in Hp, Hrc.
      rewrite Htd in Hp. simpl in Hp, Hrc. rewrite !app_nil_r in *.
      eexists. split; [exact Hp|]. by rewrite <- Hrc, lin_of_lengths.
  - destruct (locked_progress s HL) as (t & s' & Hstep); [lia|].
    pose proof (step_Call _ _ _ Hstep) as HS.
    destruct (IH (weight s') (Call_weight _ _ _ HS) s' eq_refl
                (Locks_step _ _ _ HL HS) (Linear_step _ _ _ _ _ HLin HS))
      as (ext & Hlen & Hrest).
    exists (t :: ext). simpl. rewrite Hstep. simpl. split; [|done].
    pose proof (Call_weight _ _ _ HS). lia.
Qed.

(** X20 (calls on the shard complete).  In every state of every run: every
    step lowers the weight of the state, so no run goes on for ever; while
    a call is in progress or still to be made some caller can take a step,
    so the lock never deadlocks; and the run can be continued, within as many
    steps as the weight, to a state in which every caller has returned from
    all its calls with one reply per call and the lock is free. *)
Theorem calls_complete d0 progs sched :
  let s := run sched (init d0 progs) in
  (∀ t s', step t s = Some s' → weight s' < weight s) ∧
  (0 < weight s → ∃ t s', step t s = Some s') ∧
  (∃ ext,
     length ext ≤ weight s ∧
     Forall quiet (callers (run ext s)) ∧
     mutex (run ext s) = SharedMutex.free ∧
     ∀ t c, callers (run ext s) !! t = Some c →
            ∃ p, progs !! t = Some p ∧ length (replies c) = length p).
Proof.
  intros s.
  pose proof (Locks_run sched _ (Locks_init d0 progs)) as HL.
  pose proof (Linear_run d0 progs sched _ (Linear_init d0 progs)) as HLin.
  fold s in HL, HLin. split_and!.
  - intros t s' Hstep. apply (Call_weight t). by apply step_Call.
  - by apply locked_progress.
  - by apply (locked_completion d0 progs).
Qed.

End LockedShardMore.

(** ** The queue under its mutex and its condition variable *)

Module WaitingQueueMore.
Import WaitingQueue.
Section More.
Context {T : Type}.
Implicit Types (s : State T) (c : Caller T) (tr : list (Event T)).

Lemma step_queue_Step a s s' : step a s = Some s' → Step a s s'.
Proof.
  destruct a as [t|t u|u]; simpl.
  - destruct (callers s !! t) as [c|] eqn:Hc; [|done]. unfold step_run.
    destruct (pc c) as [|item| | | | | |] eqn:Hpc.
    + destruct (todo c) as [|o rest] eqn:Htodo; [done|].
      destruct (locked s) eqn:Hl; [done|]. intros [= <-]. by econstructor.
    + intros [= <-]. by econstructor.
    + destruct (existsb is_waiting (callers s)) eqn:He; [done|].
      intros [= <-]. by econstructor.
    + intros [= <-]. by econstructor.
    + intros [= <-]. by econstructor.
    + destruct (BlockingQueue.pop (queue s)) as [| |item bq'] eqn:Hpop;
        intros [= <-]; by econstructor.
    + done.
    + destruct (locked s) eqn:Hl; [done|]. intros [= <-]. by econstructor.
  - destruct (callers s !! t) as [c|] eqn:Hc; [|done].
    destruct (callers s !! u) as [w|] eqn:Hw; [|done].
    destruct (pc c) eqn:Hpc; try done. destruct (pc w) eqn:Hpw; try done.
    intros [= <-]. by econstructor.
  - destruct (callers s !! u) as [w|] eqn:Hw; [|done].
    destruct (pc w) eqn:Hpw; try done. intros [= <-]. by econstructor.
Qed.

(** *** Counting callers *)

Lemma sum_wake_hold (l : list (Caller T)) :
  sum_list (map hold_count (map wake l)) = sum_list (map hold_count l).
Proof.
  induction l as [|[p td rs] l IH]; simpl; [done|]. rewrite IH.
  by destruct p.
Qed.

Lemma sum_wake_notify_all (l : list (Caller T)) :
  sum_list (map notify_all_count (map wake l))
  = sum_list (map notify_all_count l).
Proof.
  induction l as [|[p td rs] l IH]; simpl; [done|]. rewrite IH.
  by destruct p.
Qed.

Lemma sum_wake_wait (l : list (Caller T)) :
  sum_list (map wait_count (map wake l)) = 0.
Proof.
  induction l as [|[p td rs] l IH]; simpl; [done|]. rewrite IH.
  by destruct p.
Qed.

Lemma none_waiting (l : list (Caller T)) :
  existsb is_waiting l = false → sum_list (map wait_count l) = 0.
Proof.
  induction l as [|[p td rs] l IH]; simpl; [done|].
  intros [Hp Hl]%orb_false_iff. rewrite (IH Hl). by destruct p.
Qed.

Lemma some_waiting (l : list (Caller T)) :
  0 < sum_list (map wait_count l) ↔ ∃ t c, l !! t = Some c ∧ pc c = PWaiting.
Proof.
  split.
  - intros (t & c & Hc & Hw)%LockedShardMore.sum_list_pos.
    exists t, c. split; [done|]. unfold wait_count in Hw.
    destruct (pc c); try done; lia.
  - intros (t & c & Hc & Hpc).
    pose proof (SumFacts.sum_list_lookup wait_count _ _ _ Hc) as Hle.
    unfold wait_count at 1 in Hle. rewrite Hpc in Hle. lia.
Qed.

Lemma wake_id c : pc c ≠ PWaiting → wake c = c.
Proof. unfold wake. by destruct (pc c). Qed.

Lemma hold_count_eq (p : Pc T) td rs :
  hold_count (mkCaller p td rs)
  = match p with PPush _ | PShutdown | PPop => 1 | _ => 0 end.
Proof. done. Qed.

Lemma wait_count_eq (p : Pc T) td rs :
  wait_count (mkCaller p td rs) = match p with PWaiting => 1 | _ => 0 end.
Proof. done. Qed.

Lemma credit_eq (p : Pc T) td rs :
  credit (mkCaller p td rs)
  = match p with PNotifyOne | PWoken | PPop => 1 | _ => 0 end.
Proof. done. Qed.

Lemma notify_all_count_eq (p : Pc T) td rs :
  notify_all_count (mkCaller p td rs)
  = match p with PNotifyAll => 1 | _ => 0 end.
Proof. done. Qed.

(** *** The wake-up discipline is an invariant *)

Lemma Wake_init progs : Wake (T := T) (init progs).
Proof.
  assert (H : ∀ f : Caller T → nat,
            (∀ td rs, f (mkCaller PIdle td rs) = 0) →
            sum_list (map f (callers (init progs))) = 0).
  { intros f Hf. simpl. induction progs as [|p progs IH]; simpl; [done|].
    by rewrite Hf, IH. }
  constructor; rewrite ?H by done; simpl; try done; lia.
Qed.

Local Ltac counts Hc c' :=
  pose proof (SumFacts.sum_list_insert hold_count _ _ _ c' Hc);
  pose proof (SumFacts.sum_list_insert wait_count _ _ _ c' Hc);
  pose proof (SumFacts.sum_list_insert credit _ _ _ c' Hc);
  pose proof (SumFacts.sum_list_insert notify_all_count _ _ _ c' Hc).

Local Ltac norm :=
  unfold set_pc in *; cbn [pc todo results] in *;
  repeat rewrite hold_count_eq in *; repeat rewrite wait_count_eq in *;
  repeat rewrite credit_eq in *; repeat rewrite notify_all_count_eq in *.

Local Ltac close :=
  intros;
  repeat match goal with
         | H : ?P → _, H' : ?P |- _ => specialize (H H')
         end;
  try congruence; try (destruct (locked _)); lia.

Lemma Wake_step a s s' : Wake s → Step a s s' → Wake s'.
Proof.
  intros [Hm Hi Hs] HS.
  destruct HS as [t s [p td rs] o rest Hc Hpc Htd Hl
                 |t s [p td rs] item Hc Hpc
                 |t s [p td rs] Hc Hpc Hnw
                 |t u s [p td rs] [pw tdw rsw] Hc Hpc Hw Hpw
                 |t s [p td rs] Hc Hpc
                 |t s [p td rs] Hc Hpc
                 |t s [p td rs] Hc Hpc Hpop
                 |t s [p td rs] Hc Hpc Hpop
                 |t s [p td rs] item bq' Hc Hpc Hpop
                 |t s [p td rs] Hc Hpc Hl
                 |u s [pw tdw rsw] Hw Hpw];
    simpl in *; subst.
  - counts Hc (mkCaller (enter o) rest rs). norm. rewrite Hl in Hm.
    constructor; cbn [callers locked queue]; destruct o; simpl in *; close.
  - counts Hc (mkCaller (T := T) PNotifyOne td rs). norm.
    constructor; cbn [callers locked queue]; simpl; rewrite ?length_app;
      simpl; close.
  - counts Hc (mkCaller (T := T) PIdle td rs). norm.
    pose proof (none_waiting _ Hnw).
    constructor; cbn [callers locked queue]; close.
  - assert (t ≠ u) as Hne by (intros ->; congruence).
    assert (Hc' : <[u := mkCaller PWoken tdw rsw]> (callers s) !! t
                  = Some (mkCaller PNotifyOne td rs))
      by (by rewrite list_lookup_insert_ne).
    counts Hw (mkCaller (T := T) PWoken tdw rsw).
    counts Hc' (mkCaller (T := T) PIdle td rs). norm.
    constructor; cbn [callers locked queue]; close.
  - counts Hc (mkCaller (T := T) PNotifyAll td rs). norm.
    constructor; cbn [callers locked queue]; simpl; close.
  - assert (Hc' : map wake (callers s) !! t
                  = Some (mkCaller PNotifyAll td rs))
      by (by rewrite list_lookup_fmap, Hc).
    counts Hc' (mkCaller (T := T) PIdle td rs). norm.
    rewrite sum_wake_hold, sum_wake_wait, sum_wake_notify_all in *.
    constructor; cbn [callers locked queue]; close.
  - counts Hc (mkCaller (T := T) PWaiting td rs). norm.
    apply BlockingQueueFacts.pop_wait_iff in Hpop as [Hst Hq].
    constructor; cbn [callers locked queue]; rewrite ?Hq; simpl; close.
  - counts Hc (mkCaller PIdle td (rs ++ [BlockingQueue.OutEnd])). norm.
    apply BlockingQueueFacts.pop_end_iff in Hpop as [Hst Hq].
    constructor; cbn [callers locked queue]; rewrite ?Hq; simpl; close.
  - counts Hc (mkCaller PIdle td (rs ++ [BlockingQueue.OutItem item])). norm.
    apply BlockingQueueFacts.pop_item_inv in Hpop as [Hq Hst].
    rewrite Hq in Hi. simpl in Hi.
    constructor; cbn [callers locked queue]; rewrite ?Hst; close.
  - counts Hc (mkCaller (T := T) PPop td rs). norm. rewrite Hl in Hm.
    constructor; cbn [callers locked queue]; close.
  - counts Hw (mkCaller (T := T) PWoken tdw rsw). norm.
    constructor; cbn [callers locked queue]; close.
Qed.

Lemma Wake_run acts s : Wake s → Wake (run acts s).
Proof.
  revert s. induction acts as [|a acts IH]; intros s Hs; simpl; [done|].
  apply IH. destruct (step a s) as [s'|] eqn:Hst; simpl; [|done].
  eapply Wake_step; [done|]. by eapply step_queue_Step.
Qed.

(** *** The atomic queue is what the mutex gives *)

Lemma calls_snoc (os : list (BlockingQueue.Op T)) o bq :
  BlockingQueue.calls (os ++ [o]) bq
  = ((BlockingQueue.call o (BlockingQueue.calls os bq).1).1,
     (BlockingQueue.calls os bq).2
     ++ option_list (BlockingQueue.call o (BlockingQueue.calls os bq).1).2).
Proof.
  revert bq. induction os as [|o' os IH]; intros bq.
  - simpl. destruct (BlockingQueue.call o bq) as [bq1 [out|]]; done.
  - cbn [app BlockingQueue.calls].
    destruct (BlockingQueue.call o' bq) as [bq1 out1]. rewrite IH.
    destruct (BlockingQueue.calls os bq1) as [bq2 outs2]. simpl.
    destruct out1; done.
Qed.

Lemma lin_ops_snoc tr (e : Event T) :
  lin_ops (tr ++ [e]) = lin_ops tr ++ [ev_op e].
Proof. unfold lin_ops. by rewrite map_app. Qed.

Lemma lin_outs_snoc tr (e : Event T) :
  lin_outs (tr ++ [e]) = lin_outs tr ++ option_list (ev_out e).
Proof.
  unfold lin_outs. rewrite omap_app. simpl. by destruct (ev_out e).
Qed.

Lemma by_caller_snoc t tr (e : Event T) :
  by_caller t (tr ++ [e])
  = by_caller t tr ++ (if decide (ev_caller e = t) then [e] else []).
Proof.
  unfold by_caller. by rewrite filter_app.
Qed.

Lemma Queue_linear_init progs : Linear (T := T) progs (init progs).
Proof.
  constructor; simpl; try done.
  - apply not_elem_of_nil.
  - by rewrite length_map.
  - intros t c Hc. rewrite list_lookup_fmap in Hc.
    destruct (progs !! t); by simplify_eq/=.
  - intros t c Hc. rewrite list_lookup_fmap in Hc.
    destruct (progs !! t); by simplify_eq/=.
Qed.

(** A step that completes no critical section. *)
Lemma Linear_silent progs s s' :
  Linear progs s →
  queue s' = queue s → trace s' = trace s →
  length (callers s') = length (callers s) →
  (∀ t c', callers s' !! t = Some c' →
           ∃ c, callers s !! t = Some c ∧ results c' = results c ∧
                current c' ++ todo c' = current c ++ todo c) →
  Linear progs s'.
Proof.
  intros [Hq Hnw Hlen Hres Hprog] Hqueue Htr Hl Hcs.
  constructor; rewrite ?Hqueue, ?Htr; try done.
  - congruence.
  - intros t c' Hc'. destruct (Hcs _ _ Hc') as (c & Hc & -> & _). by apply Hres.
  - intros t c' Hc'. destruct (Hcs _ _ Hc') as (c & Hc & _ & ->).
    by apply Hprog.
Qed.

(** A step that completes the critical section of a call. *)
Lemma Linear_event progs s t c c' e bq' lk :
  Linear progs s →
  callers s !! t = Some c →
  ev_caller e = t →
  BlockingQueue.call (ev_op e) (queue s) = (bq', ev_out e) →
  ev_out e ≠ Some BlockingQueue.OutWait →
  results c' = results c ++ option_list (ev_out e) →
  current c = [ev_op e] → current c' = [] → todo c' = todo c →
  Linear progs (mkState bq' lk (<[t := c']> (callers s)) (trace s ++ [e])).
Proof.
  intros [Hq Hnw Hlen Hres Hprog] Hc Het Hcall Hout Hr Hcur Hcur' Htd.
  constructor; cbn [queue trace callers].
  - rewrite lin_ops_snoc, lin_outs_snoc, calls_snoc, Hq. simpl.
    by rewrite Hcall.
  - rewrite lin_outs_snoc. intros [Hin|Hin]%elem_of_app; [done|].
    destruct (ev_out e) as [o|]; simpl in Hin.
    + apply list_elem_of_singleton in Hin. congruence.
    + by apply not_elem_of_nil in Hin.
  - by rewrite length_insert.
  - intros t' c0 [(-> & <- & _)|(Hne & Hc0)]%list_lookup_insert_Some.
    + rewrite by_caller_snoc, decide_True by done.
      rewrite lin_outs_snoc, (Hres _ _ Hc). done.
    + rewrite by_caller_snoc, decide_False by congruence.
      rewrite app_nil_r. by apply Hres.
  - intros t' c0 [(-> & <- & _)|(Hne & Hc0)]%list_lookup_insert_Some.
    + rewrite by_caller_snoc, decide_True by done.
      rewrite lin_ops_snoc, (Hprog _ _ Hc), Hcur, Hcur', Htd.
      by rewrite <- app_assoc.
    + rewrite by_caller_snoc, decide_False by congruence.
      rewrite app_nil_r. by apply Hprog.
Qed.

Lemma insert_silent s t c c' :
  callers s !! t = Some c →
  results c' = results c →
  current c' ++ todo c' = current c ++ todo c →
  ∀ t0 c0, <[t := c']> (callers s) !! t0 = Some c0 →
           ∃ c1, callers s !! t0 = Some c1 ∧ results c0 = results c1 ∧
                 current c0 ++ todo c0 = current c1 ++ todo c1.
Proof.
  intros Hc Hr Hp t0 c0 [(-> & <- & _)|(Hne & Hc0)]%list_lookup_insert_Some.
  - by exists c.
  - by exists c0.
Qed.

Lemma Queue_linear_step progs a s s' :
  Linear progs s → Step a s s' → Linear progs s'.
Proof.
  intros HL HS.
  destruct HS as [t s c o rest Hc Hpc Htd Hl|t s c item Hc Hpc
                 |t s c Hc Hpc Hnw|t u s c w Hc Hpc Hw Hpw
                 |t s c Hc Hpc|t s c Hc Hpc
                 |t s c Hc Hpc Hpop|t s c Hc Hpc Hpop
                 |t s c item bq' Hc Hpc Hpop|t s c Hc Hpc Hl
                 |u s w Hw Hpw].
  - eapply Linear_silent;
      [done|done|done|by cbn [callers]; rewrite length_insert|].
    apply (insert_silent s t c); [done|done|].
    unfold current. rewrite Hpc, Htd. by destruct o.
  - apply (Linear_event progs s t c _
             (mkEvent t (BlockingQueue.OpPush item) None)); try done.
    + simpl. by rewrite app_nil_r.
    + unfold current. by rewrite Hpc.
  - eapply Linear_silent;
      [done|done|done|by cbn [callers]; rewrite length_insert|].
    apply (insert_silent s t c); [done|done|].
    unfold current. simpl. by rewrite Hpc.
  - eapply Linear_silent;
      [done|done|done|by cbn [callers]; rewrite !length_insert|].
    cbn [callers].
    intros t0 c0 [(-> & <- & _)|(Hne & Hc0)]%list_lookup_insert_Some.
    + exists c. split_and!; try done. unfold current. simpl. by rewrite Hpc.
    + apply list_lookup_insert_Some in Hc0 as [(-> & <- & _)|(Hne' & Hc0)].
      * exists w. split_and!; try done. unfold current. simpl.
        by rewrite Hpw.
      * by exists c0.
  - apply (Linear_event progs s t c _
             (mkEvent t BlockingQueue.OpShutdown None)); try done.
    + simpl. by rewrite app_nil_r.
    + unfold current. by rewrite Hpc.
  - eapply Linear_silent; [done|done|done| |].
    + cbn [callers]. by rewrite length_insert, length_map.
    + cbn [callers].
      assert (Hwk : ∀ t0 c0, map wake (callers s) !! t0 = Some c0 →
                ∃ c1, callers s !! t0 = Some c1 ∧ results c0 = results c1 ∧
                      current c0 ++ todo c0 = current c1 ++ todo c1).
      { intros t0 c0 Hc0. rewrite list_lookup_fmap in Hc0.
        destruct (callers s !! t0) as [c1|]; [|done]. simpl in Hc0.
        injection Hc0 as <-. exists c1. split; [done|].
        unfold wake, current. destruct (pc c1) eqn:Hp1; simpl;
          rewrite ?Hp1; done. }
      intros t0 c0 [(-> & <- & _)|(Hne & Hc0)]%list_lookup_insert_Some.
      * exists c. split_and!; try done. unfold current. simpl.
        by rewrite Hpc.
      * by apply Hwk.
  - eapply Linear_silent;
      [done|done|done|by cbn [callers]; rewrite length_insert|].
    apply (insert_silent s t c); [done|done|].
    unfold current. simpl. by rewrite Hpc.
  - apply (Linear_event progs s t c _
             (mkEvent t BlockingQueue.OpPop (Some BlockingQueue.OutEnd)));
      try done.
    + simpl. by rewrite Hpop.
    + unfold current. by rewrite Hpc.
  - apply (Linear_event progs s t c _
             (mkEvent t BlockingQueue.OpPop
                (Some (BlockingQueue.OutItem item)))); try done.
    + simpl. by rewrite Hpop.
    + unfold current. by rewrite Hpc.
  - eapply Linear_silent;
      [done|done|done|by cbn [callers]; rewrite length_insert|].
    apply (insert_silent s t c); [done|done|].
    unfold current. simpl. by rewrite Hpc.
  - eapply Linear_silent;
      [done|done|done|by cbn [callers]; rewrite length_insert|].
    apply (insert_silent s u w); [done|done|].
    unfold current. simpl. by rewrite Hpw.
Qed.

Lemma Queue_linear_run progs acts s :
  Linear progs s → Linear progs (run acts s).
Proof.
  revert s. induction acts as [|a acts IH]; intros s Hs; simpl; [done|].
  apply IH. destruct (step a s) as [s'|] eqn:Hst; simpl; [|done].
  eapply Queue_linear_step; [done|]. by eapply step_queue_Step.
Qed.

(** X21 (the queue is linearizable).  In every state of every run of any
    callers, spurious wake-ups included: a caller that holds [m] holds it
    alone; the contents of the queue, its stop flag and every return of
    [pop] are those of the atomic calls run one after the other in the order
    of the critical sections, and no [pop] has returned out of a wait whose
    predicate was false; every caller has made the calls of its program in
    order and has got the returns of its own pops; and the items returned
    so far, followed by the items still queued, are the items pushed, in
    the order of the pushes. *)
Theorem queue_linearizable progs acts :
  let s := run (T := T) acts (init progs) in
  (∀ i j ci cj,
     i ≠ j → callers s !! i = Some ci → callers s !! j = Some cj →
     hold_count ci = 1 → hold_count cj = 0) ∧
  BlockingQueue.calls (lin_ops (trace s)) BlockingQueue.empty
  = (queue s, lin_outs (trace s)) ∧
  (BlockingQueue.OutWait ∉ lin_outs (trace s)) ∧
  (∀ t c,
     callers s !! t = Some c →
     lin_outs (by_caller t (trace s)) = results c ∧
     progs !! t
     = Some (lin_ops (by_caller t (trace s)) ++ current c ++ todo c)) ∧
  BlockingQueue.pushed (lin_ops (trace s))
  = BlockingQueue.delivered (lin_outs (trace s))
    ++ BlockingQueue.q (queue s).
Proof.
  intros s.
  pose proof (Wake_run acts _ (Wake_init progs)) as [Hm _ _].
  pose proof (Queue_linear_run progs acts _ (Queue_linear_init progs))
    as [Hq Hnw Hlen Hres Hprog].
  fold s in Hm, Hq, Hnw, Hres, Hprog. split_and!; try done.
  - intros i j ci cj Hne Hi Hj Hh.
    pose proof (SumFacts.sum_list_lookup_two hold_count _ _ _ _ _ Hne Hi Hj).
    destruct (locked s); lia.
  - intros t c Hc. split; [by apply Hres|by apply Hprog].
  - by rewrite <- (BlockingQueueFacts.calls_conservation _ _ _ _ Hq).
Qed.

(** *** Who can take a step *)

Lemma at_rest_stuck s :
  Forall at_rest (callers s) → stuck s.
Proof.
  intros Hall. rewrite Forall_lookup in Hall. split.
  - intros t. simpl. destruct (callers s !! t) as [c|] eqn:Hc; [|done].
    unfold step_run.
    destruct (Hall _ _ Hc) as [[-> ->]| ->]; done.
  - intros t u. simpl. destruct (callers s !! t) as [c|] eqn:Hc; [|done].
    destruct (callers s !! u) as [w|] eqn:Hw; [|done].
    destruct (Hall _ _ Hc) as [[-> _]| ->]; done.
Qed.

Lemma holder_steps s t c :
  callers s !! t = Some c → hold_count c = 1 →
  ∃ s', step (ARun t) s = Some s'.
Proof.
  intros Hc Hh. simpl. rewrite Hc. unfold step_run, hold_count in *.
  destruct (pc c); try done; try by eexists.
  destruct (BlockingQueue.pop (queue s)); by eexists.
Qed.

Lemma busy_caller_steps s t c :
  Wake s → callers s !! t = Some c → ¬ at_rest c →
  ∃ a s', spurious a = false ∧ step a s = Some s'.
Proof.
  intros [Hm _ _] Hc Hbusy. destruct (locked s) eqn:Hl.
  - destruct (LockedShardMore.sum_list_pos hold_count (callers s))
      as (i & x & Hi & Hx); [lia|].
    assert (hold_count x = 1) as Hx1
      by (unfold hold_count in *; destruct (pc x); lia).
    destruct (holder_steps s i x Hi Hx1) as [s' Hs'].
    by exists (ARun i), s'.
  - destruct (pc c) eqn:Hpc.
    + destruct (todo c) as [|o rest] eqn:Htd.
      { destruct Hbusy. by left. }
      exists (ARun t). simpl. rewrite Hc. unfold step_run.
      rewrite Hpc, Htd, Hl. by eexists.
    + exists (ARun t). simpl. rewrite Hc. unfold step_run. rewrite Hpc.
      by eexists.
    + destruct (existsb is_waiting (callers s)) eqn:Hw.
      * apply existsb_exists in Hw as (w & Hin & Hw).
        apply list_elem_of_In, list_elem_of_lookup in Hin as [u Hu].
        exists (ANotify t u). simpl. rewrite Hc, Hu, Hpc.
        unfold is_waiting in Hw. destruct (pc w); try done. by eexists.
      * exists (ARun t). simpl. rewrite Hc. unfold step_run.
        rewrite Hpc, Hw. by eexists.
    + exists (ARun t). simpl. rewrite Hc. unfold step_run. rewrite Hpc.
      by eexists.
    + exists (ARun t). simpl. rewrite Hc. unfold step_run. rewrite Hpc.
      by eexists.
    + exists (ARun t). simpl. rewrite Hc. unfold step_run. rewrite Hpc.
      destruct (BlockingQueue.pop (queue s)); by eexists.
    + destruct Hbusy. by right.
    + exists (ARun t). simpl. rewrite Hc. unfold step_run.
      rewrite Hpc, Hl. by eexists.
Qed.

Lemma at_rest_dec c : {at_rest c} + {¬ at_rest c}.
Proof.
  unfold at_rest, quiet.
  destruct (pc c) eqn:Hpc; try (right; intros [[? ?]|?]; congruence).
  - destruct (todo c) eqn:Htd.
    + left. by left.
    + right. intros [[? ?]|?]; congruence.
  - left. by right.
Qed.

Lemma stuck_at_rest s :
  Wake s → stuck s → Forall at_rest (callers s).
Proof.
  intros HW [Hrun Hnot]. apply Forall_lookup. intros t c Hc.
  destruct (at_rest_dec c) as [|Hbusy]; [done|].
  destruct (busy_caller_steps s t c HW Hc Hbusy) as (a & s' & Hsp & Hs').
  destruct a as [i|i u|u];
    [by rewrite Hrun in Hs'|by rewrite Hnot in Hs'|done].
Qed.

Lemma at_rest_counts s :
  Forall at_rest (callers s) →
  sum_list (map hold_count (callers s)) = 0 ∧
  sum_list (map credit (callers s)) = 0 ∧
  sum_list (map notify_all_count (callers s)) = 0.
Proof.
  generalize (callers s). intros l Hall.
  induction Hall as [|c l Hc Hall IH]; simpl; [done|].
  destruct IH as (-> & -> & ->).
  unfold hold_count, credit, notify_all_count.
  destruct Hc as [[-> _]| ->]; done.
Qed.

(** X22 (no lost wake-up).  In every state of every run, spurious wake-ups
    included, in which no caller can take a step of its own: [m] is free,
    every caller has returned from its last call or is blocked in the wait
    of [pop], and if one is blocked the queue is empty and not stopped.  So
    a [pop] never stays blocked while there is an item for it or the queue
    is stopped. *)
Theorem no_lost_wakeup progs acts s :
  s = run (T := T) acts (init progs) →
  stuck s →
  locked s = false ∧
  Forall at_rest (callers s) ∧
  ((∃ t c, callers s !! t = Some c ∧ pc c = PWaiting) →
   BlockingQueue.q (queue s) = [] ∧ BlockingQueue.stopped (queue s) = false).
Proof.
  intros -> Hstuck. set (s := run acts (init progs)) in *.
  pose proof (Wake_run acts _ (Wake_init progs)) as HW. fold s in HW.
  pose proof (stuck_at_rest s HW Hstuck) as Hrest.
  destruct (at_rest_counts s Hrest) as (Hh & Hcr & Hna).
  destruct HW as [Hm Hi Hs]. split_and!; try done.
  - destruct (locked s); [lia|done].
  - intros Hw%some_waiting. specialize (Hi Hw). split.
    + destruct (BlockingQueue.q (queue s)); [done|simpl in Hi; lia].
    + destruct (BlockingQueue.stopped (queue s)); [|done].
      specialize (Hs eq_refl Hw). lia.
Qed.

(** *** Once the queue is stopped *)

Lemma stopped_step a s s' :
  Step a s s' →
  BlockingQueue.stopped (queue s) = true →
  BlockingQueue.stopped (queue s') = true ∧
  (Forall (fun c => pc c ≠ PWaiting) (callers s) →
   Forall (fun c => pc c ≠ PWaiting) (callers s')).
Proof.
  intros HS Hst.
  destruct HS as [t s c o rest Hc Hpc Htd Hl|t s c item Hc Hpc
                 |t s c Hc Hpc Hnw|t u s c w Hc Hpc Hw Hpw
                 |t s c Hc Hpc|t s c Hc Hpc
                 |t s c Hc Hpc Hpop|t s c Hc Hpc Hpop
                 |t s c item bq' Hc Hpc Hpop|t s c Hc Hpc Hl
                 |u s w Hw Hpw]; cbn [queue callers].
  all: try (apply BlockingQueueFacts.pop_wait_iff in Hpop as [Hf _];
            congruence).
  all: try (apply BlockingQueueFacts.pop_item_inv in Hpop as [_ Hsame];
            rewrite Hsame).
  all: split; [done|]; intros Hall.
  all: repeat (apply Forall_insert; [|try done]); try done.
  - by destruct o.
  - apply Forall_fmap. eapply Forall_impl; [exact Hall|].
    intros x Hx. unfold wake. simpl. by destruct (pc x).
Qed.

Lemma stopped_run acts s :
  BlockingQueue.stopped (queue s) = true →
  Forall (fun c => pc c ≠ PWaiting) (callers s) →
  BlockingQueue.stopped (queue (run acts s)) = true ∧
  Forall (fun c => pc c ≠ PWaiting) (callers (run acts s)).
Proof.
  revert s. induction acts as [|a acts IH]; intros s Hst Hall; simpl; [done|].
  destruct (step a s) as [s'|] eqn:Hs; simpl; [|by apply IH].
  apply step_queue_Step in Hs.
  destruct (stopped_step a s s' Hs Hst) as [Hst' Hall'].
  apply IH; [done|by apply Hall'].
Qed.

(** X23 (shutdown unblocks every pop).  In every state of every run in
    which the queue is stopped and no caller is between the update of
    [shutdown] and its [notify_all]: no caller is blocked in the wait of
    [pop], and none ever is again, whatever the callers do next. *)
Theorem shutdown_unblocks progs acts more s :
  s = run (T := T) acts (init progs) →
  BlockingQueue.stopped (queue s) = true →
  Forall (fun c => pc c ≠ PNotifyAll) (callers s) →
  Forall (fun c => pc c ≠ PWaiting) (callers s) ∧
  BlockingQueue.stopped (queue (run more s)) = true ∧
  Forall (fun c => pc c ≠ PWaiting) (callers (run more s)).
Proof.
  intros -> Hst Hna. set (s := run acts (init progs)) in *.
  pose proof (Wake_run acts _ (Wake_init progs)) as [_ _ Hs]. fold s in Hs.
  assert (Hnw : Forall (fun c => pc c ≠ PWaiting) (callers s)).
  { apply Forall_lookup. intros t c Hc Hpc.
    assert (0 < sum_list (map wait_count (callers s))) as Hpos
      by (apply some_waiting; by exists t, c).
    specialize (Hs Hst Hpos).
    apply LockedShardMore.sum_list_pos in Hs as (i & x & Hi & Hx).
    rewrite Forall_lookup in Hna. specialize (Hna _ _ Hi).
    unfold notify_all_count in Hx. destruct (pc x); try done; lia. }
  split; [done|]. by apply stopped_run.
Qed.

(** *** Without spurious wake-ups every run ends *)

Lemma Step_length a s s' :
  Step a s s' → length (callers s') = length (callers s).
Proof.
  intros HS. destruct HS; cbn [callers];
    by rewrite ?length_insert, ?length_map.
Qed.

Lemma queue_caller_weight_eq n (p : Pc T) td rs :
  caller_weight n (mkCaller p td rs)
  = sum_list (map (op_weight n) td) + pc_weight n p.
Proof. done. Qed.

Lemma sum_wake_weight n (l : list (Caller T)) :
  sum_list (map (caller_weight n) (map wake l))
  = sum_list (map (caller_weight n) l) + 2 * sum_list (map wait_count l).
Proof.
  induction l as [|[p td rs] l IH]; simpl; [done|]. rewrite IH.
  rewrite wait_count_eq. unfold wake. simpl.
  destruct p; rewrite ?queue_caller_weight_eq; unfold set_pc; simpl;
    rewrite ?queue_caller_weight_eq; simpl; lia.
Qed.

Lemma sum_wait_length (l : list (Caller T)) :
  sum_list (map wait_count l) ≤ length l.
Proof.
  induction l as [|[p td rs] l IH]; simpl; [done|].
  rewrite wait_count_eq. destruct p; lia.
Qed.

Lemma Queue_step_weight a s s' :
  Step a s s' → spurious a = false → weight s' < weight s.
Proof.
  intros HS Hsp. unfold weight. rewrite (Step_length _ _ _ HS).
  remember (length (callers s)) as n eqn:Hn.
  destruct HS as [t s [p td rs] o rest Hc Hpc Htd Hl
                 |t s [p td rs] item Hc Hpc
                 |t s [p td rs] Hc Hpc Hnw
                 |t u s [p td rs] [pw tdw rsw] Hc Hpc Hw Hpw
                 |t s [p td rs] Hc Hpc
                 |t s [p td rs] Hc Hpc
                 |t s [p td rs] Hc Hpc Hpop
                 |t s [p td rs] Hc Hpc Hpop
                 |t s [p td rs] item bq' Hc Hpc Hpop
                 |t s [p td rs] Hc Hpc Hl
                 |u s [pw tdw rsw] Hw Hpw];
    simpl in *; subst; try done; set (n := length (callers s)) in *.
  - pose proof (SumFacts.sum_list_insert (caller_weight n) _ _ _
                  (mkCaller (enter o) rest rs) Hc) as E.
    rewrite !queue_caller_weight_eq in E. simpl in E.
    unfold op_weight in E. lia.
  - pose proof (SumFacts.sum_list_insert (caller_weight n) _ _ _
                  (mkCaller (T := T) PNotifyOne td rs) Hc) as E.
    unfold set_pc. rewrite !queue_caller_weight_eq in E. simpl in *. lia.
  - pose proof (SumFacts.sum_list_insert (caller_weight n) _ _ _
                  (mkCaller (T := T) PIdle td rs) Hc) as E.
    unfold set_pc. rewrite !queue_caller_weight_eq in E. simpl in *. lia.
  - assert (t ≠ u) as Hne by (intros ->; congruence).
    assert (Hc' : <[u := mkCaller PWoken tdw rsw]> (callers s) !! t
                  = Some (mkCaller PNotifyOne td rs))
      by (by rewrite list_lookup_insert_ne).
    pose proof (SumFacts.sum_list_insert (caller_weight n) _ _ _
                  (mkCaller (T := T) PWoken tdw rsw) Hw) as E1.
    pose proof (SumFacts.sum_list_insert (caller_weight n) _ _ _
                  (mkCaller (T := T) PIdle td rs) Hc') as E2.
    unfold set_pc. rewrite !queue_caller_weight_eq in E1, E2. simpl in *. lia.
  - pose proof (SumFacts.sum_list_insert (caller_weight n) _ _ _
                  (mkCaller (T := T) PNotifyAll td rs) Hc) as E.
    unfold set_pc. rewrite !queue_caller_weight_eq in E. simpl in *. lia.
  - assert (Hc' : map wake (callers s) !! t
                  = Some (mkCaller PNotifyAll td rs))
      by (by rewrite list_lookup_fmap, Hc).
    pose proof (SumFacts.sum_list_insert (caller_weight n)
                  _ _ _ (mkCaller (T := T) PIdle td rs) Hc') as E.
    pose proof (sum_wait_length (callers s)) as Hlen. fold n in Hlen.
    unfold set_pc. rewrite sum_wake_weight, !queue_caller_weight_eq in E.
    simpl in *. lia.
  - pose proof (SumFacts.sum_list_insert (caller_weight n) _ _ _
                  (mkCaller (T := T) PWaiting td rs) Hc) as E.
    unfold set_pc. rewrite !queue_caller_weight_eq in E. simpl in *. lia.
  - pose proof (SumFacts.sum_list_insert (caller_weight n) _ _ _
                  (mkCaller PIdle td (rs ++ [BlockingQueue.OutEnd])) Hc) as E.
    rewrite !queue_caller_weight_eq in E. simpl in *. lia.
  - pose proof (SumFacts.sum_list_insert (caller_weight n) _ _ _
                  (mkCaller PIdle td (rs ++ [BlockingQueue.OutItem item])) Hc)
      as E.
    rewrite !queue_caller_weight_eq in E. simpl in *. lia.
  - pose proof (SumFacts.sum_list_insert (caller_weight n) _ _ _
                  (mkCaller (T := T) PPop td rs) Hc) as E.
    unfold set_pc. rewrite !queue_caller_weight_eq in E. simpl in *. lia.
Qed.

Lemma rest_or_step s :
  Wake s →
  Forall at_rest (callers s) ∨
  ∃ a s', spurious a = false ∧ step a s = Some s'.
Proof.
  intros HW.
  destruct (Forall_Exists_dec _ _ at_rest_dec (callers s)) as [|Hex];
    [by left|right].
  apply Exists_exists in Hex as (c & Hin & Hbusy).
  apply list_elem_of_lookup in Hin as [t Hc].
  by eapply busy_caller_steps.
Qed.

Lemma run_to_rest s :
  Wake s →
  ∃ ext, length ext ≤ weight s ∧
         Forall (fun a => spurious a = false) ext ∧
         Wake (run ext s) ∧
         Forall at_rest (callers (run ext s)).
Proof.
  remember (weight s) as n eqn:Hn. revert s Hn.
  induction n as [n IH] using lt_wf_ind. intros s -> HW.
  destruct (rest_or_step s HW) as [Hrest|(a & s' & Hsp & Hstep)].
  - exists []. split_and!; simpl; try done. lia.
  - pose proof (step_queue_Step _ _ _ Hstep) as HS.
    pose proof (Queue_step_weight _ _ _ HS Hsp) as Hlt.
    destruct (IH (weight s') Hlt s' eq_refl (Wake_step _ _ _ HW HS))
      as (ext & Hlen & Hall & HW' & Hrest).
    exists (a :: ext). cbn [run]. rewrite Hstep. simpl.
    split_and!; try done; [lia|by constructor].
Qed.

(** X24 (without spurious wake-ups every run ends).  In every state of
    every run: a step other than a spurious wake-up lowers the weight of the
    state; and the run can be continued without spurious wake-ups, within
    as many steps as the weight, to a state in which no caller can take a
    step of its own, where every caller has returned from its last call or
    is blocked in [pop] on an empty queue that is not stopped.  If the queue
    is stopped there, every caller has returned from all its calls. *)
Theorem queue_calls_end progs acts :
  let s := run (T := T) acts (init progs) in
  (∀ a s', spurious a = false → step a s = Some s' → weight s' < weight s) ∧
  (∃ ext,
     length ext ≤ weight s ∧
     Forall (fun a => spurious a = false) ext ∧
     stuck (run ext s) ∧
     Forall at_rest (callers (run ext s)) ∧
     ((∃ t c, callers (run ext s) !! t = Some c ∧ pc c = PWaiting) →
      BlockingQueue.q (queue (run ext s)) = [] ∧
      BlockingQueue.stopped (queue (run ext s)) = false) ∧
     (BlockingQueue.stopped (queue (run ext s)) = true →
      Forall quiet (callers (run ext s)))).
Proof.
  intros s.
  pose proof (Wake_run acts _ (Wake_init progs)) as HW. fold s in HW.
  split.
  - intros a s' Hsp Hstep.
    apply (Queue_step_weight a); [by apply step_queue_Step|done].
  - destruct (run_to_rest s HW) as (ext & Hlen & Hall & HW' & Hrest).
    exists ext. destruct (at_rest_counts _ Hrest) as (Hh & Hcr & Hna).
    destruct HW' as [Hm Hi Hs].
    assert (Hempty : (∃ t c, callers (run ext s) !! t = Some c ∧
                             pc c = PWaiting) →
                     BlockingQueue.q (queue (run ext s)) = [] ∧
                     BlockingQueue.stopped (queue (run ext s)) = false).
    { intros Hw%some_waiting. specialize (Hi Hw). split.
      - destruct (BlockingQueue.q (queue (run ext s))); [done|].
        simpl in Hi; lia.
      - destruct (BlockingQueue.stopped (queue (run ext s))); [|done].
        specialize (Hs eq_refl Hw). lia. }
    split_and!; try done.
    + by apply at_rest_stuck.
    + intros Hst. apply Forall_lookup. intros t c Hc.
      rewrite Forall_lookup in Hrest.
      destruct (Hrest _ _ Hc) as [|Hpc]; [done|].
      destruct Hempty as [_ Hf]; [by exists t, c|congruence].
Qed.

End More.

Lemma no_lost_wakeup_witness :
  locked (run [ARun 0; ARun 0] (init [[BlockingQueue.OpPop (T := nat)]]))
  = false ∧
  Forall at_rest
    (callers (run [ARun 0; ARun 0] (init [[BlockingQueue.OpPop (T := nat)]])))
  ∧
  ((∃ t c,
      callers (run [ARun 0; ARun 0] (init [[BlockingQueue.OpPop (T := nat)]]))
        !! t = Some c ∧ pc c = PWaiting) →
   BlockingQueue.q
     (queue (run [ARun 0; ARun 0] (init [[BlockingQueue.OpPop (T := nat)]])))
   = [] ∧
   BlockingQueue.stopped
     (queue (run [ARun 0; ARun 0] (init [[BlockingQueue.OpPop (T := nat)]])))
   = false).
Proof.
  apply (no_lost_wakeup [[BlockingQueue.OpPop]] [ARun 0; ARun 0]).
  - reflexivity.
  - split.
    + intros [|t]; reflexivity.
    + intros [|t] [|u]; reflexivity.
Defined.

Lemma shutdown_unblocks_witness :
  Forall (fun c => pc c ≠ PWaiting)
    (callers (run [ARun 1; ARun 1; ARun 0; ARun 0; ARun 0]
                (init [[BlockingQueue.OpShutdown (T := nat)];
                       [BlockingQueue.OpPop]]))) ∧
  BlockingQueue.stopped
    (queue (run [ARun 1; ARun 1]
              (run [ARun 1; ARun 1; ARun 0; ARun 0; ARun 0]
                 (init [[BlockingQueue.OpShutdown (T := nat)];
                        [BlockingQueue.OpPop]])))) = true ∧
  Forall (fun c => pc c ≠ PWaiting)
    (callers (run [ARun 1; ARun 1]
                (run [ARun 1; ARun 1; ARun 0; ARun 0; ARun 0]
                   (init [[BlockingQueue.OpShutdown (T := nat)];
                          [BlockingQueue.OpPop]])))).
Proof.
  apply (shutdown_unblocks
           [[BlockingQueue.OpShutdown]; [BlockingQueue.OpPop]]
           [ARun 1; ARun 1; ARun 0; ARun 0; ARun 0] [ARun 1; ARun 1]).
  - reflexivity.
  - reflexivity.
  - vm_compute. repeat constructor; discriminate.
Defined.

End WaitingQueueMore.
